(** * compose-ref: pinning, archiving and publishing of compose bundles

    A shallow embedding of the four revisions of [internal/publish.go]
    (the typed-config revision and the three map-based revisions) together
    with the properties of image pinning, archive construction and bundle
    publication that are stated about them.

    Conventions.
    - A Go [string] is a [string] (a sequence of bytes), a [[]byte] a
      [list Byte.byte], an [int64] header size an integer of [Z].
    - A Go [map[string]interface{}] is a reference: service records live in
      a store indexed by addresses, and the services collection maps names
      to addresses, so that [svc["image"] = pinned] is an in-place update.
    - Standard output is the list of chunks written so far.
    - Code of other packages (reference parsing, registry and engine
      clients, archive/tar, filepath, fmt) is taken as a parameter: a record
      of collaborators ([Collab]) or the pre-computed result of the call. *)

From Stdlib Require Import ZArith Ascii String List Strings.Byte.
From stdpp Require Import base option list strings gmap.

Local Open Scope string_scope.
Local Open Scope list_scope.

(** ** Go values used by every revision *)

(** A Go [error]: built on the spot by [fmt.Errorf], or handed back by a
    collaborator and returned unchanged. *)
Inductive error : Type :=
| Errorf (msg : string)
| LibError (msg : string).

#[global] Instance error_eq_dec : EqDecision error.
Proof. solve_decision. Defined.

(** The newline that [fmt.Println] and the format strings write. *)
Definition nl : string := String (ascii_of_nat 10) EmptyString.

(** A Go slice that may be [nil]. *)
Definition GoSlice (A : Type) : Type := option (list A).

Definition append_slice {A : Type} (s : GoSlice A) (x : A) : GoSlice A :=
  match s with
  | None => Some [x]
  | Some l => Some (l ++ [x])
  end.

(** How one statement sequence ends: it falls through with a new state, it
    returns from the enclosing function ([None] is Go's [nil] error), or the
    runtime panics. *)
Inductive flow (S : Type) : Type :=
| Next (s : S)
| Return (s : S) (e : option error)
| Panic (s : S) (msg : string).
Arguments Next {S} s.
Arguments Return {S} s e.
Arguments Panic {S} s msg.

(** ** The [strings] functions the code calls *)

Module GoStrings.

(** [strings.HasPrefix]. *)
Definition HasPrefix (s p : string) : bool := String.prefix p s.

(** [strings.TrimPrefix]. *)
Definition TrimPrefix (s p : string) : string :=
  if HasPrefix s p
  then String.substring (String.length p) (String.length s - String.length p) s
  else s.

(** [strings.Replace(s, old, empty, -1)]: every non-overlapping occurrence of
    [old] is removed, scanning from the left; [skip] counts the bytes of
    the occurrence being dropped. *)
Fixpoint remove_from (old : string) (skip : nat) (s : string) : string :=
  match s with
  | EmptyString => EmptyString
  | String c rest =>
      match skip with
      | S k => remove_from old k rest
      | O =>
          if String.prefix old s
          then remove_from old (String.length old - 1) rest
          else String c (remove_from old 0 rest)
      end
  end.

Definition RemoveAll (s old : string) : string :=
  if String.eqb old EmptyString then s else remove_from old 0 s.

(** [strings.SplitAfterN(s, sep, 2)]: at most two parts, the first one
    ending with the first occurrence of [sep]. *)
Definition SplitAfterN2 (s sep : string) : list string :=
  match String.index 0 sep s with
  | None => [s]
  | Some i =>
      let cut := i + String.length sep in
      [String.substring 0 cut s;
       String.substring cut (String.length s - cut) s]
  end.

End GoStrings.

(** ** References, registries and engines (collaborators) *)

(** [reference.Named] as the code observes it: [reference.Domain],
    [reference.Path], and the [reference.Tagged] assertion, which holds
    exactly when a tag is present. *)
Record Named : Type := mkNamed {
  ref_domain : string;
  ref_path : string;
  ref_tag : option string;
  ref_digest : option string
}.

(** The textual form of a reference: name, then [:tag], then [@digest]. *)
Definition ref_string (r : Named) : string :=
  ref_domain r +:+ "/" +:+ ref_path r
    +:+ match ref_tag r with Some t => ":" +:+ t | None => EmptyString end
    +:+ match ref_digest r with Some d => "@" +:+ d | None => EmptyString end.

Record Descriptor : Type := mkDescriptor { Digest : string }.

Record Platform : Type := mkPlatform {
  Architecture : string;
  Variant : string
}.

(** The dynamic type of a [distribution.Manifest] interface value. *)
Inductive Manifest : Type :=
| NilManifest
| DeserializedManifestList (Manifests : list Platform)
| DeserializedManifest
| OtherManifest (shown : string).

(** [%v] of a manifest inside [fmt.Errorf]; the code formats only what
    reaches the default case of its type switch, a [nil] manifest or one of
    another type. *)
Definition fmt_v (m : Manifest) : string :=
  match m with
  | NilManifest => "<nil>"
  | DeserializedManifestList _ => "&{manifest list}"
  | DeserializedManifest => "&{manifest}"
  | OtherManifest shown => shown
  end.

(** [os.FileMode] as the code tests it: [IsDir], [IsRegular],
    [Mode()&os.ModeSymlink != 0]; anything else is a device, socket or fifo. *)
Inductive FileMode : Type :=
| ModeDir
| ModeRegular
| ModeSymlink
| ModeIrregular.

#[global] Instance FileMode_eq_dec : EqDecision FileMode.
Proof. solve_decision. Defined.

Definition IsDir (m : FileMode) : bool :=
  match m with ModeDir => true | _ => false end.

Definition IsRegular (m : FileMode) : bool :=
  match m with ModeRegular => true | _ => false end.

Definition IsSymlink (m : FileMode) : bool :=
  match m with ModeSymlink => true | _ => false end.

(** The fields of [tar.Header] that the code reads or writes. *)
Record Header : Type := mkHeader {
  h_Name : string;
  h_Size : Z;
  h_Linkname : string;
  h_Typeflag : FileMode
}.

(** One archive member: the header given to [tw.WriteHeader] and the bytes
    that the writer then stores for it. An archive is the sequence of
    members written; its tar and gzip encoding is the libraries' business. *)
Record Entry : Type := mkEntry {
  e_header : Header;
  e_body : list byte
}.

(** [tw.Write(b)] after the header of an entry of mode [m]. archive/tar
    stores content for a regular file only: the header of a link is a
    header without content, whatever its size field says, and a write after
    it stores nothing (the error that [Write] then returns is not read by
    the code). *)
Definition tar_Write (m : FileMode) (b : list byte) : list byte :=
  if IsRegular m then b else [].

(** The manifest built by [ocischema.NewManifestBuilder], one layer
    appended. *)
Record OCIManifest : Type := mkOCIManifest {
  m_annotations : list (string * string);
  m_layers : list Descriptor
}.

Record ManifestService : Type := mkManifestService {
  ms_Get : string -> Manifest * option error;
  ms_Put : OCIManifest -> string -> string * option error
}.

Record BlobStore : Type := mkBlobStore {
  bs_Put : string -> list Entry -> Descriptor * option error
}.

Record Repository : Type := mkRepository {
  Tags_Get : string -> Descriptor * option error;
  repo_Manifests : option ManifestService * option error;
  Blobs : BlobStore
}.

Record DistributionInspect : Type := mkDistributionInspect {
  di_Descriptor : Descriptor;
  di_Platforms : list Platform
}.

(** Everything the pinning code asks of other packages. [Printf] is
    [fmt.Printf] applied to a format string alone, which is how the code
    prints architecture and variant names. *)
Record Collab : Type := mkCollab {
  ParseNormalizedNamed : string -> Named + error;
  TagNameOnly : Named -> Named;
  GetRepository : Named -> Repository + error;
  DistributionInspectCall : string -> DistributionInspect * option error;
  Build : OCIManifest -> option error;
  Printf : string -> string
}.

(** ** The directory being archived *)

Record FileInfo : Type := mkFileInfo {
  fi_Name : string;      (* base name *)
  fi_Mode : FileMode;
  fi_Size : Z
}.

(** One call of the [filepath.Walk] callback: the path, its [os.FileInfo],
    the error of the walk, and what the file system answers when the
    callback opens and reads the file, or reads the link (which part_001
    does under the archive name of the item). *)
Record WalkItem : Type := mkWalkItem {
  file : string;
  info : FileInfo;
  walk_err : option error;
  opened : list byte + error;
  link_target : string + error
}.

(** The archive and path libraries: [tar.FileInfoHeader], the validation of
    [tw.WriteHeader], [filepath.Match] and [dockerignore.ReadAll]. *)
Record FsLib : Type := mkFsLib {
  FileInfoHeader : FileInfo -> string -> Header + error;
  WriteHeader : Header -> option error;
  Match : string -> string -> bool * option error;
  ReadAll : list byte -> GoSlice string * option error
}.

(** [err.Error()], as [%w] and [%s] print it. *)
Definition error_text (e : error) : string :=
  match e with Errorf msg => msg | LibError msg => msg end.

Definition compose_file : string := "docker-compose.yml".

(** [int64(len(composeContent))]. *)
Definition len64 (b : list byte) : Z := Z.of_nat (length b).

Definition with_Size (h : Header) (size : Z) : Header :=
  mkHeader (h_Name h) size (h_Linkname h) (h_Typeflag h).

Definition with_Name (h : Header) (name : string) : Header :=
  mkHeader name (h_Size h) (h_Linkname h) (h_Typeflag h).

Definition with_Linkname (h : Header) (link : string) : Header :=
  mkHeader (h_Name h) (h_Size h) link (h_Typeflag h).

(** [strings.TrimPrefix(strings.Replace(file, dir, empty, -1), string(filepath.Separator))]. *)
Definition archive_name (file dir : string) : string :=
  GoStrings.TrimPrefix (GoStrings.RemoveAll file dir) "/".

(** ** Service records *)

Definition addr : Type := nat.

Inductive Value : Type :=
| VStr (s : string)
| VMap (a : addr)
| VOther.

#[global] Instance Value_eq_dec : EqDecision Value.
Proof. solve_decision. Defined.

Record St : Type := mkSt {
  heap : gmap addr (gmap string Value);
  out : list string
}.

(** The map stored at an address; an address that holds nothing is Go's
    [nil] map, every lookup of which misses. *)
Definition deref (s : St) (a : addr) : gmap string Value :=
  default ∅ (heap s !! a).

Definition emit (chunk : string) (s : St) : St :=
  mkSt (heap s) (out s ++ [chunk]).

(** [svc["image"] = pinned]. *)
Definition set_image (a : addr) (pinned : string) (s : St) : St :=
  mkSt (<[a := <["image" := VStr pinned]> (deref s a)]> (heap s)) (out s).

(** [for name, obj := range services]: the list is the collection in the
    order in which the runtime iterates it. *)
Fixpoint range_services (body : string -> Value -> St -> flow St)
    (services : list (string * Value)) (s : St) : flow St :=
  match services with
  | [] => Return s None
  | (name, obj) :: rest =>
      match body name obj s with
      | Next s' => range_services body rest s'
      | stop => stop
      end
  end.

(** The platform loop shared by all revisions:
    [if i != 0 { Printf(", ") }; Printf(arch); if arch == "arm" { Printf(variant) }]. *)
Fixpoint print_platforms (c : Collab) (i : nat) (ps : list Platform) (s : St) : St :=
  match ps with
  | [] => s
  | p :: rest =>
      let s1 := if Nat.eqb i 0 then s else emit ", " s in
      let s2 := emit (Printf c (Architecture p)) s1 in
      let s3 := if String.eqb (Architecture p) "arm"
                then emit (Printf c (Variant p)) s2 else s2 in
      print_platforms c (S i) rest s3
  end.

Definition pinned_image (named : Named) (dgst : string) : string :=
  ref_domain named +:+ "/" +:+ ref_path named +:+ "@" +:+ dgst.

(** The type checks that open the loop body of the map-based revisions. *)
Definition image_attr (name : string) (obj : Value) (s : St)
    : (addr * string) + error :=
  match obj with
  | VMap a =>
      match deref s a !! "image" with
      | None => inr (Errorf ("Service(" +:+ name +:+ ") missing 'image' attribute"))
      | Some (VStr image) => inl (a, image)
      | Some _ => inr (Errorf ("Service(" +:+ name +:+ ") invalid 'image' attribute"))
      end
  | _ => inr (Errorf ("Service(" +:+ name +:+ ") has invalid format"))
  end.

(** ** Publication, shared by [CreateBundle] and [CreateApp]

    The four revisions differ only in the annotation key of the manifest
    and in the label of the first progress line. [marshalled] is the result
    of [yaml.Marshal(config)], [tgz] the revision's [createTgz] on the
    directory at hand: the lines it prints and the value it returns. *)
Definition publish (c : Collab) (kind label : string)
    (marshalled : list byte + error)
    (tgz : list byte -> string -> list string * (list Entry + error))
    (target : string) (o : list string) : flow (list string) :=
  match marshalled with
  | inr err => Return o (Some err)
  | inl pinned =>
      let '(printed, archived) := tgz pinned "./" in
      let o := o ++ printed in
      match archived with
      | inr err => Return o (Some err)
      | inl buff =>
          match ParseNormalizedNamed c target with
          | inr err => Return o (Some err)
          | inl named =>
              let tag :=
                match ref_tag (TagNameOnly c named) with
                | Some t => t
                | None => "latest"
                end in
              match GetRepository c named with
              | inr err => Return o (Some err)
              | inl repo =>
                  let blobStore := Blobs repo in
                  match bs_Put blobStore "application/tar+gzip" buff with
                  | (_, Some _) => Return o None   (* [return nil] *)
                  | (desc, None) =>
                      let o := o ++ ["  |-> " +:+ label +:+ ":  " +:+ Digest desc +:+ nl] in
                      let manifest := mkOCIManifest [(kind, "v1")] [desc] in
                      match Build c manifest with
                      | Some err => Return o (Some err)
                      | None =>
                          match repo_Manifests repo with
                          | (_, Some err) => Return o (Some err)
                          | (None, None) =>
                              Panic o "invalid memory address or nil pointer dereference"
                          | (Some svc, None) =>
                              match ms_Put svc manifest tag with
                              | (_, Some err) => Return o (Some err)
                              | (digest, None) =>
                                  Return (o ++ ["  |-> manifest:  " +:+ digest +:+ nl]) None
                              end
                          end
                      end
                  end
              end
          end
      end
  end.

(** ** internal/publish.go: engine-inspection strategy over a typed config *)

Module Publish.

Record ServiceConfig : Type := mkServiceConfig {
  Name : string;
  Image : string
}.

Record CSt : Type := mkCSt {
  Services : list ServiceConfig;
  cout : list string
}.

Definition cemit (chunk : string) (s : CSt) : CSt :=
  mkCSt (Services s) (cout s ++ [chunk]).

(** Lines 53-58: the first service of that name receives the pinned image. *)
Fixpoint update_first (name pinned : string) (l : list ServiceConfig)
    : list ServiceConfig :=
  match l with
  | [] => []
  | sv :: rest =>
      if String.eqb (Name sv) name
      then mkServiceConfig (Name sv) pinned :: rest
      else sv :: update_first name pinned rest
  end.

Fixpoint cprint_platforms (c : Collab) (i : nat) (ps : list Platform) (s : CSt) : CSt :=
  match ps with
  | [] => s
  | p :: rest =>
      let s1 := if Nat.eqb i 0 then s else cemit ", " s in
      let s2 := cemit (Printf c (Architecture p)) s1 in
      let s3 := if String.eqb (Architecture p) "arm"
                then cemit (Printf c (Variant p)) s2 else s2 in
      cprint_platforms c (S i) rest s3
  end.

(** The consumer passed to [config.WithServices]. *)
Definition pin_service (c : Collab) (service : ServiceConfig) (s : CSt)
    : flow CSt :=
  let s := cemit ("Pinning " +:+ Name service +:+ "(" +:+ Image service +:+ ")" +:+ nl) s in
  match ParseNormalizedNamed c (Image service) with
  | inr err => Return s (Some err)
  | inl named =>
      match DistributionInspectCall c (Image service) with
      | (_, Some err) => Return (cemit nl s) (Some err)
      | (di, None) =>
          let pinned := pinned_image named (Digest (di_Descriptor di)) in
          let s := cprint_platforms c 0 (di_Platforms di) (cemit "  | " s) in
          let s := cemit (nl +:+ "  |->  " +:+ pinned +:+ nl) s in
          Next (mkCSt (update_first (Name service) pinned (Services s)) (cout s))
      end
  end.

(** [config.WithServices(nil, consumer)] hands the consumer a copy of each
    service, one after the other, and stops at the first error; [visited]
    is that sequence of copies. *)
Fixpoint WithServices (consumer : ServiceConfig -> CSt -> flow CSt)
    (visited : list ServiceConfig) (s : CSt) : flow CSt :=
  match visited with
  | [] => Return s None
  | service :: rest =>
      match consumer service s with
      | Next s' => WithServices consumer rest s'
      | stop => stop
      end
  end.

Definition PinServiceImages (c : Collab) (visited : list ServiceConfig)
    (s : CSt) : flow CSt :=
  WithServices (pin_service c) visited s.

(** The callback of [filepath.Walk] in [createTgz] (lines 69-112); [tw] is
    the sequence of members written so far. *)
Definition tgz_visit (lib : FsLib) (composeContent : list byte)
    (bundleDir : string) (it : WalkItem) (tw : list Entry)
    : list Entry + error :=
  match walk_err it with
  | Some err =>
      inr (Errorf ("Tar: Can't stat file " +:+ bundleDir +:+ " to tar: "
                     +:+ error_text err))
  | None =>
      let fi := info it in
      if IsDir (fi_Mode fi) then inl tw
      else if negb (IsRegular (fi_Mode fi)) then
        inr (Errorf ("Tar: Can't tar non regular types yet: " +:+ fi_Name fi))
      else
        match FileInfoHeader lib fi (fi_Name fi) with
        | inr err => inr err
        | inl header =>
            let header :=
              if String.eqb (fi_Name fi) compose_file
              then with_Size header (len64 composeContent) else header in
            let header := with_Name header (archive_name (file it) bundleDir) in
            match WriteHeader lib header with
            | Some err => inr err
            | None =>
                if String.eqb (fi_Name fi) compose_file
                then inl (tw ++ [mkEntry header composeContent])
                else
                  match opened it with
                  | inr err => inr err
                  | inl content => inl (tw ++ [mkEntry header content])
                  end
            end
        end
  end.

(** [filepath.Walk]: the callback runs on each item in turn until it
    returns an error. *)
Fixpoint tgz_walk (lib : FsLib) (composeContent : list byte)
    (bundleDir : string) (items : list WalkItem) (tw : list Entry)
    : list Entry + error :=
  match items with
  | [] => inl tw
  | it :: rest =>
      match tgz_visit lib composeContent bundleDir it tw with
      | inl tw' => tgz_walk lib composeContent bundleDir rest tw'
      | inr err => inr err
      end
  end.

Definition createTgz (lib : FsLib) (items : list WalkItem)
    (composeContent : list byte) (bundleDir : string) : list Entry + error :=
  tgz_walk lib composeContent bundleDir items [].

(** [CreateBundle] (lines 123-176). *)
Definition CreateBundle (c : Collab) (lib : FsLib) (items : list WalkItem)
    (marshalled : list byte + error) (target : string) (o : list string)
    : flow (list string) :=
  publish c "compose-bundle" "bundle" marshalled
    (fun composeContent dir => ([], createTgz lib items composeContent dir))
    target o.

End Publish.

(** ** unnamed/part_001: registry strategy, placeholder images, tag check *)

Module Part001.

(** Lines 43-52: an image written [${VARIABLE-default}] is replaced by its
    default value. The three index expressions are evaluated as Go does,
    each one panicking when it is out of range. *)
Definition default_image (image : string) : string + (error + string) :=
  match String.get 0 image with
  | None => inr (inr "index out of range [0] with length 0")
  | Some c0 =>
      if Ascii.eqb c0 "$" then
        match String.get 1 image with
        | None => inr (inr "index out of range [1] with length 1")
        | Some c1 =>
            match String.get (String.length image - 1) image with
            | None => inr (inr "index out of range")
            | Some cl =>
                if negb (Ascii.eqb c1 "{") || negb (Ascii.eqb cl "}") then
                  inr (inl (Errorf ("Invalid image reference(" +:+ image +:+
                    "). This does not look like a properly format ${variable-defval}")))
                else
                  match GoStrings.SplitAfterN2 image "-" with
                  | [_; p1] =>
                      match String.length p1 with
                      | O => inr (inr "slice bounds out of range [:-1]")
                      | S n => inl (String.substring 0 n p1)
                      end
                  | _ =>
                      inr (inl (Errorf ("Invalid image reference(" +:+ image +:+
                        "). Variable does not appear to have a default value")))
                  end
            end
        end
      else inl image
  end.

(** Lines 54-96, once the image string is known. *)
Definition resolve_and_pin (c : Collab) (name : string) (a : addr)
    (image : string) (s : St) : flow St :=
  let s := emit ("Pinning " +:+ name +:+ "(" +:+ image +:+ ")" +:+ nl) s in
  match ParseNormalizedNamed c image with
  | inr err => Return s (Some err)
  | inl named =>
      match GetRepository c named with
      | inr err => Return s (Some err)
      | inl repo =>
          match ref_tag named with
          | None =>
              Return s (Some (Errorf ("Invalid image reference(" +:+ image +:+
                "): Images must be tagged. e.g " +:+ image +:+ ":stable")))
          | Some tag =>
              let '(desc, _) := Tags_Get repo tag in
              let '(mansvc, _) := repo_Manifests repo in
              match mansvc with
              | None => Panic s "invalid memory address or nil pointer dereference"
              | Some mansvc =>
                  let '(man, _) := ms_Get mansvc (Digest desc) in
                  let pinned := pinned_image named (Digest desc) in
                  let printed :=
                    match man with
                    | DeserializedManifestList manifests =>
                        inl (print_platforms c 0 manifests (emit "  | " s))
                    | DeserializedManifest => inl s
                    | other => inr (Errorf ("Unexpected manifest: " +:+ fmt_v other))
                    end in
                  match printed with
                  | inr err => Return s (Some err)
                  | inl s =>
                      Next (set_image a pinned (emit (nl +:+ "  |->  " +:+ pinned +:+ nl) s))
                  end
              end
          end
      end
  end.

Definition pin_service (c : Collab) (name : string) (obj : Value) (s : St)
    : flow St :=
  match image_attr name obj s with
  | inr err => Return s (Some err)
  | inl (a, image) =>
      match default_image image with
      | inr (inr msg) => Panic s msg
      | inr (inl err) => Return s (Some err)
      | inl image => resolve_and_pin c name a image s
      end
  end.

Definition PinServiceImages (c : Collab) (services : list (string * Value))
    (s : St) : flow St :=
  range_services (pin_service c) services s.

(** [getIgnores] (lines 101-112); [ignore_file] is what opening
    [appDir/.composeappignores] gives: its content, or an error. *)
Definition getIgnores (lib : FsLib) (ignore_file : list byte + error)
    : GoSlice string :=
  match ignore_file with
  | inr _ => None
  | inl content =>
      let '(ignores, _) := ReadAll lib content in
      match ignores with
      | Some _ => append_slice ignores ".composeappignores"
      | None => None
      end
  end.

Record TgzSt : Type := mkTgzSt {
  tw : list Entry;
  warned : gset string;
  tout : list string
}.

(** The loop over the ignore patterns (lines 141-149): the first pattern
    that matches the name, if any. *)
Fixpoint first_match (lib : FsLib) (ignores : list string) (name : string)
    : option string :=
  match ignores with
  | [] => None
  | ignore :: rest =>
      match Match lib ignore name with
      | (true, None) => Some ignore
      | _ => first_match lib rest name
      end
  end.

Definition write_member (header : Header) (body : list byte) (s : TgzSt) : TgzSt :=
  mkTgzSt (tw s ++ [mkEntry header body]) (warned s) (tout s).

(** The callback of [filepath.Walk] in [createTgz] (lines 122-185). *)
Definition tgz_visit (lib : FsLib) (ignores : GoSlice string)
    (composeContent : list byte) (appDir : string) (it : WalkItem)
    (s : TgzSt) : TgzSt + error :=
  match walk_err it with
  | Some err =>
      inr (Errorf ("Tar: Can't stat file " +:+ appDir +:+ " to tar: "
                     +:+ error_text err))
  | None =>
      let fi := info it in
      if IsDir (fi_Mode fi) then inl s
      else
        match FileInfoHeader lib fi (fi_Name fi) with
        | inr err => inr err
        | inl header =>
            let header :=
              if String.eqb (fi_Name fi) compose_file
              then with_Size header (len64 composeContent) else header in
            let header := with_Name header (archive_name (file it) appDir) in
            match first_match lib (default [] ignores) (h_Name header) with
            | Some ignore =>
                inl (mkTgzSt (tw s) ({[ignore]} ∪ warned s)
                       (if decide (ignore ∈ warned s) then tout s
                        else tout s ++ ["  |-> ignoring:  " +:+ ignore +:+ nl]))
            | None =>
                let linked :=
                  if IsRegular (fi_Mode fi) then inl header
                  else if IsSymlink (fi_Mode fi) then
                    match link_target it with
                    | inr err =>
                        inr (Errorf ("Tar: Can't find symlink: " +:+ error_text err))
                    | inl link => inl (with_Linkname header link)
                    end
                  else
                    inr (Errorf ("Tar: Can't tar non regular types yet: "
                                   +:+ h_Name header)) in
                match linked with
                | inr err => inr err
                | inl header =>
                    match WriteHeader lib header with
                    | Some err => inr err
                    | None =>
                        if String.eqb (fi_Name fi) compose_file
                        then inl (write_member header
                                    (tar_Write (fi_Mode fi) composeContent) s)
                        else if IsRegular (fi_Mode fi) then
                          match opened it with
                          | inr err => inr err
                          | inl content => inl (write_member header content s)
                          end
                        else inl (write_member header [] s)
                    end
                end
            end
        end
  end.

(** [filepath.Walk]: the callback runs on each item in turn until it
    returns an error; the walk then stops in the state it has reached. *)
Fixpoint tgz_walk (lib : FsLib) (ignores : GoSlice string)
    (composeContent : list byte) (appDir : string) (items : list WalkItem)
    (s : TgzSt) : TgzSt + TgzSt * error :=
  match items with
  | [] => inl s
  | it :: rest =>
      match tgz_visit lib ignores composeContent appDir it s with
      | inl s' => tgz_walk lib ignores composeContent appDir rest s'
      | inr err => inr (s, err)
      end
  end.

(** [createTgz]: the notices it has printed, and the archive or the error
    of the walk. *)
Definition createTgz (lib : FsLib) (ignore_file : list byte + error)
    (items : list WalkItem) (composeContent : list byte) (appDir : string)
    : list string * (list Entry + error) :=
  match tgz_walk lib (getIgnores lib ignore_file) composeContent appDir items
          (mkTgzSt [] ∅ []) with
  | inl s => (tout s, inl (tw s))
  | inr (s, err) => (tout s, inr err)
  end.

(** [CreateApp] (lines 196-249). *)
Definition CreateApp (c : Collab) (lib : FsLib)
    (ignore_file : list byte + error) (items : list WalkItem)
    (marshalled : list byte + error) (target : string) (o : list string)
    : flow (list string) :=
  publish c "compose-app" "app" marshalled (createTgz lib ignore_file items) target o.

End Part001.

(** ** unnamed/part_002: registry strategy, unchecked tag assertion *)

Module Part002.

Definition resolve_and_pin (c : Collab) (name : string) (a : addr)
    (image : string) (s : St) : flow St :=
  let s := emit ("Pinning " +:+ name +:+ "(" +:+ image +:+ ")" +:+ nl) s in
  match ParseNormalizedNamed c image with
  | inr err => Return s (Some err)
  | inl named =>
      match GetRepository c named with
      | inr err => Return s (Some err)
      | inl repo =>
          (* tag := named.(reference.Tagged).Tag() *)
          match ref_tag named with
          | None =>
              Panic s "interface conversion: reference.Named is not reference.Tagged"
          | Some tag =>
              let '(desc, _) := Tags_Get repo tag in
              let '(mansvc, _) := repo_Manifests repo in
              match mansvc with
              | None => Panic s "invalid memory address or nil pointer dereference"
              | Some mansvc =>
                  let '(man, _) := ms_Get mansvc (Digest desc) in
                  let pinned := pinned_image named (Digest desc) in
                  let printed :=
                    match man with
                    | DeserializedManifestList manifests =>
                        inl (print_platforms c 0 manifests (emit "  | " s))
                    | DeserializedManifest => inl s
                    | other => inr (Errorf ("Unexpected manifest: " +:+ fmt_v other))
                    end in
                  match printed with
                  | inr err => Return s (Some err)
                  | inl s =>
                      Next (set_image a pinned (emit (nl +:+ "  |->  " +:+ pinned +:+ nl) s))
                  end
              end
          end
      end
  end.

Definition pin_service (c : Collab) (name : string) (obj : Value) (s : St)
    : flow St :=
  match image_attr name obj s with
  | inr err => Return s (Some err)
  | inl (a, image) => resolve_and_pin c name a image s
  end.

Definition PinServiceImages (c : Collab) (services : list (string * Value))
    (s : St) : flow St :=
  range_services (pin_service c) services s.

(** [createTgz] (lines 82-140) is, line for line, that of
    [internal/publish.go]. *)
Definition createTgz := Publish.createTgz.

(** [CreateApp] (lines 142-195). *)
Definition CreateApp (c : Collab) (lib : FsLib) (items : list WalkItem)
    (marshalled : list byte + error) (target : string) (o : list string)
    : flow (list string) :=
  publish c "compose-app" "app" marshalled
    (fun composeContent dir => ([], createTgz lib items composeContent dir))
    target o.

End Part002.

(** ** unnamed/part_003: engine-inspection strategy over service maps *)

Module Part003.

Definition resolve_and_pin (c : Collab) (name : string) (a : addr)
    (image : string) (s : St) : flow St :=
  let s := emit ("Pinning " +:+ name +:+ "(" +:+ image +:+ ")" +:+ nl) s in
  match ParseNormalizedNamed c image with
  | inr err => Return s (Some err)
  | inl named =>
      match DistributionInspectCall c image with
      | (_, Some err) => Return (emit nl s) (Some err)
      | (di, None) =>
          let pinned := pinned_image named (Digest (di_Descriptor di)) in
          let s := print_platforms c 0 (di_Platforms di) (emit "  | " s) in
          Next (set_image a pinned (emit (nl +:+ "  |->  " +:+ pinned +:+ nl) s))
      end
  end.

Definition pin_service (c : Collab) (name : string) (obj : Value) (s : St)
    : flow St :=
  match image_attr name obj s with
  | inr err => Return s (Some err)
  | inl (a, image) => resolve_and_pin c name a image s
  end.

Definition PinServiceImages (c : Collab) (services : list (string * Value))
    (s : St) : flow St :=
  range_services (pin_service c) services s.

(** [createTgz] (lines 68-126) is, line for line, that of
    [internal/publish.go]. *)
Definition createTgz := Publish.createTgz.

(** [CreateBundle] (lines 128-181). *)
Definition CreateBundle (c : Collab) (lib : FsLib) (items : list WalkItem)
    (marshalled : list byte + error) (target : string) (o : list string)
    : flow (list string) :=
  publish c "compose-bundle" "bundle" marshalled
    (fun composeContent dir => ([], createTgz lib items composeContent dir))
    target o.

End Part003.


(** ** What the properties speak of *)

(** [has_byte c s]: the byte [c] occurs in [s]. *)
Fixpoint has_byte (c : ascii) (s : string) : bool :=
  match s with
  | EmptyString => false
  | String d rest => Ascii.eqb c d || has_byte c rest
  end.

(** A reference as the grammar of image references shapes it: a non-empty
    domain without ['/'] or ['@'], a path without ['@'] or [':'], a tag
    without ['@']. *)
Definition wf_ref (r : Named) : bool :=
  negb (String.eqb (ref_domain r) EmptyString)
  && negb (has_byte "/" (ref_domain r))
  && negb (has_byte "@" (ref_domain r))
  && negb (has_byte "@" (ref_path r))
  && negb (has_byte ":" (ref_path r))
  && match ref_tag r with Some t => negb (has_byte "@" t) | None => true end.

(** How one platform shows in the progress record. *)
Definition platform_text (p : Platform) : string :=
  Architecture p +:+ (if String.eqb (Architecture p) "arm" then Variant p else EmptyString).

(** Architecture and variant names that hold no formatting directive. *)
Definition plain_platform (p : Platform) : bool :=
  negb (has_byte "%" (Architecture p)) && negb (has_byte "%" (Variant p)).

(** The chunks that the platform loop writes, started at index [i]. *)
Fixpoint platform_chunks (c : Collab) (i : nat) (ps : list Platform) : list string :=
  match ps with
  | [] => []
  | p :: rest =>
      (if Nat.eqb i 0 then [] else [", "])
      ++ [Printf c (Architecture p)]
      ++ (if String.eqb (Architecture p) "arm" then [Printf c (Variant p)] else [])
      ++ platform_chunks c (S i) rest
  end.

(** The text of a list of chunks. *)
Definition text_of (chunks : list string) : string :=
  String.concat EmptyString chunks.

(** The platforms of a manifest list as the progress record shows them. *)
Definition platform_list (ps : list Platform) : string :=
  String.concat ", " (map platform_text ps).

(** An entry is excluded when some ignore pattern matches its name. *)
Definition excluded (lib : FsLib) (ignores : GoSlice string) (name : string) : bool :=
  match Part001.first_match lib (default [] ignores) name with
  | Some _ => true
  | None => false
  end.

(** The items of a walk that become archive members in part_001. *)
Definition kept (lib : FsLib) (ignores : GoSlice string) (appDir : string)
    (it : WalkItem) : bool :=
  negb (IsDir (fi_Mode (info it)))
  && negb (excluded lib ignores (archive_name (file it) appDir)).

(** An archive member [e] written for the walk item [it]: a regular file
    named docker-compose.yml carries the descriptor, another regular file
    the bytes read from disk, and an entry that is no regular file (a link)
    carries no content and the target of the link. *)
Definition member_of (composeContent : list byte) (dir : string)
    (e : Entry) (it : WalkItem) : Prop :=
  h_Name (e_header e) = archive_name (file it) dir
  ∧ (fi_Name (info it) = compose_file → IsRegular (fi_Mode (info it)) = true →
       e_body e = composeContent ∧ h_Size (e_header e) = len64 composeContent)
  ∧ (fi_Name (info it) ≠ compose_file → IsRegular (fi_Mode (info it)) = true →
       opened it = inl (e_body e))
  ∧ (IsRegular (fi_Mode (info it)) = false →
       e_body e = [] ∧ link_target it = inl (h_Linkname (e_header e))).

(** An image value that is a digest-pinned reference. *)
Definition is_pinned (v : option Value) : Prop :=
  ∃ named dgst, v = Some (VStr (pinned_image named dgst)).

(** The records of the services in a collection. *)
Definition record_of (services : list (string * Value)) (a : addr) : Prop :=
  ∃ name, (name, VMap a) ∈ services.

(** A repository whose calls report no failure, everything else equal. *)
Definition silence_manifests (ms : ManifestService) : ManifestService :=
  mkManifestService (fun d => (fst (ms_Get ms d), None)) (ms_Put ms).

Definition silence (repo : Repository) : Repository :=
  mkRepository (fun t => (fst (Tags_Get repo t), None))
    (silence_manifests <$> fst (repo_Manifests repo), None)
    (Blobs repo).

Definition silenced (c : Collab) : Collab :=
  mkCollab (ParseNormalizedNamed c) (TagNameOnly c)
    (fun n => match GetRepository c n with
              | inl repo => inl (silence repo)
              | inr err => inr err
              end)
    (DistributionInspectCall c) (Build c) (Printf c).

(** What every revision's loop body does to the store: it pins the record
    of the service at hand, or it stops and leaves the store as it is; it
    never returns [nil] from inside the loop. *)
Definition pins_or_stops (body : string → Value → St → flow St) : Prop :=
  ∀ name obj s,
    match body name obj s with
    | Next s' =>
        ∃ a named dgst, obj = VMap a
          ∧ heap s' = <[a := <["image" := VStr (pinned_image named dgst)]>
                              (deref s a)]> (heap s)
    | Return s' e => heap s' = heap s ∧ e ≠ None
    | Panic s' _ => heap s' = heap s
    end.

(** The shape checks come first in the body. *)
Definition checks_shape (body : string → Value → St → flow St) : Prop :=
  ∀ name obj s e,
    image_attr name obj s = inr e → body name obj s = Return s (Some e).

(** The state in which a run ends. *)
Definition flow_state {S : Type} (r : flow S) : S :=
  match r with Next s | Return s _ | Panic s _ => s end.

(** What part_002 makes of an image that it pins: the image parses to a
    reference with a tag, its repository and the manifest service are
    there, the manifest is a manifest list or a single-platform manifest,
    and the new value is domain, "/", path, "@" and the digest that the tag
    lookup returned. *)
Definition registry_pins (c : Collab) (image pinned : string) : Prop :=
  ∃ named tag repo mansvc,
    ParseNormalizedNamed c image = inl named
    ∧ GetRepository c named = inl repo
    ∧ ref_tag named = Some tag
    ∧ fst (repo_Manifests repo) = Some mansvc
    ∧ (fst (ms_Get mansvc (Digest (fst (Tags_Get repo tag)))) = DeserializedManifest
       ∨ ∃ l, fst (ms_Get mansvc (Digest (fst (Tags_Get repo tag))))
              = DeserializedManifestList l)
    ∧ pinned = ref_domain named +:+ "/" +:+ ref_path named +:+ "@"
                 +:+ Digest (fst (Tags_Get repo tag)).

(** What part_003 makes of an image that it pins: the image parses, the
    engine inspects it, and the new value is domain, "/", path, "@" and the
    digest that the engine reported. *)
Definition engine_pins (c : Collab) (image pinned : string) : Prop :=
  ∃ named di,
    ParseNormalizedNamed c image = inl named
    ∧ DistributionInspectCall c image = (di, None)
    ∧ pinned = ref_domain named +:+ "/" +:+ ref_path named +:+ "@"
                 +:+ Digest (di_Descriptor di).

(** A loop body that goes on only after it has replaced the image that it
    found in the record of the service by the value that [R] relates to it,
    and that leaves the store as it is when it stops. *)
Definition pins_with (R : string → string → Prop)
    (body : string → Value → St → flow St) : Prop :=
  ∀ name obj s,
    match body name obj s with
    | Next s' =>
        ∃ a image pinned, obj = VMap a
          ∧ deref s a !! "image" = Some (VStr image)
          ∧ R image pinned
          ∧ heap s' = <[a := <["image" := VStr pinned]> (deref s a)]> (heap s)
    | Return s' e => heap s' = heap s ∧ e ≠ None
    | Panic s' _ => heap s' = heap s
    end.

(** The records after the services of a list have been pinned one after the
    other: each service in turn has a record with a string image, to which
    [R] relates a value, and that value replaces the image. *)
Inductive pinned_run (R : string → string → Prop)
  : list (string * Value) → gmap addr (gmap string Value)
    → gmap addr (gmap string Value) → Prop :=
| pinned_nil h : pinned_run R [] h h
| pinned_cons name a image pinned rest h h' :
    default ∅ (h !! a) !! "image" = Some (VStr image) →
    R image pinned →
    pinned_run R rest (<[a := <["image" := VStr pinned]> (default ∅ (h !! a))]> h) h' →
    pinned_run R ((name, VMap a) :: rest) h h'.

(** The non-atomic, best-effort contract of a pin pass [pin] that went from
    [s] to [s'] and returned [err], [R] being what the revision makes of an
    image. The services split around the failing one; the outcome does not
    depend on the later ones; the records are those that pinning the earlier
    services one after the other gives; in particular the record of an
    earlier service that shares it with no other earlier service is what it
    was at the start with the image replaced by the value that [R] relates
    to that image; a record of no earlier service is as it was; a failed
    shape check of the failing service is the error. *)
Definition best_effort (R : string → string → Prop)
    (pin : list (string * Value) → St → flow St)
    (services : list (string * Value)) (s s' : St) (err : error) : Prop :=
  ∃ pre name obj post,
    services = pre ++ (name, obj) :: post
    ∧ (∀ post', pin (pre ++ (name, obj) :: post') s = Return s' (Some err))
    ∧ pinned_run R pre (heap s) (heap s')
    ∧ (∀ before n a after,
         pre = before ++ (n, VMap a) :: after →
         (∀ m, (m, VMap a) ∉ before ++ after) →
         ∃ image pinned,
           deref s a !! "image" = Some (VStr image)
           ∧ R image pinned
           ∧ heap s' !! a = Some (<["image" := VStr pinned]> (deref s a)))
    ∧ (∀ a, (∀ n, (n, VMap a) ∉ pre) → heap s' !! a = heap s !! a)
    ∧ (∀ a, obj = VMap a → deref s' a !! "image" = None →
         err = Errorf ("Service(" +:+ name +:+ ") missing 'image' attribute"))
    ∧ (∀ a v, obj = VMap a → deref s' a !! "image" = Some v →
         (∀ image, v ≠ VStr image) →
         err = Errorf ("Service(" +:+ name +:+ ") invalid 'image' attribute")).

(** The record [h] of a service is one that part_001 pins to [pinned]: its
    image (or the default of its placeholder) parses to a tagged reference,
    the repository and its manifest service are there, and the manifest is a
    manifest list or a single-platform manifest. *)
Definition resolves_to (c : Collab) (h : gmap string Value) (pinned : string) : Prop :=
  ∃ image effective named tag repo mansvc,
    h !! "image" = Some (VStr image)
    ∧ Part001.default_image image = inl effective
    ∧ ParseNormalizedNamed c effective = inl named
    ∧ ref_tag named = Some tag
    ∧ GetRepository c named = inl repo
    ∧ fst (repo_Manifests repo) = Some mansvc
    ∧ (fst (ms_Get mansvc (Digest (fst (Tags_Get repo tag)))) = DeserializedManifest
       ∨ ∃ l, fst (ms_Get mansvc (Digest (fst (Tags_Get repo tag))))
              = DeserializedManifestList l)
    ∧ pinned = pinned_image named (Digest (fst (Tags_Get repo tag))).

(** ** Concrete collaborators and inputs *)

Module Sample.

(** [fmt.Printf] of a format string alone, for directives made of ['%'] and
    a verb: text is copied, ["%%"] is a percent sign, a verb finds no
    operand, a trailing ['%'] has no verb. *)
Fixpoint Printf0 (format : string) : string :=
  match format with
  | EmptyString => EmptyString
  | String c rest =>
      if Ascii.eqb c "%" then
        match rest with
        | EmptyString => "%!(NOVERB)"
        | String v rest' =>
            if Ascii.eqb v "%" then String "%" (Printf0 rest')
            else "%!" +:+ String v "(MISSING)" +:+ Printf0 rest'
        end
      else String c (Printf0 rest)
  end.

(** [filepath.Match] for patterns made of literal bytes, ['*'] and ['?'];
    the star and the question mark match no separator. *)
Fixpoint glob (pattern name : string) : bool :=
  match pattern with
  | EmptyString => String.eqb name EmptyString
  | String p pattern' =>
      if Ascii.eqb p "*" then
        (fix star (n : string) : bool :=
           glob pattern' n
           || match n with
              | EmptyString => false
              | String c n' => negb (Ascii.eqb c "/") && star n'
              end) name
      else
        match name with
        | EmptyString => false
        | String c name' =>
            (if Ascii.eqb p "?" then negb (Ascii.eqb c "/") else Ascii.eqb p c)
            && glob pattern' name'
        end
  end.

Definition Match0 (pattern name : string) : bool * option error :=
  if has_byte "[" pattern || has_byte "\" pattern
  then (false, Some (LibError "syntax error in pattern"))
  else (glob pattern name, None).

(** Lines of a text, without the line feeds. *)
Fixpoint lines_from (cur : string) (s : string) : list string :=
  match s with
  | EmptyString => [cur]
  | String c rest =>
      if Ascii.eqb c (ascii_of_nat 10) then cur :: lines_from EmptyString rest
      else lines_from (cur +:+ String c EmptyString) rest
  end.

(** [dockerignore.ReadAll] on files of plain patterns: one pattern per
    non-empty line; the slice stays [nil] when nothing is appended. *)
Definition ReadAll0 (content : list byte) : GoSlice string * option error :=
  match filter (fun l => l ≠ EmptyString) (lines_from EmptyString (string_of_list_byte content)) with
  | [] => (None, None)
  | patterns => (Some patterns, None)
  end.

Definition FileInfoHeader0 (fi : FileInfo) (link : string) : Header + error :=
  inl (mkHeader (fi_Name fi)
         (if IsRegular (fi_Mode fi) then fi_Size fi else 0%Z)
         (if IsSymlink (fi_Mode fi) then link else EmptyString)
         (fi_Mode fi)).

Definition lib : FsLib :=
  mkFsLib FileInfoHeader0 (fun _ => None) Match0 ReadAll0.

Definition bytes (s : string) : list byte := list_byte_of_string s.

Definition dir_item (path name : string) : WalkItem :=
  mkWalkItem path (mkFileInfo name ModeDir 4096) None
    (inr (LibError "is a directory")) (inr (LibError "invalid argument")).

Definition file_item (path name content : string) : WalkItem :=
  mkWalkItem path (mkFileInfo name ModeRegular (len64 (bytes content))) None
    (inl (bytes content)) (inr (LibError "invalid argument")).

(** The serialized descriptor used in the examples. *)
Definition descriptor : list byte := bytes "services: {web: {image: nginx@sha256:aaa}}".

(** A bundle directory holding [a.txt] only. *)
Definition dir_without_descriptor : list WalkItem :=
  [dir_item "./" "."; file_item "a.txt" "a.txt" "hello"].


(** A bundle directory with descriptors at the root and in [sub]. *)
Definition dir_with_descriptors : list WalkItem :=
  [dir_item "./" ".";
   file_item ".composeappignores" ".composeappignores" "*.log";
   file_item "build.log" "build.log" "noise";
   file_item "docker-compose.yml" "docker-compose.yml" "on disk";
   dir_item "sub" "sub";
   file_item "sub/docker-compose.yml" "docker-compose.yml" "another one"].

(** The bundling scenario of the specification: [a.txt], [sub/b.txt], the
    descriptor, and an ignore-file that holds [sub/*]. *)
Definition dir_of_scenario : list WalkItem :=
  [dir_item "./" ".";
   file_item ".composeappignores" ".composeappignores" "sub/*";
   file_item "a.txt" "a.txt" "hello";
   file_item "docker-compose.yml" "docker-compose.yml" "on disk";
   dir_item "sub" "sub";
   file_item "sub/b.txt" "b.txt" "world"].

Definition nginx_stable : Named :=
  mkNamed "docker.io" "library/nginx" (Some "stable") None.

Definition nginx_untagged : Named :=
  mkNamed "docker.io" "library/nginx" None None.

Definition parse (s : string) : Named + error :=
  if String.eqb s "nginx:stable" then inl nginx_stable
  else if String.eqb s "nginx" then inl nginx_untagged
  else if String.eqb s "registry.example/app:v1"
  then inl (mkNamed "registry.example" "app" (Some "v1") None)
  else inr (LibError "invalid reference format").

Definition tag_name_only (n : Named) : Named :=
  match ref_tag n, ref_digest n with
  | None, None => mkNamed (ref_domain n) (ref_path n) (Some "latest") None
  | _, _ => n
  end.

Definition multi_arch : list Platform :=
  [mkPlatform "amd64" EmptyString; mkPlatform "arm" "v7"; mkPlatform "arm64" "v8"].

Definition sha_aaa : string := "sha256:aaa".

Definition manifests_ok : ManifestService :=
  mkManifestService
    (fun d => if String.eqb d sha_aaa
              then (DeserializedManifestList multi_arch, None)
              else (NilManifest, Some (LibError "manifest unknown")))
    (fun _ _ => ("sha256:mmm", None)).

Definition blobs_ok : BlobStore :=
  mkBlobStore (fun _ _ => (mkDescriptor "sha256:bbb", None)).

Definition blobs_failing : BlobStore :=
  mkBlobStore (fun _ _ => (mkDescriptor EmptyString, Some (LibError "blob upload: connection reset"))).

(** A registry that knows the tag [stable]. *)
Definition repo_ok : Repository :=
  mkRepository
    (fun t => if String.eqb t "stable" then (mkDescriptor sha_aaa, None)
              else (mkDescriptor EmptyString, Some (LibError "manifest unknown")))
    (Some manifests_ok, None) blobs_ok.

(** A registry in which the tag lookup fails. *)
Definition repo_tag_lookup_failing : Repository :=
  mkRepository (fun _ => (mkDescriptor EmptyString, Some (LibError "tag lookup: connection refused")))
    (Some manifests_ok, None) blobs_ok.

(** A registry whose manifest service cannot be obtained. *)
Definition repo_without_manifests : Repository :=
  mkRepository (Tags_Get repo_ok)
    (None, Some (LibError "manifest service: unauthorized")) blobs_ok.

(** A registry that refuses the blob. *)
Definition repo_blob_failing : Repository :=
  mkRepository (Tags_Get repo_ok) (Some manifests_ok, None) blobs_failing.

Definition inspect (image : string) : DistributionInspect * option error :=
  if String.eqb image "nginx:stable"
  then (mkDistributionInspect (mkDescriptor sha_aaa) multi_arch, None)
  else (mkDistributionInspect (mkDescriptor EmptyString) [],
        Some (LibError "distribution inspect: not found")).

Definition collab (repo : Repository) : Collab :=
  mkCollab parse tag_name_only (fun _ => inl repo) inspect (fun _ => None) Printf0.

(** Three services in iteration order: [web] is tagged, [db] has no image,
    [cache] is tagged. Each has a record of its own. *)
Definition services : list (string * Value) :=
  [("web", VMap 1); ("db", VMap 2); ("cache", VMap 3)].

Definition store : St :=
  mkSt (<[1 := {["image" := VStr "nginx:stable"]}]>
        (<[2 := {["ports" := VOther]}]>
        (<[3 := {["image" := VStr "nginx:stable"]}]> ∅))) [].

(** One service whose image carries no tag, one whose image is empty. *)
Definition untagged_store : St :=
  mkSt (<[1 := {["image" := VStr "nginx"]}]> ∅) [].

Definition empty_image_store : St :=
  mkSt (<[1 := {["image" := VStr "nginx:stable"]}]>
        (<[2 := {["image" := VStr EmptyString]}]> ∅)) [].

Definition config : Publish.CSt :=
  Publish.mkCSt [Publish.mkServiceConfig "web" "nginx:stable";
                 Publish.mkServiceConfig "db" "nginx:stable"] [].

End Sample.
(** ** What the further properties speak of *)

(** Between two stores only images have changed, and only to pinned ones:
    no record appears or disappears, every attribute other than the image is
    as it was, and an image is as it was or was a string and is now a
    digest-pinned reference. *)
Definition images_only (s s' : St) : Prop :=
  (∀ a, is_Some (heap s' !! a) ↔ is_Some (heap s !! a))
  ∧ (∀ a k, k ≠ "image" → deref s' a !! k = deref s a !! k)
  ∧ (∀ a, deref s' a !! "image" = deref s a !! "image"
          ∨ ∃ image named dgst,
              deref s a !! "image" = Some (VStr image)
              ∧ deref s' a !! "image" = Some (VStr (pinned_image named dgst))).

(** A loop body that pins a string image or leaves the store alone. *)
Definition pins_string_images (body : string → Value → St → flow St) : Prop :=
  ∀ name obj s, images_only s (flow_state (body name obj s)).

(** The same for two lists of typed services: as many services, under the
    same names in the same order, each image as it was or pinned. *)
Definition services_kept (l l' : list Publish.ServiceConfig) : Prop :=
  Forall2 (fun sv sv' =>
             Publish.Name sv' = Publish.Name sv
             ∧ (Publish.Image sv' = Publish.Image sv
                ∨ ∃ named dgst, Publish.Image sv' = pinned_image named dgst))
    l l'.

(** The line that announces an ignore pattern. *)
Definition notice (pattern : string) : string :=
  "  |-> ignoring:  " +:+ pattern +:+ nl.

(** [old] occurs in [s] at some position. *)
Fixpoint occurs_in (old s : string) : bool :=
  String.prefix old s
  || match s with
     | EmptyString => false
     | String _ rest => occurs_in old rest
     end.

(** The member [e] written for a symbolic link [it]: the header carries the
    target of the link, and no content is stored after it, also when the
    link has the name of the descriptor. *)
Definition link_member_of (e : Entry) (it : WalkItem) : Prop :=
  IsSymlink (fi_Mode (info it)) = true →
  link_target it = inl (h_Linkname (e_header e)) ∧ e_body e = [].

(** Why the callback of [filepath.Walk] fails on an item, in
    internal/publish.go. *)
Definition publish_failure (lib : FsLib) (dir : string) (it : WalkItem)
    (err : error) : Prop :=
  (∃ e, walk_err it = Some e
        ∧ err = Errorf ("Tar: Can't stat file " +:+ dir +:+ " to tar: "
                          +:+ error_text e))
  ∨ (walk_err it = None ∧ IsDir (fi_Mode (info it)) = false
     ∧ ((IsRegular (fi_Mode (info it)) = false
         ∧ err = Errorf ("Tar: Can't tar non regular types yet: "
                           +:+ fi_Name (info it)))
        ∨ (IsRegular (fi_Mode (info it)) = true
           ∧ (FileInfoHeader lib (info it) (fi_Name (info it)) = inr err
              ∨ (∃ header, WriteHeader lib header = Some err
                           ∧ h_Name header = archive_name (file it) dir)
              ∨ (fi_Name (info it) ≠ compose_file ∧ opened it = inr err))))).

(** The same in part_001, where the ignore patterns are consulted after the
    header is made and before the type of the entry is looked at. *)
Definition part001_failure (lib : FsLib) (ignores : GoSlice string)
    (dir : string) (it : WalkItem) (err : error) : Prop :=
  (∃ e, walk_err it = Some e
        ∧ err = Errorf ("Tar: Can't stat file " +:+ dir +:+ " to tar: "
                          +:+ error_text e))
  ∨ (walk_err it = None ∧ IsDir (fi_Mode (info it)) = false
     ∧ (FileInfoHeader lib (info it) (fi_Name (info it)) = inr err
        ∨ (excluded lib ignores (archive_name (file it) dir) = false
           ∧ ((IsRegular (fi_Mode (info it)) = false
               ∧ IsSymlink (fi_Mode (info it)) = false
               ∧ err = Errorf ("Tar: Can't tar non regular types yet: "
                                 +:+ archive_name (file it) dir))
              ∨ (IsSymlink (fi_Mode (info it)) = true
                 ∧ ∃ e, link_target it = inr e
                        ∧ err = Errorf ("Tar: Can't find symlink: "
                                          +:+ error_text e))
              ∨ (∃ header, WriteHeader lib header = Some err
                           ∧ h_Name header = archive_name (file it) dir)
              ∨ (IsRegular (fi_Mode (info it)) = true
                 ∧ fi_Name (info it) ≠ compose_file
                 ∧ opened it = inr err))))).

(** The pattern, if any, that makes part_001 skip a walk item. *)
Definition hit (lib : FsLib) (ignores : GoSlice string) (dir : string)
    (it : WalkItem) : option string :=
  if IsDir (fi_Mode (info it)) then None
  else Part001.first_match lib (default [] ignores) (archive_name (file it) dir).

(** A member written for a walk item, with what the header says of links. *)
Definition full_member_of (composeContent : list byte) (dir : string)
    (e : Entry) (it : WalkItem) : Prop :=
  member_of composeContent dir e it ∧ link_member_of e it.

(** The record [h] of a service is one that part_003 pins to [pinned]: its
    image parses and the engine inspects it without error. *)
Definition inspects_to (c : Collab) (h : gmap string Value) (pinned : string) : Prop :=
  ∃ image named di,
    h !! "image" = Some (VStr image)
    ∧ ParseNormalizedNamed c image = inl named
    ∧ DistributionInspectCall c image = (di, None)
    ∧ pinned = pinned_image named (Digest (di_Descriptor di)).

(** The tag under which a manifest is pushed for a target. *)
Definition target_tag (c : Collab) (named : Named) : string :=
  match ref_tag (TagNameOnly c named) with
  | Some t => t
  | None => "latest"
  end.

(** The lines that a publication prints. *)
Definition blob_line (label : string) (desc : Descriptor) : string :=
  "  |-> " +:+ label +:+ ":  " +:+ Digest desc +:+ nl.

Definition manifest_line (digest : string) : string :=
  "  |-> manifest:  " +:+ digest +:+ nl.

(** What the archive step of a publication prints: the lines of
    [createTgz], which is not called when serializing has failed. *)
Definition archive_notices (marshalled : list byte + error)
    (tgz : list byte → string → list string * (list Entry + error))
    : list string :=
  match marshalled with
  | inl pinned => (tgz pinned "./").1
  | inr _ => []
  end.

(** Every step up to the blob upload went well: the descriptor was
    serialized, the directory archived, the target parsed to [named], its
    repository is [repo] and the registry stored the archive as [desc]. *)
Definition uploaded (c : Collab) (marshalled : list byte + error)
    (tgz : list byte → string → list string * (list Entry + error))
    (target : string)
    (named : Named) (repo : Repository) (desc : Descriptor) : Prop :=
  ∃ pinned buff,
    marshalled = inl pinned
    ∧ (tgz pinned "./").2 = inl buff
    ∧ ParseNormalizedNamed c target = inl named
    ∧ GetRepository c named = inl repo
    ∧ bs_Put (Blobs repo) "application/tar+gzip" buff = (desc, None).

(** Every step before the blob upload went well and the registry refused
    the archive. *)
Definition blob_refused (c : Collab) (marshalled : list byte + error)
    (tgz : list byte → string → list string * (list Entry + error))
    (target : string) : Prop :=
  ∃ pinned buff named repo desc err,
    marshalled = inl pinned
    ∧ (tgz pinned "./").2 = inl buff
    ∧ ParseNormalizedNamed c target = inl named
    ∧ GetRepository c named = inl repo
    ∧ bs_Put (Blobs repo) "application/tar+gzip" buff = (desc, Some err).

(** [err] is the error of a step before the blob upload, the earlier steps
    having gone well. *)
Definition fails_before_upload (c : Collab) (marshalled : list byte + error)
    (tgz : list byte → string → list string * (list Entry + error))
    (target : string) (err : error) : Prop :=
  marshalled = inr err
  ∨ ∃ pinned, marshalled = inl pinned
      ∧ ((tgz pinned "./").2 = inr err
         ∨ ∃ buff, (tgz pinned "./").2 = inl buff
             ∧ (ParseNormalizedNamed c target = inr err
                ∨ ∃ named, ParseNormalizedNamed c target = inl named
                    ∧ GetRepository c named = inr err)).

(** [err] is the error of a step after the upload of [desc]: of the
    manifest builder, of the request for the manifest service, or of the
    push. *)
Definition fails_after_upload (c : Collab) (kind : string) (named : Named)
    (repo : Repository) (desc : Descriptor) (err : error) : Prop :=
  let manifest := mkOCIManifest [(kind, "v1")] [desc] in
  Build c manifest = Some err
  ∨ (Build c manifest = None
     ∧ (snd (repo_Manifests repo) = Some err
        ∨ ∃ svc digest, repo_Manifests repo = (Some svc, None)
            ∧ ms_Put svc manifest (target_tag c named) = (digest, Some err))).

(** ** Further inputs *)

Module Cases.

Definition link_item (path name target : string) : WalkItem :=
  mkWalkItem path (mkFileInfo name ModeSymlink 0) None
    (inr (LibError "is a link")) (inl target).

Definition fifo_item (path name : string) : WalkItem :=
  mkWalkItem path (mkFileInfo name ModeIrregular 0) None
    (inr (LibError "is a fifo")) (inr (LibError "invalid argument")).

(** A bundle directory with a link and two log files. *)
Definition dir_with_link : list WalkItem :=
  [Sample.dir_item "./" ".";
   Sample.file_item "a.log" "a.log" "one";
   Sample.file_item "b.log" "b.log" "two";
   link_item "current" "current" "releases/v1";
   Sample.file_item "docker-compose.yml" "docker-compose.yml" "on disk"].

(** A bundle directory with a fifo after a regular file. *)
Definition dir_with_fifo : list WalkItem :=
  [Sample.dir_item "./" ".";
   Sample.file_item "a.txt" "a.txt" "hello";
   fifo_item "queue" "queue";
   Sample.file_item "z.txt" "z.txt" "never read"].

(** The state in which the walk of part_001 over [dir_with_link] ends when
    the ignore patterns are [*.log]. *)
Definition walked_with_link : Part001.TgzSt :=
  match Part001.tgz_walk Sample.lib (Some ["*.log"]) Sample.descriptor "./"
          dir_with_link (Part001.mkTgzSt [] ∅ []) with
  | inl s => s
  | inr _ => Part001.mkTgzSt [] ∅ []
  end.

(** A bundle directory whose docker-compose.yml is a link. *)
Definition dir_with_linked_descriptor : list WalkItem :=
  [Sample.dir_item "./" ".";
   Sample.file_item "a.txt" "a.txt" "hello";
   link_item "docker-compose.yml" "docker-compose.yml" "compose/prod.yml"].

(** A manifest list, and an engine, that report an architecture whose name
    holds a formatting directive. *)
Definition directive_platforms : list Platform :=
  [mkPlatform "amd64" EmptyString; mkPlatform "amd64%d" EmptyString].

Definition directive_repo : Repository :=
  mkRepository (Tags_Get Sample.repo_ok)
    (Some (mkManifestService
             (fun _ => (DeserializedManifestList directive_platforms, None))
             (ms_Put Sample.manifests_ok)), None)
    Sample.blobs_ok.

Definition directive_collab : Collab :=
  mkCollab Sample.parse Sample.tag_name_only (fun _ => inl directive_repo)
    (fun _ => (mkDistributionInspect (mkDescriptor Sample.sha_aaa)
                 directive_platforms, None))
    (fun _ => None) Sample.Printf0.

(** Two services with a record each. *)
Definition two_services : list (string * Value) :=
  [("web", VMap 1); ("cache", VMap 3)].

(** A typed configuration in which two services share a name. *)
Definition twin_config : Publish.CSt :=
  Publish.mkCSt [Publish.mkServiceConfig "web" "nginx:stable";
                 Publish.mkServiceConfig "db" "nginx:stable";
                 Publish.mkServiceConfig "web" "nginx:stable"] [].

End Cases.

(** * Properties *)

(** ** Strings *)

Lemma append_nil (b : string) : EmptyString +:+ b = b.
Proof. reflexivity. Qed.

Lemma append_cons (x : ascii) (a b : string) :
  String x a +:+ b = String x (a +:+ b).
Proof. reflexivity. Qed.

Create Rewrite HintDb str.
#[global] Hint Rewrite append_nil append_cons : str.

Ltac str_simpl := autorewrite with str in *; simpl in *.

Lemma append_assoc (a b c : string) : (a +:+ b) +:+ c = a +:+ (b +:+ c).
Proof. induction a as [|x a IH]; str_simpl; [done | by f_equal]. Qed.

Lemma append_empty_r (a : string) : a +:+ EmptyString = a.
Proof. induction a as [|x a IH]; str_simpl; [done | by f_equal]. Qed.

Lemma has_byte_append (c : ascii) (a b : string) :
  has_byte c (a +:+ b) = has_byte c a || has_byte c b.
Proof.
  induction a as [|x a IH]; str_simpl; [done |].
  rewrite IH. by destruct (Ascii.eqb c x).
Qed.

Lemma has_byte_here (c : ascii) (s : string) : has_byte c (String c s) = true.
Proof. simpl. by rewrite Ascii.eqb_refl. Qed.

(** A string is cut in one way only at the first occurrence of a byte. *)
Lemma cut_at_first (c : ascii) (a a' b b' : string) :
  has_byte c a = false → has_byte c a' = false →
  a +:+ String c b = a' +:+ String c b' → a = a' ∧ b = b'.
Proof.
  revert a'. induction a as [|x a IH]; intros [|x' a'] Ha Ha' E; str_simpl.
  - by inversion E.
  - inversion E; subst. by rewrite Ascii.eqb_refl in Ha'.
  - inversion E; subst. by rewrite Ascii.eqb_refl in Ha.
  - inversion E; subst.
    apply orb_false_iff in Ha as [_ Ha]. apply orb_false_iff in Ha' as [_ Ha'].
    destruct (IH a' Ha Ha' H1) as [-> ->]. done.
Qed.

(** ** References *)

Lemma wf_ref_fields (r : Named) :
  wf_ref r = true →
  has_byte "/" (ref_domain r) = false ∧ has_byte "@" (ref_domain r) = false
  ∧ has_byte "@" (ref_path r) = false ∧ has_byte ":" (ref_path r) = false
  ∧ match ref_tag r with Some t => has_byte "@" t = false | None => True end.
Proof.
  unfold wf_ref. intros H.
  repeat (apply andb_true_iff in H as [H ?]).
  repeat match goal with
         | X : negb _ = true |- _ => apply negb_true_iff in X
         end.
  repeat split; try done.
  destruct (ref_tag r); [by apply negb_true_iff | done].
Qed.

(** The pinned image is the text of the reference that keeps domain and
    path, drops the tag and carries the digest. *)
Lemma pinned_image_is_reference (named : Named) (dgst : string) :
  pinned_image named dgst
  = ref_string (mkNamed (ref_domain named) (ref_path named) None (Some dgst)).
Proof. reflexivity. Qed.

(** Any well-formed reference that reads as the pinned image has these
    components and no others. *)
Lemma pinned_reference_components (named r : Named) (dgst : string) :
  wf_ref named = true → wf_ref r = true →
  ref_string r = pinned_image named dgst →
  ref_tag r = None ∧ ref_digest r = Some dgst
  ∧ ref_domain r = ref_domain named ∧ ref_path r = ref_path named.
Proof.
  intros Hn Hr E.
  destruct (wf_ref_fields _ Hn) as (Hd & _ & Hpa & Hpc & _).
  destruct (wf_ref_fields _ Hr) as (Hd' & _ & Hpa' & _ & Ht').
  destruct r as [D P T G]; simpl in *. unfold ref_string, pinned_image in E.
  simpl in E.
  apply (cut_at_first "/" D (ref_domain named)) in E as [-> E]; [|done..].
  assert (Hhead : has_byte "@"
            (P +:+ match T with Some t => ":" +:+ t | None => EmptyString end)
          = false).
  { rewrite has_byte_append, Hpa'. destruct T as [t|]; str_simpl; done. }
  destruct G as [g|].
  - rewrite <- append_assoc in E.
    apply (cut_at_first "@") in E as [E ->]; [|done..].
    destruct T as [t|].
    + exfalso. pose proof (has_byte_append ":" P (":" +:+ t)) as Hc.
      rewrite E, Hpc in Hc. str_simpl. by rewrite orb_true_r in Hc.
    + rewrite append_empty_r in E. by subst.
  - exfalso. rewrite append_empty_r in E.
    rewrite E, has_byte_append in Hhead. str_simpl.
    by rewrite orb_true_r in Hhead.
Qed.

(** ** Pinning one service *)

Lemma update_first_spec (name pinned : string)
    (pre post : list Publish.ServiceConfig) (sv : Publish.ServiceConfig) :
  Forall (fun x => Publish.Name x ≠ name) pre → Publish.Name sv = name →
  Publish.update_first name pinned (pre ++ sv :: post)
  = pre ++ Publish.mkServiceConfig (Publish.Name sv) pinned :: post.
Proof.
  intros Hpre <-. induction Hpre as [|x pre Hx _ IH]; simpl.
  - by rewrite String.eqb_refl.
  - apply String.eqb_neq in Hx. rewrite Hx. by f_equal.
Qed.

Lemma print_platforms_heap (c : Collab) (ps : list Platform) :
  ∀ i s, heap (print_platforms c i ps s) = heap s.
Proof.
  induction ps as [|p ps IH]; intros i s; simpl; [done |].
  rewrite IH. destruct (Nat.eqb i 0), (String.eqb (Architecture p) "arm"); done.
Qed.

Lemma cprint_platforms_services (c : Collab) (ps : list Platform) :
  ∀ i s, Publish.Services (Publish.cprint_platforms c i ps s) = Publish.Services s.
Proof.
  induction ps as [|p ps IH]; intros i s; simpl; [done |].
  rewrite IH. destruct (Nat.eqb i 0), (String.eqb (Architecture p) "arm"); done.
Qed.

(** What one iteration of the registry revisions does once the image string
    is known, the repository is resolved and the reference is tagged. *)
Lemma registry_pin_step (c : Collab) (name : string) (a : addr) (image tag : string)
    (s : St) (named : Named) (repo : Repository) (mansvc : ManifestService) :
  ParseNormalizedNamed c image = inl named → ref_tag named = Some tag →
  GetRepository c named = inl repo →
  fst (repo_Manifests repo) = Some mansvc →
  (fst (ms_Get mansvc (Digest (fst (Tags_Get repo tag)))) = DeserializedManifest
   ∨ ∃ l, fst (ms_Get mansvc (Digest (fst (Tags_Get repo tag))))
          = DeserializedManifestList l) →
  ∃ s', Part001.resolve_and_pin c name a image s = Next s'
        ∧ Part002.resolve_and_pin c name a image s = Next s'
        ∧ heap s' = <[a := <["image" :=
                       VStr (pinned_image named (Digest (fst (Tags_Get repo tag))))]>
                       (deref s a)]> (heap s).
Proof.
  intros Hparse Htag Hrepo Hms Hman.
  unfold Part001.resolve_and_pin, Part002.resolve_and_pin.
  rewrite Hparse, Hrepo, Htag.
  destruct (Tags_Get repo tag) as [desc e1]; simpl in *.
  destruct (repo_Manifests repo) as [m e2]; simpl in *; subst m.
  destruct (ms_Get mansvc (Digest desc)) as [man e3]; simpl in *.
  destruct Hman as [-> | [l ->]]; eexists; (split; [reflexivity |]);
    (split; [reflexivity |]); unfold set_image, deref; simpl;
    by rewrite ?print_platforms_heap.
Qed.

(** C1. A service whose image is a well-formed tagged reference that the
    registry (part_001) or the engine (internal/publish.go) resolves is
    pinned: the new image value is domain + "/" + path + "@" + digest, it is
    stored back into the service record (the first service of that name in
    the typed configuration), it is the text of a reference with that
    domain, that path, no tag and the digest, and every well-formed
    reference that reads so has exactly these components. *)
Theorem pinning_composes_reference (c : Collab) (named : Named) :
  wf_ref named = true →
  (∀ (name : string) (a : addr) (s : St) (image effective tag : string)
     (repo : Repository) (mansvc : ManifestService),
      deref s a !! "image" = Some (VStr image) →
      Part001.default_image image = inl effective →
      ParseNormalizedNamed c effective = inl named →
      ref_tag named = Some tag →
      GetRepository c named = inl repo →
      fst (repo_Manifests repo) = Some mansvc →
      (fst (ms_Get mansvc (Digest (fst (Tags_Get repo tag)))) = DeserializedManifest
       ∨ ∃ l, fst (ms_Get mansvc (Digest (fst (Tags_Get repo tag))))
              = DeserializedManifestList l) →
      ∃ s' pinned,
        pinned = ref_domain named +:+ "/" +:+ ref_path named +:+ "@"
                   +:+ Digest (fst (Tags_Get repo tag))
        ∧ Part001.pin_service c name (VMap a) s = Next s'
        ∧ heap s' = <[a := <["image" := VStr pinned]> (deref s a)]> (heap s)
        ∧ pinned = ref_string (mkNamed (ref_domain named) (ref_path named) None
                                 (Some (Digest (fst (Tags_Get repo tag)))))
        ∧ ∀ r, wf_ref r = true → ref_string r = pinned →
               ref_tag r = None
               ∧ ref_digest r = Some (Digest (fst (Tags_Get repo tag)))
               ∧ ref_domain r = ref_domain named ∧ ref_path r = ref_path named)
  ∧ (∀ (service : Publish.ServiceConfig) (s : Publish.CSt) (tag : string)
       (di : DistributionInspect),
      ParseNormalizedNamed c (Publish.Image service) = inl named →
      ref_tag named = Some tag →
      DistributionInspectCall c (Publish.Image service) = (di, None) →
      ∃ s' pinned,
        pinned = ref_domain named +:+ "/" +:+ ref_path named +:+ "@"
                   +:+ Digest (di_Descriptor di)
        ∧ Publish.pin_service c service s = Next s'
        ∧ (∀ pre sv post,
             Publish.Services s = pre ++ sv :: post →
             Forall (fun x => Publish.Name x ≠ Publish.Name service) pre →
             Publish.Name sv = Publish.Name service →
             Publish.Services s'
             = pre ++ Publish.mkServiceConfig (Publish.Name sv) pinned :: post)
        ∧ pinned = ref_string (mkNamed (ref_domain named) (ref_path named) None
                                 (Some (Digest (di_Descriptor di))))
        ∧ ∀ r, wf_ref r = true → ref_string r = pinned →
               ref_tag r = None ∧ ref_digest r = Some (Digest (di_Descriptor di))
               ∧ ref_domain r = ref_domain named ∧ ref_path r = ref_path named).
Proof.
  intros Hwf. split.
  - intros name a s image effective tag repo mansvc Himg Hdef Hparse Htag Hrepo Hms Hman.
    destruct (registry_pin_step c name a effective tag s named repo mansvc
                Hparse Htag Hrepo Hms Hman) as (s' & Hstep & _ & Hheap).
    exists s', (pinned_image named (Digest (fst (Tags_Get repo tag)))).
    split; [reflexivity |]. split.
    + unfold Part001.pin_service, image_attr. by rewrite Himg, Hdef.
    + split; [done |]. split; [apply pinned_image_is_reference |].
      intros r Hr E. by apply (pinned_reference_components named).
  - intros service s tag di Hparse Htag Hdi.
    exists (Publish.mkCSt
              (Publish.update_first (Publish.Name service)
                 (pinned_image named (Digest (di_Descriptor di))) (Publish.Services s))
              (Publish.cout
                 (Publish.cemit (nl +:+ "  |->  "
                    +:+ pinned_image named (Digest (di_Descriptor di)) +:+ nl)
                    (Publish.cprint_platforms c 0 (di_Platforms di)
                       (Publish.cemit "  | "
                          (Publish.cemit ("Pinning " +:+ Publish.Name service +:+ "("
                             +:+ Publish.Image service +:+ ")" +:+ nl) s)))))),
           (pinned_image named (Digest (di_Descriptor di))).
    split; [reflexivity |]. split.
    + unfold Publish.pin_service. rewrite Hparse, Hdi. simpl.
      by rewrite cprint_platforms_services.
    + split.
      * intros pre sv post Hs Hpre Hsv. simpl. rewrite Hs.
        by apply update_first_spec.
      * split; [apply pinned_image_is_reference |].
        intros r Hr E. by apply (pinned_reference_components named).
Qed.

Lemma pinning_composes_reference_witness :
  (∃ s', Part001.pin_service (Sample.collab Sample.repo_ok) "web" (VMap 1) Sample.store
           = Next s'
         ∧ heap s' !! 1 = Some {["image" := VStr "docker.io/library/nginx@sha256:aaa"]})
  ∧ (∃ s', Publish.pin_service (Sample.collab Sample.repo_ok)
             (Publish.mkServiceConfig "web" "nginx:stable") Sample.config = Next s'
           ∧ Publish.Services s'
             = [Publish.mkServiceConfig "web" "docker.io/library/nginx@sha256:aaa";
                Publish.mkServiceConfig "db" "nginx:stable"]).
Proof.
  destruct (pinning_composes_reference (Sample.collab Sample.repo_ok)
              Sample.nginx_stable eq_refl) as [Hreg Heng].
  split.
  - destruct (Hreg "web" 1 Sample.store "nginx:stable" "nginx:stable" "stable"
                Sample.repo_ok Sample.manifests_ok
                ltac:(vm_compute; reflexivity) eq_refl eq_refl eq_refl eq_refl eq_refl
                (or_intror (ex_intro _ Sample.multi_arch eq_refl)))
      as (s' & pinned & Hp & Hstep & Hheap & _).
    exists s'. split; [exact Hstep |].
    rewrite Hheap, Hp. vm_compute. reflexivity.
  - destruct (Heng (Publish.mkServiceConfig "web" "nginx:stable") Sample.config "stable"
                (mkDistributionInspect (mkDescriptor Sample.sha_aaa) Sample.multi_arch)
                eq_refl eq_refl eq_refl)
      as (s' & pinned & Hp & Hstep & Hsv & _).
    exists s'. split; [exact Hstep |].
    rewrite (Hsv [] (Publish.mkServiceConfig "web" "nginx:stable")
               [Publish.mkServiceConfig "db" "nginx:stable"] eq_refl
               (List.Forall_nil _) eq_refl).
    rewrite Hp. reflexivity.
Defined.

(** ** The loop over the services *)

Lemma image_attr_heap (name : string) (obj : Value) (s s' : St) :
  heap s' = heap s → image_attr name obj s' = image_attr name obj s.
Proof. intros H. unfold image_attr, deref. by rewrite H. Qed.

Lemma range_services_app body (l1 l2 : list (string * Value)) (s : St) :
  (∀ name obj s0 s1, body name obj s0 ≠ Return s1 None) →
  range_services body (l1 ++ l2) s
  = match range_services body l1 s with
    | Return s1 None => range_services body l2 s1
    | stop => stop
    end.
Proof.
  intros Hnil. revert s. induction l1 as [|[name obj] l1 IH]; intros s; simpl.
  - done.
  - destruct (body name obj s) as [s1|s1 [e|]|s1 m] eqn:E; try done.
    by apply Hnil in E.
Qed.

Lemma pins_or_stops_no_nil body :
  pins_or_stops body → ∀ name obj s0 s1, body name obj s0 ≠ Return s1 None.
Proof.
  intros Hb name obj s0 s1 E. specialize (Hb name obj s0). rewrite E in Hb.
  by destruct Hb.
Qed.

(** Where a loop that stops has stopped. *)
Lemma range_services_stops body (services : list (string * Value)) (s s' : St)
    (e : option error) :
  (∀ name obj s0 s1, body name obj s0 ≠ Return s1 None) →
  range_services body services s = Return s' e → e ≠ None →
  ∃ pre name obj post s1,
    services = pre ++ (name, obj) :: post
    ∧ range_services body pre s = Return s1 None
    ∧ body name obj s1 = Return s' e.
Proof.
  intros Hnil. revert s. induction services as [|[name obj] rest IH]; intros s H He; simpl in H.
  - by inversion H; subst.
  - destruct (body name obj s) as [s1|s1 e1|s1 m] eqn:E.
    + destruct (IH s1 H He) as (pre & n & o & post & s2 & -> & Hpre & Hstop).
      exists ((name, obj) :: pre), n, o, post, s2. simpl. by rewrite E.
    + inversion H; subst. by exists [], name, obj, rest, s.
    + done.
Qed.

(** After a prefix has run to its end, each of its records holds a pinned
    image and no other record has changed. *)
Lemma range_services_pins body (pre : list (string * Value)) :
  pins_or_stops body →
  ∀ s s1, range_services body pre s = Return s1 None →
    (∀ name a, (name, VMap a) ∈ pre → is_pinned (deref s1 a !! "image"))
    ∧ (∀ a, ¬ record_of pre a → heap s1 !! a = heap s !! a).
Proof.
  intros Hb. pose proof (pins_or_stops_no_nil _ Hb) as Hnil.
  induction pre as [|[name obj] pre IH] using rev_ind; intros s s1 H.
  - simpl in H. inversion H; subst. split; [|done].
    intros name a Hin. by apply elem_of_nil in Hin.
  - rewrite range_services_app in H by done.
    destruct (range_services body pre s) as [s0|s0 [e|]|s0 m] eqn:Epre; try done.
    destruct (IH s s0 Epre) as [Hpin Hsame]. simpl in H.
    pose proof (Hb name obj s0) as Hstep.
    destruct (body name obj s0) as [s2|s2 e2|s2 m2]; try done.
    + inversion H; subst s2. destruct Hstep as (a & named & dgst & -> & Hheap).
      split.
      * intros n a' Hin. unfold deref. rewrite Hheap.
        destruct (decide (a' = a)) as [->|Hne].
        -- rewrite lookup_insert_eq. simpl. rewrite lookup_insert_eq.
           by exists named, dgst.
        -- rewrite lookup_insert_ne by done.
           apply elem_of_app in Hin as [Hin|Hin].
           ++ apply (Hpin n a' Hin).
           ++ apply list_elem_of_singleton in Hin. congruence.
      * intros a' Hnot. rewrite Hheap.
        rewrite lookup_insert_ne.
        -- apply Hsame. intros [n Hin]. apply Hnot. exists n.
           apply elem_of_app. by left.
        -- intros ->. apply Hnot. exists name. apply elem_of_app. right.
           by apply list_elem_of_singleton.
    + inversion H; subst. by destruct Hstep.
Qed.

Lemma part002_pins_or_stops (c : Collab) : pins_or_stops (Part002.pin_service c).
Proof.
  intros name obj s. unfold Part002.pin_service.
  destruct (image_attr name obj s) as [[a image]|e] eqn:Hattr; [|done].
  assert (obj = VMap a) as ->.
  { unfold image_attr in Hattr. destruct obj; try done.
    destruct (deref s a0 !! "image") as [[]|]; by inversion Hattr. }
  unfold Part002.resolve_and_pin.
  destruct (ParseNormalizedNamed c image) as [named|e]; [|done].
  destruct (GetRepository c named) as [repo|e]; [|done].
  destruct (ref_tag named) as [tag|]; [|done].
  destruct (Tags_Get repo tag) as [desc e1].
  destruct (repo_Manifests repo) as [[mansvc|] e2]; [|done].
  destruct (ms_Get mansvc (Digest desc)) as [man e3].
  destruct man; try done; exists a, named, (Digest desc); (split; [done |]);
    unfold set_image, deref; simpl; by rewrite ?print_platforms_heap.
Qed.

Lemma part003_pins_or_stops (c : Collab) : pins_or_stops (Part003.pin_service c).
Proof.
  intros name obj s. unfold Part003.pin_service.
  destruct (image_attr name obj s) as [[a image]|e] eqn:Hattr; [|done].
  assert (obj = VMap a) as ->.
  { unfold image_attr in Hattr. destruct obj; try done.
    destruct (deref s a0 !! "image") as [[]|]; by inversion Hattr. }
  unfold Part003.resolve_and_pin.
  destruct (ParseNormalizedNamed c image) as [named|e]; [|done].
  destruct (DistributionInspectCall c image) as [di [e|]]; [done |].
  exists a, named, (Digest (di_Descriptor di)). split; [done |].
  unfold set_image, deref; simpl; by rewrite ?print_platforms_heap.
Qed.

Lemma part002_checks_shape (c : Collab) : checks_shape (Part002.pin_service c).
Proof. intros name obj s e H. unfold Part002.pin_service. by rewrite H. Qed.

Lemma part003_checks_shape (c : Collab) : checks_shape (Part003.pin_service c).
Proof. intros name obj s e H. unfold Part003.pin_service. by rewrite H. Qed.

Lemma pins_with_no_nil (R : string → string → Prop) body :
  pins_with R body → ∀ name obj s0 s1, body name obj s0 ≠ Return s1 None.
Proof.
  intros Hb name obj s0 s1 E. specialize (Hb name obj s0). rewrite E in Hb.
  by destruct Hb.
Qed.

(** A prefix that has run to its end has pinned its services one after the
    other. *)
Lemma range_services_run (R : string → string → Prop) body
    (pre : list (string * Value)) :
  pins_with R body →
  ∀ s s1, range_services body pre s = Return s1 None →
    pinned_run R pre (heap s) (heap s1).
Proof.
  intros Hb. induction pre as [|[name obj] pre IH]; intros s s1 H; simpl in H.
  - inversion H; subst. constructor.
  - pose proof (Hb name obj s) as Hstep.
    destruct (body name obj s) as [s2|s2 e|s2 m]; [| |done].
    + destruct Hstep as (a & image & pinned & -> & Himg & HR & Hheap).
      apply (pinned_cons R name a image pinned); [exact Himg | exact HR |].
      unfold deref in Hheap. rewrite <- Hheap. by apply IH.
    + inversion H; subst. by destruct Hstep.
Qed.

Lemma pinned_run_frame (R : string → string → Prop)
    (l : list (string * Value)) (h h' : gmap addr (gmap string Value)) (a : addr) :
  pinned_run R l h h' → (∀ n, (n, VMap a) ∉ l) → h' !! a = h !! a.
Proof.
  induction 1 as [h|name b image pinned rest h h' Himg HR Hrun IH]; intros Hnot;
    [done |].
  rewrite IH.
  - apply lookup_insert_ne. intros ->. apply (Hnot name). by left.
  - intros n Hin. apply (Hnot n). by right.
Qed.

Lemma pinned_run_app (R : string → string → Prop)
    (l1 l2 : list (string * Value)) (h h' : gmap addr (gmap string Value)) :
  pinned_run R (l1 ++ l2) h h' →
  ∃ hm, pinned_run R l1 h hm ∧ pinned_run R l2 hm h'.
Proof.
  revert h. induction l1 as [|[name obj] l1 IH]; intros h H; simpl in H.
  - exists h. split; [constructor | done].
  - inversion H as [|name' a image pinned rest h0 h0' Himg HR Hrun]; subst.
    destruct (IH _ Hrun) as (hm & H1 & H2).
    exists hm. split; [|done]. by apply (pinned_cons R name a image pinned).
Qed.

(** The record of a service that shares it with no other service of the
    run. *)
Lemma pinned_run_own (R : string → string → Prop)
    (before after : list (string * Value)) (n : string) (a : addr)
    (h h' : gmap addr (gmap string Value)) :
  pinned_run R (before ++ (n, VMap a) :: after) h h' →
  (∀ m, (m, VMap a) ∉ before ++ after) →
  ∃ image pinned,
    default ∅ (h !! a) !! "image" = Some (VStr image)
    ∧ R image pinned
    ∧ h' !! a = Some (<["image" := VStr pinned]> (default ∅ (h !! a))).
Proof.
  intros Hrun Hown.
  apply pinned_run_app in Hrun as (hm & Hbefore & Hrest).
  inversion Hrest as [|n' a' image pinned rest h0 h0' Himg HR Hafter]; subst.
  assert (hm !! a = h !! a) as Hsame.
  { apply (pinned_run_frame R before); [done |].
    intros m Hin. apply (Hown m). apply elem_of_app. by left. }
  rewrite Hsame in Himg, Hafter.
  exists image, pinned. split; [done |]. split; [done |].
  rewrite (pinned_run_frame R after _ _ a Hafter).
  - by rewrite lookup_insert_eq.
  - intros m Hin. apply (Hown m). apply elem_of_app. by right.
Qed.

(** The non-atomic contract of a loop whose body pins with [R] or stops. *)
Lemma best_effort_of_body (R : string → string → Prop) body
    (services : list (string * Value)) (s s' : St) (err : error) :
  pins_with R body → checks_shape body →
  range_services body services s = Return s' (Some err) →
  best_effort R (range_services body) services s s' err.
Proof.
  intros Hb Hshape H. pose proof (pins_with_no_nil R _ Hb) as Hnil.
  destruct (range_services_stops body services s s' (Some err) Hnil H ltac:(done))
    as (pre & name & obj & post & s1 & -> & Hpre & Hstop).
  pose proof (range_services_run R body pre Hb s s1 Hpre) as Hrun.
  pose proof (Hb name obj s1) as Hstep. rewrite Hstop in Hstep.
  destruct Hstep as [Hheap _]. rewrite <- Hheap in Hrun.
  assert (∀ e, image_attr name obj s' = inr e → err = e) as Herr.
  { intros e He. rewrite (image_attr_heap name obj s1 s' Hheap) in He.
    rewrite (Hshape name obj s1 e He) in Hstop. by inversion Hstop. }
  exists pre, name, obj, post. split; [done |].
  split; [|split; [done |]; split; [|split; [|split]]].
  - intros post'. rewrite range_services_app by done. rewrite Hpre. simpl.
    by rewrite Hstop.
  - intros before n a after -> Hown.
    apply (pinned_run_own R before after n a _ _ Hrun Hown).
  - intros a Hnot. by apply (pinned_run_frame R pre).
  - intros a -> Hnone. apply Herr. unfold image_attr. by rewrite Hnone.
  - intros a v -> Hv Hns. apply Herr. unfold image_attr. rewrite Hv.
    destruct v; try done. by destruct (Hns s0).
Qed.

Lemma image_attr_inl (name : string) (obj : Value) (s : St) (a : addr)
    (image : string) :
  image_attr name obj s = inl (a, image) →
  obj = VMap a ∧ deref s a !! "image" = Some (VStr image).
Proof.
  unfold image_attr. destruct obj as [|b|]; try done.
  destruct (deref s b !! "image") as [[]|] eqn:E; try done.
  intros H. by inversion H; subst.
Qed.

Lemma part002_pins_with (c : Collab) :
  pins_with (registry_pins c) (Part002.pin_service c).
Proof.
  intros name obj s. unfold Part002.pin_service.
  destruct (image_attr name obj s) as [[a image]|e] eqn:Hattr; [|done].
  apply image_attr_inl in Hattr as [-> Himg].
  unfold Part002.resolve_and_pin.
  destruct (ParseNormalizedNamed c image) as [named|e] eqn:Hparse; [|done].
  destruct (GetRepository c named) as [repo|e] eqn:Hrepo; [|done].
  destruct (ref_tag named) as [tag|] eqn:Htag; [|done].
  destruct (Tags_Get repo tag) as [desc e1] eqn:Hdesc.
  destruct (repo_Manifests repo) as [[mansvc|] e2] eqn:Hms; [|done].
  destruct (ms_Get mansvc (Digest desc)) as [man e3] eqn:Hman.
  assert (∀ kind : fst (ms_Get mansvc (Digest (fst (Tags_Get repo tag))))
                   = DeserializedManifest
                   ∨ ∃ l, fst (ms_Get mansvc (Digest (fst (Tags_Get repo tag))))
                          = DeserializedManifestList l,
            registry_pins c image (pinned_image named (Digest desc))) as HR.
  { intros kind. exists named, tag, repo, mansvc.
    rewrite Hms, Hdesc. rewrite Hdesc in kind. by repeat split. }
  destruct man; try done;
    exists a, image, (pinned_image named (Digest desc));
    (split; [done |]); (split; [done |]); (split;
      [apply HR; rewrite Hdesc; simpl; rewrite Hman; simpl;
       first [by left | right; by eexists]
      | unfold set_image, deref; simpl; by rewrite ?print_platforms_heap]).
Qed.

Lemma part003_pins_with (c : Collab) :
  pins_with (engine_pins c) (Part003.pin_service c).
Proof.
  intros name obj s. unfold Part003.pin_service.
  destruct (image_attr name obj s) as [[a image]|e] eqn:Hattr; [|done].
  apply image_attr_inl in Hattr as [-> Himg].
  unfold Part003.resolve_and_pin.
  destruct (ParseNormalizedNamed c image) as [named|e] eqn:Hparse; [|done].
  destruct (DistributionInspectCall c image) as [di [e|]] eqn:Hdi; [done |].
  exists a, image, (pinned_image named (Digest (di_Descriptor di))).
  split; [done |]. split; [done |]. split; [by exists named, di |].
  unfold set_image, deref; simpl; by rewrite ?print_platforms_heap.
Qed.

(** C7. Pinning is best-effort and not atomic (part_002 and part_003): when
    it returns an error, the services split into those before the failing
    one, the failing one and those after it; the result is the same
    whatever the later services are, so none of them is processed; the
    records are those that pinning the earlier services one after the other
    gives, so that the record of an earlier service (one that it shares
    with no other earlier service) is what it was at the start with the
    image replaced by domain, "/", path, "@" and digest of its own
    reference, as the registry (part_002) or the engine (part_003) resolved
    it; every record that belongs to no earlier service is as it was; and
    when the failing service has a missing or non-string image, the error
    is the one that names it. *)
Theorem pinning_is_best_effort (c : Collab) (services : list (string * Value))
    (s s' : St) (err : error) :
  (Part002.PinServiceImages c services s = Return s' (Some err) →
   best_effort (registry_pins c) (Part002.PinServiceImages c) services s s' err)
  ∧ (Part003.PinServiceImages c services s = Return s' (Some err) →
     best_effort (engine_pins c) (Part003.PinServiceImages c) services s s' err).
Proof.
  split; intros H.
  - apply best_effort_of_body;
      [apply part002_pins_with | apply part002_checks_shape | exact H].
  - apply best_effort_of_body;
      [apply part003_pins_with | apply part003_checks_shape | exact H].
Qed.

Lemma pinning_is_best_effort_witness :
  best_effort (registry_pins (Sample.collab Sample.repo_ok))
    (Part002.PinServiceImages (Sample.collab Sample.repo_ok))
    Sample.services Sample.store
    (flow_state (Part002.PinServiceImages (Sample.collab Sample.repo_ok)
                   Sample.services Sample.store))
    (Errorf "Service(db) missing 'image' attribute")
  ∧ best_effort (engine_pins (Sample.collab Sample.repo_ok))
      (Part003.PinServiceImages (Sample.collab Sample.repo_ok))
      Sample.services Sample.store
      (flow_state (Part003.PinServiceImages (Sample.collab Sample.repo_ok)
                     Sample.services Sample.store))
      (Errorf "Service(db) missing 'image' attribute").
Proof.
  split.
  - exact (proj1 (pinning_is_best_effort (Sample.collab Sample.repo_ok)
                    Sample.services Sample.store _ _)
             ltac:(vm_compute; reflexivity)).
  - exact (proj2 (pinning_is_best_effort (Sample.collab Sample.repo_ok)
                    Sample.services Sample.store _ _)
             ltac:(vm_compute; reflexivity)).
Defined.

(** The pass over the three services stops at [db], which has no image:
    [web] holds its pinned image, [cache] is as it was. *)
Example web_is_pinned_before_the_failure :
  Part002.PinServiceImages (Sample.collab Sample.repo_ok) Sample.services Sample.store
  = Return
      (mkSt (<[1 := {["image" := VStr "docker.io/library/nginx@sha256:aaa"]}]>
               (heap Sample.store))
         ["Pinning web(nginx:stable)" +:+ nl; "  | "; "amd64"; ", "; "arm"; "v7";
          ", "; "arm64"; nl +:+ "  |->  docker.io/library/nginx@sha256:aaa" +:+ nl])
      (Some (Errorf "Service(db) missing 'image' attribute")).
Proof. reflexivity. Qed.

(** ** Placeholder images (part_001) *)

Lemma empty_image_panics (c : Collab) (name : string) (a : addr) (s : St) :
  deref s a !! "image" = Some (VStr EmptyString) →
  Part001.pin_service c name (VMap a) s
  = Panic s "index out of range [0] with length 0".
Proof. intros H. unfold Part001.pin_service, image_attr. by rewrite H. Qed.

(** A lone dollar sign passes the first index expression and fails the
    second one. *)
Lemma lone_dollar_panics (c : Collab) (name : string) (a : addr) (s : St) :
  deref s a !! "image" = Some (VStr "$") →
  Part001.pin_service c name (VMap a) s
  = Panic s "index out of range [1] with length 1".
Proof. intros H. unfold Part001.pin_service, image_attr. by rewrite H. Qed.

(** An image that does not start with a dollar sign is taken as it is. *)
Lemma plain_image_is_kept (x : ascii) (rest : string) :
  x ≠ "$"%char → Part001.default_image (String x rest) = inl (String x rest).
Proof.
  intros H. unfold Part001.default_image. simpl.
  by apply Ascii.eqb_neq in H as ->.
Qed.

(** C9. In part_001 the test for a placeholder indexes the image string
    without checking that it is non-empty: a service whose image is the
    empty string makes the loop body panic with an index out of range, so a
    pin pass that panics under no iteration order has only non-empty
    images. *)
Theorem placeholder_check_needs_nonempty_image (c : Collab)
    (services : list (string * Value)) (s : St) :
  Part001.default_image EmptyString
  = inr (inr "index out of range [0] with length 0")
  ∧ (∀ name a, deref s a !! "image" = Some (VStr EmptyString) →
       Part001.pin_service c name (VMap a) s
       = Panic s "index out of range [0] with length 0")
  ∧ ((∀ order, order ≡ₚ services →
        ∀ s' msg, Part001.PinServiceImages c order s ≠ Panic s' msg) →
     ∀ name a image, (name, VMap a) ∈ services →
       deref s a !! "image" = Some (VStr image) → image ≠ EmptyString).
Proof.
  split; [reflexivity |]. split; [intros; by apply empty_image_panics |].
  intros Htotal name a image Hin Himg ->.
  apply elem_of_Permutation in Hin as [rest Hperm].
  apply (Htotal ((name, VMap a) :: rest) ltac:(by symmetry) s
           "index out of range [0] with length 0").
  unfold Part001.PinServiceImages. simpl.
  by rewrite (empty_image_panics c name a s Himg).
Qed.

Lemma placeholder_check_needs_nonempty_image_witness :
  deref Sample.store 1 !! "image" = Some (VStr "nginx:stable")
  ∧ "nginx:stable" ≠ EmptyString.
Proof.
  split; [vm_compute; reflexivity |].
  apply (proj2 (proj2 (placeholder_check_needs_nonempty_image
                 (Sample.collab Sample.repo_ok) [("web", VMap 1)] Sample.store))
           ltac:(intros order Hperm s' msg;
                 apply Permutation_singleton_r in Hperm as ->;
                 vm_compute; discriminate)
           "web" 1 "nginx:stable").
  - repeat constructor.
  - vm_compute. reflexivity.
Defined.

(** ** Untagged images *)

(** part_001 checks the assertion and returns an error. *)
Lemma part001_untagged_is_an_error (c : Collab) (name : string) (a : addr)
    (image effective : string) (s : St) (named : Named) (repo : Repository) :
  deref s a !! "image" = Some (VStr image) →
  Part001.default_image image = inl effective →
  ParseNormalizedNamed c effective = inl named →
  GetRepository c named = inl repo →
  ref_tag named = None →
  ∃ s', Part001.pin_service c name (VMap a) s
        = Return s' (Some (Errorf ("Invalid image reference(" +:+ effective +:+
                 "): Images must be tagged. e.g " +:+ effective +:+ ":stable")))
        ∧ heap s' = heap s.
Proof.
  intros Himg Hdef Hparse Hrepo Htag.
  unfold Part001.pin_service, image_attr. rewrite Himg, Hdef.
  unfold Part001.resolve_and_pin. rewrite Hparse, Hrepo, Htag.
  by eexists.
Qed.

(** part_002 asserts without checking, and panics. *)
Lemma part002_untagged_panics (c : Collab) (name : string) (a : addr)
    (image : string) (s : St) (named : Named) (repo : Repository) :
  deref s a !! "image" = Some (VStr image) →
  ParseNormalizedNamed c image = inl named →
  GetRepository c named = inl repo →
  ref_tag named = None →
  ∃ s', Part002.pin_service c name (VMap a) s
        = Panic s' "interface conversion: reference.Named is not reference.Tagged".
Proof.
  intros Himg Hparse Hrepo Htag.
  unfold Part002.pin_service, image_attr. rewrite Himg.
  unfold Part002.resolve_and_pin. rewrite Hparse, Hrepo, Htag.
  by eexists.
Qed.

(** C6. The service [web] has the image [nginx], which parses to a
    reference without a tag. part_001 returns the error that images must be
    tagged and leaves the record alone; part_002 does not return: the
    unchecked assertion panics. *)
Theorem untagged_image_panics_in_part002 :
  (∃ s', Part001.PinServiceImages (Sample.collab Sample.repo_ok)
           [("web", VMap 1)] Sample.untagged_store
         = Return s' (Some (Errorf
             "Invalid image reference(nginx): Images must be tagged. e.g nginx:stable"))
         ∧ heap s' = heap Sample.untagged_store)
  ∧ (∃ s', Part002.PinServiceImages (Sample.collab Sample.repo_ok)
             [("web", VMap 1)] Sample.untagged_store
           = Panic s' "interface conversion: reference.Named is not reference.Tagged"
           ∧ heap s' = heap Sample.untagged_store).
Proof. split; eexists; split; vm_compute; reflexivity. Qed.

(** ** Failures of resolution *)

(** The engine revisions return the engine's error. *)
Lemma engine_failure_is_returned (c : Collab) (name : string) (a : addr)
    (image : string) (s : St) (named : Named) (di : DistributionInspect)
    (err : error) :
  deref s a !! "image" = Some (VStr image) →
  ParseNormalizedNamed c image = inl named →
  DistributionInspectCall c image = (di, Some err) →
  (∃ s', Part003.pin_service c name (VMap a) s = Return s' (Some err)
         ∧ heap s' = heap s)
  ∧ (∀ cs, ∃ cs',
       Publish.pin_service c (Publish.mkServiceConfig name image) cs
       = Return cs' (Some err)
       ∧ Publish.Services cs' = Publish.Services cs).
Proof.
  intros Himg Hparse Hdi. split.
  - unfold Part003.pin_service, image_attr. rewrite Himg.
    unfold Part003.resolve_and_pin. rewrite Hparse, Hdi. by eexists.
  - intros cs. unfold Publish.pin_service. simpl. rewrite Hparse, Hdi. by eexists.
Qed.

Lemma range_services_ext (body body' : string → Value → St → flow St) :
  (∀ name obj s, body name obj s = body' name obj s) →
  ∀ services s, range_services body services s = range_services body' services s.
Proof.
  intros Hext services. induction services as [|[name obj] rest IH]; intros s; simpl.
  - done.
  - rewrite <- Hext. destruct (body name obj s); [apply IH | done..].
Qed.

Lemma print_platforms_silenced (c : Collab) (ps : list Platform) :
  ∀ i s, print_platforms (silenced c) i ps s = print_platforms c i ps s.
Proof. induction ps as [|p ps IH]; intros i s; simpl; [done | apply IH]. Qed.

(** The registry revisions never look at the errors of the tag lookup, of
    the manifest service and of the manifest fetch: a registry that reports
    them and one that does not give the same pin pass. *)
Lemma registry_errors_are_not_read (c : Collab)
    (services : list (string * Value)) (s : St) :
  Part001.PinServiceImages c services s
  = Part001.PinServiceImages (silenced c) services s
  ∧ Part002.PinServiceImages c services s
    = Part002.PinServiceImages (silenced c) services s.
Proof.
  split; apply range_services_ext; intros name obj s0.
  - unfold Part001.pin_service.
    destruct (image_attr name obj s0) as [[a image]|e]; [|done].
    destruct (Part001.default_image image) as [eff|[e|m]]; [|done..].
    unfold Part001.resolve_and_pin. simpl.
    destruct (ParseNormalizedNamed c eff) as [named|e]; [|done].
    destruct (GetRepository c named) as [repo|e]; [|done].
    destruct (ref_tag named) as [tag|]; [|done]. simpl.
    destruct (Tags_Get repo tag) as [desc e1]; simpl.
    destruct (repo_Manifests repo) as [[mansvc|] e2]; simpl; [|done].
    destruct (ms_Get mansvc (Digest desc)) as [[] e3]; simpl;
      by rewrite ?print_platforms_silenced.
  - unfold Part002.pin_service.
    destruct (image_attr name obj s0) as [[a image]|e]; [|done].
    unfold Part002.resolve_and_pin. simpl.
    destruct (ParseNormalizedNamed c image) as [named|e]; [|done].
    destruct (GetRepository c named) as [repo|e]; [|done].
    destruct (ref_tag named) as [tag|]; [|done]. simpl.
    destruct (Tags_Get repo tag) as [desc e1]; simpl.
    destruct (repo_Manifests repo) as [[mansvc|] e2]; simpl; [|done].
    destruct (ms_Get mansvc (Digest desc)) as [[] e3]; simpl;
      by rewrite ?print_platforms_silenced.
Qed.

(** C3. The service [web] has the image [nginx:stable]. When the tag lookup
    fails, the registry revisions do not return the registry's error: the
    descriptor of the failed call is used as if it were good, and what comes
    back is the complaint about the manifest that a later step makes. When
    the manifest service cannot be obtained, they panic. *)
Theorem registry_failure_is_not_reported :
  Tags_Get Sample.repo_tag_lookup_failing "stable"
  = (mkDescriptor EmptyString, Some (LibError "tag lookup: connection refused"))
  ∧ (∃ s', Part001.PinServiceImages (Sample.collab Sample.repo_tag_lookup_failing)
             [("web", VMap 1)] Sample.store
           = Return s' (Some (Errorf "Unexpected manifest: <nil>")))
  ∧ (∃ s', Part002.PinServiceImages (Sample.collab Sample.repo_tag_lookup_failing)
             [("web", VMap 1)] Sample.store
           = Return s' (Some (Errorf "Unexpected manifest: <nil>")))
  ∧ repo_Manifests Sample.repo_without_manifests
    = (None, Some (LibError "manifest service: unauthorized"))
  ∧ (∃ s', Part001.PinServiceImages (Sample.collab Sample.repo_without_manifests)
             [("web", VMap 1)] Sample.store
           = Panic s' "invalid memory address or nil pointer dereference")
  ∧ (∃ s', Part002.PinServiceImages (Sample.collab Sample.repo_without_manifests)
             [("web", VMap 1)] Sample.store
           = Panic s' "invalid memory address or nil pointer dereference").
Proof.
  split; [reflexivity |].
  split; [eexists; vm_compute; reflexivity |].
  split; [eexists; vm_compute; reflexivity |].
  split; [reflexivity |].
  split; eexists; vm_compute; reflexivity.
Qed.

(** ** The progress record *)

Lemma text_of_cons (h : string) (t : list string) :
  text_of (h :: t) = h +:+ text_of t.
Proof.
  unfold text_of. destruct t as [|x t]; simpl.
  - by rewrite append_empty_r.
  - by rewrite append_nil.
Qed.

Lemma text_of_app (l1 l2 : list string) :
  text_of (l1 ++ l2) = text_of l1 +:+ text_of l2.
Proof.
  induction l1 as [|h l1 IH]; simpl.
  - by rewrite append_nil.
  - by rewrite !text_of_cons, IH, append_assoc.
Qed.

Lemma print_platforms_out (c : Collab) (ps : list Platform) :
  ∀ i s, out (print_platforms c i ps s) = out s ++ platform_chunks c i ps.
Proof.
  induction ps as [|p ps IH]; intros i s; simpl.
  - by rewrite app_nil_r.
  - rewrite IH.
    destruct (Nat.eqb i 0), (String.eqb (Architecture p) "arm"); simpl;
      by rewrite <- ?app_assoc.
Qed.

Lemma cprint_platforms_out (c : Collab) (ps : list Platform) :
  ∀ i s, Publish.cout (Publish.cprint_platforms c i ps s)
         = Publish.cout s ++ platform_chunks c i ps.
Proof.
  induction ps as [|p ps IH]; intros i s; simpl.
  - by rewrite app_nil_r.
  - rewrite IH.
    destruct (Nat.eqb i 0), (String.eqb (Architecture p) "arm"); simpl;
      by rewrite <- ?app_assoc.
Qed.

(** What one platform contributes, whatever its position. *)
Lemma platform_chunks_text (c : Collab) (ps : list Platform) :
  (∀ t, has_byte "%" t = false → Printf c t = t) →
  Forall (fun p => plain_platform p = true) ps →
  ∀ i, text_of (platform_chunks c i ps)
       = match ps with
         | [] => EmptyString
         | _ => (if Nat.eqb i 0 then EmptyString else ", ") +:+ platform_list ps
         end.
Proof.
  intros Hfmt Hplain. induction Hplain as [|p ps Hp _ IH]; intros i; [done |].
  apply andb_true_iff in Hp as [Ha Hv]. apply negb_true_iff in Ha, Hv.
  simpl. rewrite (Hfmt _ Ha), (Hfmt _ Hv).
  rewrite text_of_app, text_of_cons, text_of_app, (IH (S i)).
  assert (platform_list (p :: ps)
          = platform_text p +:+ match ps with
                                | [] => EmptyString
                                | _ => ", " +:+ platform_list ps
                                end) as ->.
  { unfold platform_list. destruct ps; simpl; [by rewrite append_empty_r | done]. }
  unfold platform_text.
  destruct (Nat.eqb i 0), (String.eqb (Architecture p) "arm"), ps;
    simpl; unfold text_of; simpl;
    autorewrite with str; rewrite ?append_empty_r, ?append_assoc; done.
Qed.

(** X17. With architecture and variant names that hold no formatting
    directive: when the registry revision (part_001) resolves a manifest
    list, the progress record of the service is the line that names it, the
    marker, a listing and the line of the pinned reference, and the listing
    reads as the platforms in manifest order joined by ", ", each one its
    architecture, with the variant appended directly when the architecture
    is "arm"; a single-platform manifest gives no marker and no listing; the
    engine revision (internal/publish.go) lists the platforms that the
    engine reports in the same way. *)
Theorem platforms_are_listed_in_order (c : Collab) (named : Named) :
  (∀ t, has_byte "%" t = false → Printf c t = t) →
  (∀ (name : string) (a : addr) (s : St) (image effective tag : string)
     (repo : Repository) (mansvc : ManifestService) (man : Manifest),
      deref s a !! "image" = Some (VStr image) →
      Part001.default_image image = inl effective →
      ParseNormalizedNamed c effective = inl named →
      ref_tag named = Some tag →
      GetRepository c named = inl repo →
      fst (repo_Manifests repo) = Some mansvc →
      fst (ms_Get mansvc (Digest (fst (Tags_Get repo tag)))) = man →
      (∀ manifests,
         man = DeserializedManifestList manifests →
         Forall (fun p => plain_platform p = true) manifests →
         ∃ s' listing,
           Part001.pin_service c name (VMap a) s = Next s'
           ∧ out s' = out s
               ++ ["Pinning " +:+ name +:+ "(" +:+ effective +:+ ")" +:+ nl; "  | "]
               ++ listing
               ++ [nl +:+ "  |->  "
                     +:+ pinned_image named (Digest (fst (Tags_Get repo tag))) +:+ nl]
           ∧ text_of listing
             = String.concat ", "
                 (map (fun p => Architecture p
                         +:+ (if String.eqb (Architecture p) "arm"
                              then Variant p else EmptyString)) manifests))
      ∧ (man = DeserializedManifest →
         ∃ s',
           Part001.pin_service c name (VMap a) s = Next s'
           ∧ out s' = out s
               ++ ["Pinning " +:+ name +:+ "(" +:+ effective +:+ ")" +:+ nl;
                   nl +:+ "  |->  "
                     +:+ pinned_image named (Digest (fst (Tags_Get repo tag))) +:+ nl]))
  ∧ (∀ (service : Publish.ServiceConfig) (s : Publish.CSt) (di : DistributionInspect),
      ParseNormalizedNamed c (Publish.Image service) = inl named →
      DistributionInspectCall c (Publish.Image service) = (di, None) →
      Forall (fun p => plain_platform p = true) (di_Platforms di) →
      ∃ s' listing,
        Publish.pin_service c service s = Next s'
        ∧ Publish.cout s' = Publish.cout s
            ++ ["Pinning " +:+ Publish.Name service +:+ "("
                  +:+ Publish.Image service +:+ ")" +:+ nl; "  | "]
            ++ listing
            ++ [nl +:+ "  |->  "
                  +:+ pinned_image named (Digest (di_Descriptor di)) +:+ nl]
        ∧ text_of listing
          = String.concat ", "
              (map (fun p => Architecture p
                      +:+ (if String.eqb (Architecture p) "arm"
                           then Variant p else EmptyString)) (di_Platforms di))).
Proof.
  intros Hfmt. split.
  - intros name a s image effective tag repo mansvc man
      Himg Hdef Hparse Htag Hrepo Hms Hman.
    assert (Part001.pin_service c name (VMap a) s
            = Part001.resolve_and_pin c name a effective s) as ->.
    { unfold Part001.pin_service, image_attr. by rewrite Himg, Hdef. }
    unfold Part001.resolve_and_pin.
    rewrite Hparse, Hrepo, Htag.
    destruct (Tags_Get repo tag) as [desc e1]; simpl in *.
    destruct (repo_Manifests repo) as [m e2]; simpl in *; subst m.
    destruct (ms_Get mansvc (Digest desc)) as [man' e3]; simpl in *; subst man'.
    split.
    + intros manifests -> Hplain.
      eexists. exists (platform_chunks c 0 manifests). split; [reflexivity |]. split.
      * simpl. rewrite print_platforms_out. simpl. by rewrite <- !app_assoc.
      * rewrite (platform_chunks_text c manifests Hfmt Hplain 0).
        destruct manifests; [done |]. simpl. by rewrite append_nil.
    + intros ->. eexists. split; [reflexivity |]. simpl. by rewrite <- !app_assoc.
  - intros service s di Hparse Hdi Hplain.
    unfold Publish.pin_service. rewrite Hparse, Hdi.
    eexists. exists (platform_chunks c 0 (di_Platforms di)). split; [reflexivity |]. split.
    + simpl. rewrite cprint_platforms_out. simpl. by rewrite <- !app_assoc.
    + rewrite (platform_chunks_text c _ Hfmt Hplain 0).
      destruct (di_Platforms di); [done |]. simpl. by rewrite append_nil.
Qed.

Lemma Printf0_plain (t : string) :
  has_byte "%" t = false → Sample.Printf0 t = t.
Proof.
  induction t as [|x t IH]; [done |]. intros H.
  assert (Ascii.eqb x "%" = false) as Hx.
  { destruct (Ascii.eqb_spec x "%") as [->|]; [by simpl in H | done]. }
  assert (has_byte "%" t = false) as Ht.
  { simpl in H. by apply orb_false_iff in H as [_ H]. }
  simpl. rewrite Hx. by rewrite IH.
Qed.

(** A name that holds a directive is not printed as it is. *)
Remark directive_in_a_name_is_interpreted :
  platform_chunks (Sample.collab Sample.repo_ok) 0 [mkPlatform "%d" EmptyString]
  = ["%!d(MISSING)"].
Proof. reflexivity. Qed.

Lemma platforms_are_listed_in_order_witness :
  ∃ s' listing,
    Part001.pin_service (Sample.collab Sample.repo_ok) "web" (VMap 1) Sample.store
    = Next s'
    ∧ out s' = ["Pinning web(nginx:stable)" +:+ nl; "  | "] ++ listing
               ++ [nl +:+ "  |->  docker.io/library/nginx@sha256:aaa" +:+ nl]
    ∧ text_of listing = "amd64, armv7, arm64".
Proof.
  destruct (platforms_are_listed_in_order (Sample.collab Sample.repo_ok)
              Sample.nginx_stable Printf0_plain) as [Hreg _].
  destruct (Hreg "web" 1 Sample.store "nginx:stable" "nginx:stable" "stable"
              Sample.repo_ok Sample.manifests_ok
              (DeserializedManifestList Sample.multi_arch)
              ltac:(vm_compute; reflexivity) eq_refl eq_refl eq_refl eq_refl
              eq_refl eq_refl) as [Hlist _].
  destruct (Hlist Sample.multi_arch eq_refl
              ltac:(repeat constructor)) as (s' & listing & Hstep & Hout & Htext).
  exists s', listing. split; [exact Hstep |]. split; [exact Hout | exact Htext].
Defined.

(** C8. The platform loop prints each name with [fmt.Printf(name)], the
    name being the format string. A manifest list (part_001), or an engine
    (internal/publish.go), that reports the architectures amd64 and amd64%d
    gives a progress record whose second entry is not the architecture name
    but what the formatter makes of it: the listing reads
    amd64, amd64%!d(MISSING) where the platforms joined by ", " read
    amd64, amd64%d. *)
Theorem platform_name_is_printed_as_a_format :
  platform_list Cases.directive_platforms = "amd64, amd64%d"
  ∧ (∃ s', Part001.pin_service Cases.directive_collab "web" (VMap 1) Sample.store
           = Next s'
           ∧ out s' = ["Pinning web(nginx:stable)" +:+ nl; "  | ";
                       "amd64"; ", "; "amd64%!d(MISSING)";
                       nl +:+ "  |->  docker.io/library/nginx@sha256:aaa" +:+ nl]
           ∧ text_of (platform_chunks Cases.directive_collab 0
                        Cases.directive_platforms)
             = "amd64, amd64%!d(MISSING)")
  ∧ (∃ s', Publish.pin_service Cases.directive_collab
             (Publish.mkServiceConfig "web" "nginx:stable") Sample.config = Next s'
           ∧ Publish.cout s'
             = ["Pinning web(nginx:stable)" +:+ nl; "  | ";
                "amd64"; ", "; "amd64%!d(MISSING)";
                nl +:+ "  |->  docker.io/library/nginx@sha256:aaa" +:+ nl]).
Proof.
  split; [reflexivity |]. split; eexists; (split; [reflexivity |]);
    [split |]; reflexivity.
Qed.

(** ** Publication *)

(** A failed blob upload ends the publication with [nil]. *)
Lemma blob_failure_returns_nil (c : Collab) (kind label target : string)
    (pinned : list byte)
    (tgz : list byte → string → list string * (list Entry + error))
    (printed : list string) (buff : list Entry) (o : list string)
    (named : Named) (repo : Repository) (desc : Descriptor) (err : error) :
  tgz pinned "./" = (printed, inl buff) →
  ParseNormalizedNamed c target = inl named →
  GetRepository c named = inl repo →
  bs_Put (Blobs repo) "application/tar+gzip" buff = (desc, Some err) →
  publish c kind label (inl pinned) tgz target o = Return (o ++ printed) None.
Proof.
  intros Htgz Hparse Hrepo Hput. unfold publish.
  by rewrite Htgz, Hparse, Hrepo, Hput.
Qed.

(** A failed manifest push is returned. *)
Lemma manifest_failure_is_returned (c : Collab) (kind label target : string)
    (pinned : list byte)
    (tgz : list byte → string → list string * (list Entry + error))
    (printed : list string) (buff : list Entry) (o : list string)
    (named : Named) (repo : Repository)
    (desc : Descriptor) (svc : ManifestService) (dgst : string) (err : error) :
  tgz pinned "./" = (printed, inl buff) →
  ParseNormalizedNamed c target = inl named →
  GetRepository c named = inl repo →
  bs_Put (Blobs repo) "application/tar+gzip" buff = (desc, None) →
  Build c (mkOCIManifest [(kind, "v1")] [desc]) = None →
  repo_Manifests repo = (Some svc, None) →
  ms_Put svc (mkOCIManifest [(kind, "v1")] [desc])
    (match ref_tag (TagNameOnly c named) with Some t => t | None => "latest" end)
  = (dgst, Some err) →
  ∃ o', publish c kind label (inl pinned) tgz target o = Return o' (Some err).
Proof.
  intros Htgz Hparse Hrepo Hput Hbuild Hsvc Hpush. unfold publish.
  rewrite Htgz, Hparse, Hrepo, Hput, Hbuild, Hsvc, Hpush. by eexists.
Qed.

(** C2. The bundle directory archives without error, the target parses and
    its repository resolves, and the registry refuses the blob with an
    error. [CreateBundle] (internal/publish.go and part_003) and [CreateApp]
    (part_001 and part_002) then return [nil], the value of a successful
    publication, and print no line of their own: the output is empty, but
    for the notices of the ignore patterns that [createTgz] of part_001 has
    printed while archiving. *)
Theorem blob_upload_failure_is_reported_as_success :
  (∀ buff,
     bs_Put (Blobs Sample.repo_blob_failing) "application/tar+gzip" buff
     = (mkDescriptor EmptyString, Some (LibError "blob upload: connection reset")))
  ∧ Publish.CreateBundle (Sample.collab Sample.repo_blob_failing) Sample.lib
      Sample.dir_with_descriptors (inl Sample.descriptor)
      "registry.example/app:v1" []
    = Return [] None
  ∧ Part003.CreateBundle (Sample.collab Sample.repo_blob_failing) Sample.lib
      Sample.dir_with_descriptors (inl Sample.descriptor)
      "registry.example/app:v1" []
    = Return [] None
  ∧ Part001.CreateApp (Sample.collab Sample.repo_blob_failing) Sample.lib
      (inl (Sample.bytes "*.log")) Sample.dir_with_descriptors
      (inl Sample.descriptor) "registry.example/app:v1" []
    = Return ["  |-> ignoring:  .composeappignores" +:+ nl;
              "  |-> ignoring:  *.log" +:+ nl] None
  ∧ Part002.CreateApp (Sample.collab Sample.repo_blob_failing) Sample.lib
      Sample.dir_with_descriptors (inl Sample.descriptor)
      "registry.example/app:v1" []
    = Return [] None.
Proof. repeat split; vm_compute; reflexivity. Qed.

(** ** Archives *)

Lemma with_Name_fields (h : Header) (n : string) :
  h_Name (with_Name h n) = n ∧ h_Size (with_Name h n) = h_Size h.
Proof. done. Qed.

Lemma first_match_none (lib : FsLib) (ignores : list string) (name : string) :
  Part001.first_match lib ignores name = None →
  ∀ pattern, pattern ∈ ignores → Match lib pattern name ≠ (true, None).
Proof.
  induction ignores as [|p ignores IH]; intros H pattern Hin.
  - by apply elem_of_nil in Hin.
  - simpl in H. apply elem_of_cons in Hin as [->|Hin].
    + intros E. by rewrite E in H.
    + apply IH; [|done]. by destruct (Match lib p name) as [[] []].
Qed.

Ltac member_tac :=
  unfold member_of; simpl; repeat split; intros; try done; congruence.

(** One call of the callback of part_001 that does not fail either skips the
    item or writes the member of that item. *)
Lemma part001_visit_spec (lib : FsLib) (ignores : GoSlice string)
    (cc : list byte) (dir : string) (it : WalkItem) (s s' : Part001.TgzSt) :
  Part001.tgz_visit lib ignores cc dir it s = inl s' →
  (kept lib ignores dir it = false ∧ Part001.tw s' = Part001.tw s)
  ∨ (kept lib ignores dir it = true
     ∧ ∃ e, Part001.tw s' = Part001.tw s ++ [e] ∧ member_of cc dir e it).
Proof.
  unfold Part001.tgz_visit, kept, excluded. intros H.
  destruct (walk_err it); [done |].
  destruct (IsDir (fi_Mode (info it))) eqn:Hdir.
  { left. by inversion H. }
  destruct (FileInfoHeader lib (info it) (fi_Name (info it))) as [header|]; [|done].
  simpl in H.
  destruct (Part001.first_match lib (default [] ignores)
              (archive_name (file it) dir)) as [ignore|] eqn:Hm.
  { left. by inversion H. }
  right. split; [done |].
  destruct (String.eqb_spec (fi_Name (info it)) compose_file) as [Hname|Hname].
  - destruct (IsRegular (fi_Mode (info it))) eqn:Hreg.
    + destruct (WriteHeader lib _); [done |]. inversion H; subst s'.
      eexists. split; [reflexivity |]. unfold tar_Write. rewrite Hreg. member_tac.
    + destruct (IsSymlink (fi_Mode (info it))); [|done].
      destruct (link_target it) as [link|] eqn:Hlink; [|done].
      destruct (WriteHeader lib _); [done |]. inversion H; subst s'.
      eexists. split; [reflexivity |]. unfold tar_Write. rewrite Hreg. member_tac.
  - destruct (IsRegular (fi_Mode (info it))) eqn:Hreg.
    + destruct (WriteHeader lib _); [done |].
      destruct (opened it) as [content|] eqn:Hopen; [|done]. inversion H; subst s'.
      eexists. split; [reflexivity |]. member_tac.
    + destruct (IsSymlink (fi_Mode (info it))); [|done].
      destruct (link_target it) as [link|] eqn:Hlink; [|done].
      destruct (WriteHeader lib _); [done |]. inversion H; subst s'.
      eexists. split; [reflexivity |]. member_tac.
Qed.

(** A walk of part_001 that does not fail writes, in order, the members of
    the items it keeps. *)
Lemma part001_walk_spec (lib : FsLib) (ignores : GoSlice string)
    (cc : list byte) (dir : string) (items : list WalkItem) :
  ∀ s s', Part001.tgz_walk lib ignores cc dir items s = inl s' →
    ∃ es, Part001.tw s' = Part001.tw s ++ es
          ∧ Forall2 (member_of cc dir) es
              (List.filter (kept lib ignores dir) items).
Proof.
  induction items as [|it items IH]; intros s s' H; simpl in H.
  - inversion H; subst. exists []. by rewrite app_nil_r.
  - destruct (Part001.tgz_visit lib ignores cc dir it s) as [s1|] eqn:Hv; [|done].
    destruct (IH s1 s' H) as (es & Htw & Hes).
    apply part001_visit_spec in Hv as [[Hk Hs1]|[Hk (e & Hs1 & He)]]; simpl; rewrite Hk.
    + exists es. by rewrite Htw, Hs1.
    + exists (e :: es). rewrite Htw, Hs1, <- app_assoc. split; [done |].
      by constructor.
Qed.

Lemma publish_visit_spec (lib : FsLib) (cc : list byte) (dir : string)
    (it : WalkItem) (tw tw' : list Entry) :
  Publish.tgz_visit lib cc dir it tw = inl tw' →
  (kept lib None dir it = false ∧ tw' = tw)
  ∨ (kept lib None dir it = true
     ∧ ∃ e, tw' = tw ++ [e] ∧ member_of cc dir e it).
Proof.
  unfold Publish.tgz_visit, kept, excluded. simpl. intros H.
  destruct (walk_err it); [done |].
  destruct (IsDir (fi_Mode (info it))) eqn:Hdir.
  { left. by inversion H. }
  destruct (IsRegular (fi_Mode (info it))) eqn:Hreg; [|done]. simpl in H.
  destruct (FileInfoHeader lib (info it) (fi_Name (info it))) as [header|]; [|done].
  right. split; [done |].
  destruct (WriteHeader lib _); [done |].
  destruct (String.eqb_spec (fi_Name (info it)) compose_file) as [Hname|Hname].
  - inversion H; subst tw'. eexists. split; [reflexivity |]. member_tac.
  - destruct (opened it) as [content|] eqn:Hopen; [|done]. inversion H; subst tw'.
    eexists. split; [reflexivity |]. member_tac.
Qed.

Lemma publish_walk_spec (lib : FsLib) (cc : list byte) (dir : string)
    (items : list WalkItem) :
  ∀ tw tw', Publish.tgz_walk lib cc dir items tw = inl tw' →
    ∃ es, tw' = tw ++ es
          ∧ Forall2 (member_of cc dir) es (List.filter (kept lib None dir) items).
Proof.
  induction items as [|it items IH]; intros tw tw' H; simpl in H.
  - inversion H; subst. exists []. by rewrite app_nil_r.
  - destruct (Publish.tgz_visit lib cc dir it tw) as [tw1|] eqn:Hv; [|done].
    destruct (IH tw1 tw' H) as (es & Htw & Hes).
    apply publish_visit_spec in Hv as [[Hk Hs1]|[Hk (e & Hs1 & He)]]; simpl; rewrite Hk.
    + exists es. by rewrite Htw, Hs1.
    + exists (e :: es). rewrite Htw, Hs1, <- app_assoc. split; [done |].
      by constructor.
Qed.

(** The archive of part_001 is the sequence of the members of the kept
    items. *)
Lemma part001_archive_members (lib : FsLib) (ignore_file : list byte + error)
    (items : list WalkItem) (cc : list byte) (dir : string) (archive : list Entry) :
  (Part001.createTgz lib ignore_file items cc dir).2 = inl archive →
  Forall2 (member_of cc dir) archive
    (List.filter (kept lib (Part001.getIgnores lib ignore_file) dir) items).
Proof.
  unfold Part001.createTgz. intros H.
  destruct (Part001.tgz_walk lib _ cc dir items _) as [s'|[s' e]] eqn:Hw; [|done].
  inversion H; subst archive.
  apply part001_walk_spec in Hw as (es & Htw & Hes). simpl in Htw. by rewrite Htw.
Qed.

Lemma publish_archive_members (lib : FsLib) (items : list WalkItem)
    (cc : list byte) (dir : string) (archive : list Entry) :
  Publish.createTgz lib items cc dir = inl archive →
  Forall2 (member_of cc dir) archive (List.filter (kept lib None dir) items).
Proof.
  unfold Publish.createTgz. intros H.
  apply publish_walk_spec in H as (es & Htw & Hes). simpl in Htw. by subst.
Qed.

Lemma kept_item_has_member (lib : FsLib) (ignores : GoSlice string)
    (cc : list byte) (dir : string) (items : list WalkItem)
    (archive : list Entry) (it : WalkItem) :
  Forall2 (member_of cc dir) archive (List.filter (kept lib ignores dir) items) →
  it ∈ items → kept lib ignores dir it = true →
  ∃ e, e ∈ archive ∧ member_of cc dir e it.
Proof.
  intros HF Hin Hk.
  assert (it ∈ List.filter (kept lib ignores dir) items) as Hin'.
  { apply list_elem_of_In, filter_In. split; [by apply list_elem_of_In | done]. }
  apply list_elem_of_lookup in Hin' as [i Hi].
  destruct (Forall2_lookup_r _ _ _ _ _ HF Hi) as (e & He & Hm).
  exists e. split; [|done]. apply list_elem_of_lookup. by exists i.
Qed.



Lemma kept_fields (lib : FsLib) (ignores : GoSlice string) (dir : string)
    (it : WalkItem) :
  kept lib ignores dir it = true ↔
  IsDir (fi_Mode (info it)) = false
  ∧ excluded lib ignores (archive_name (file it) dir) = false.
Proof.
  unfold kept. rewrite andb_true_iff, !negb_true_iff. done.
Qed.

Lemma regular_is_no_directory (m : FileMode) : IsRegular m = true → IsDir m = false.
Proof. by destruct m. Qed.

(** C10. Whether a member receives the descriptor is decided by the base
    name of the file alone, in part_001 and in internal/publish.go: when the
    archive is produced, every regular file of the walk whose base name is
    docker-compose.yml (and, in part_001, whose archive name no ignore
    pattern matches) has a member under its archive-relative name whose
    content is the serialized descriptor and whose size is its length; and
    the archive is, member for member, the sequence of the kept items, each
    member of a regular file with that base name carrying the descriptor,
    each member of another regular file carrying the bytes read from disk,
    and each member of a link (part_001) carrying no content, whatever the
    link is named. *)
Theorem descriptor_is_substituted_by_base_name (lib : FsLib)
    (items : list WalkItem) (composeContent : list byte) (dir : string) :
  (∀ ignore_file archive,
     (Part001.createTgz lib ignore_file items composeContent dir).2 = inl archive →
     (∀ it, it ∈ items → IsRegular (fi_Mode (info it)) = true →
        fi_Name (info it) = "docker-compose.yml" →
        excluded lib (Part001.getIgnores lib ignore_file)
          (archive_name (file it) dir) = false →
        ∃ e, e ∈ archive
             ∧ h_Name (e_header e) = archive_name (file it) dir
             ∧ e_body e = composeContent
             ∧ h_Size (e_header e) = Z.of_nat (length composeContent))
     ∧ Forall2 (member_of composeContent dir) archive
         (List.filter (kept lib (Part001.getIgnores lib ignore_file) dir) items))
  ∧ (∀ archive,
       Publish.createTgz lib items composeContent dir = inl archive →
       (∀ it, it ∈ items → IsRegular (fi_Mode (info it)) = true →
          fi_Name (info it) = "docker-compose.yml" →
          ∃ e, e ∈ archive
               ∧ h_Name (e_header e) = archive_name (file it) dir
               ∧ e_body e = composeContent
               ∧ h_Size (e_header e) = Z.of_nat (length composeContent))
       ∧ Forall2 (member_of composeContent dir) archive
           (List.filter (kept lib None dir) items)).
Proof.
  split.
  - intros ignore_file archive H.
    pose proof (part001_archive_members _ _ _ _ _ _ H) as HF. split; [|done].
    intros it Hin Hreg Hname Hex.
    destruct (kept_item_has_member _ _ _ _ _ _ it HF Hin) as (e & He & Hn & Hd & _).
    { apply kept_fields. split; [by apply regular_is_no_directory | done]. }
    exists e. destruct (Hd Hname Hreg) as [Hb Hs]. by repeat split.
  - intros archive H.
    pose proof (publish_archive_members _ _ _ _ _ H) as HF. split; [|done].
    intros it Hin Hreg Hname.
    destruct (kept_item_has_member _ _ _ _ _ _ it HF Hin) as (e & He & Hn & Hd & _).
    { apply kept_fields. split; [by apply regular_is_no_directory | done]. }
    exists e. destruct (Hd Hname Hreg) as [Hb Hs]. by repeat split.
Qed.

Lemma descriptor_is_substituted_by_base_name_witness :
  (∃ e, e ∈ [mkEntry (mkHeader "docker-compose.yml" 42 EmptyString ModeRegular)
               Sample.descriptor;
             mkEntry (mkHeader "sub/docker-compose.yml" 42 EmptyString ModeRegular)
               Sample.descriptor]
        ∧ h_Name (e_header e) = "sub/docker-compose.yml"
        ∧ e_body e = Sample.descriptor
        ∧ h_Size (e_header e) = 42%Z)
  ∧ (∃ archive e,
       Publish.createTgz Sample.lib Sample.dir_with_descriptors Sample.descriptor "./"
       = inl archive
       ∧ e ∈ archive
       ∧ h_Name (e_header e) = "sub/docker-compose.yml"
       ∧ e_body e = Sample.descriptor
       ∧ h_Size (e_header e) = 42%Z).
Proof.
  destruct (descriptor_is_substituted_by_base_name Sample.lib
              Sample.dir_with_descriptors Sample.descriptor "./") as [Hone Hpub].
  split.
  - destruct (Hone (inl (Sample.bytes "*.log")) _
                ltac:(vm_compute; reflexivity)) as [Hsub _].
    apply (Hsub (Sample.file_item "sub/docker-compose.yml" "docker-compose.yml"
                   "another one")).
    + unfold Sample.dir_with_descriptors. repeat constructor.
    + reflexivity.
    + reflexivity.
    + vm_compute. reflexivity.
  - eexists.
    assert (Publish.createTgz Sample.lib Sample.dir_with_descriptors
              Sample.descriptor "./"
            = inl (match Publish.createTgz Sample.lib Sample.dir_with_descriptors
                           Sample.descriptor "./" with
                   | inl a => a
                   | inr _ => []
                   end)) as Hrun by (vm_compute; reflexivity).
    destruct (Hpub _ Hrun) as [Hsub _].
    destruct (Hsub (Sample.file_item "sub/docker-compose.yml" "docker-compose.yml"
                      "another one")) as (e & He & Hn & Hb & Hs).
    + unfold Sample.dir_with_descriptors. repeat constructor.
    + reflexivity.
    + reflexivity.
    + exists e. split; [exact Hrun |]. by repeat split.
Defined.




(** A docker-compose.yml that is a link is archived as a link, without
    content. *)
Example linked_descriptor_has_no_content :
  ∃ archive e,
    (Part001.createTgz Sample.lib (inr (LibError "no such file or directory"))
       Cases.dir_with_linked_descriptor Sample.descriptor "./").2 = inl archive
    ∧ e ∈ archive
    ∧ h_Name (e_header e) = "docker-compose.yml"
    ∧ h_Linkname (e_header e) = "compose/prod.yml"
    ∧ e_body e = [].
Proof.
  eexists. eexists. split; [vm_compute; reflexivity |].
  split; [apply elem_of_cons; right; by apply list_elem_of_singleton |]. done.
Qed.




(** ** A whole pass over well-formed services (part_001) *)

Lemma resolves_to_functional (c : Collab) (h : gmap string Value) (p q : string) :
  resolves_to c h p → resolves_to c h q → p = q.
Proof.
  intros (i1 & e1 & n1 & t1 & r1 & m1 & Hi1 & Hd1 & Hp1 & Ht1 & Hr1 & _ & _ & ->)
         (i2 & e2 & n2 & t2 & r2 & m2 & Hi2 & Hd2 & Hp2 & Ht2 & Hr2 & _ & _ & ->).
  rewrite Hi1 in Hi2. inversion Hi2; subst i2.
  rewrite Hd1 in Hd2. inversion Hd2; subst e2.
  rewrite Hp1 in Hp2. inversion Hp2; subst n2.
  rewrite Ht1 in Ht2. inversion Ht2; subst t2.
  rewrite Hr1 in Hr2. by inversion Hr2; subst r2.
Qed.

Lemma part001_step_pins (c : Collab) (name : string) (a : addr) (s : St)
    (pinned : string) :
  resolves_to c (deref s a) pinned →
  ∃ s', Part001.pin_service c name (VMap a) s = Next s'
        ∧ heap s' = <[a := <["image" := VStr pinned]> (deref s a)]> (heap s).
Proof.
  intros (image & effective & named & tag & repo & mansvc
          & Himg & Hdef & Hparse & Htag & Hrepo & Hms & Hman & ->).
  destruct (registry_pin_step c name a effective tag s named repo mansvc
              Hparse Htag Hrepo Hms Hman) as (s' & Hstep & _ & Hheap).
  exists s'. split; [|done].
  unfold Part001.pin_service, image_attr. by rewrite Himg, Hdef.
Qed.

Lemma part001_pins_or_stops (c : Collab) : pins_or_stops (Part001.pin_service c).
Proof.
  intros name obj s. unfold Part001.pin_service.
  destruct (image_attr name obj s) as [[a image]|e] eqn:Hattr; [|done].
  assert (obj = VMap a) as ->.
  { unfold image_attr in Hattr. destruct obj; try done.
    destruct (deref s a0 !! "image") as [[]|]; by inversion Hattr. }
  destruct (Part001.default_image image) as [effective|[e|m]]; [|done..].
  unfold Part001.resolve_and_pin.
  destruct (ParseNormalizedNamed c effective) as [named|e]; [|done].
  destruct (GetRepository c named) as [repo|e]; [|done].
  destruct (ref_tag named) as [tag|]; [|done].
  destruct (Tags_Get repo tag) as [desc e1].
  destruct (repo_Manifests repo) as [[mansvc|] e2]; [|done].
  destruct (ms_Get mansvc (Digest desc)) as [man e3].
  destruct man; try done; exists a, named, (Digest desc); (split; [done |]);
    unfold set_image, deref; simpl; by rewrite ?print_platforms_heap.
Qed.

(** When every service has a record of its own that part_001 can pin, the
    pass returns [nil] and every record holds its pinned image, the rest of
    the record being as it was. *)
Lemma part001_pass_pins_every_service (c : Collab)
    (services : list (string * Value)) :
  ∀ s : St,
    NoDup (services.*2) →
    (∀ name obj, (name, obj) ∈ services →
       ∃ a pinned, obj = VMap a ∧ resolves_to c (deref s a) pinned) →
    ∃ s', Part001.PinServiceImages c services s = Return s' None
          ∧ ∀ name a pinned, (name, VMap a) ∈ services →
              resolves_to c (deref s a) pinned →
              heap s' !! a = Some (<["image" := VStr pinned]> (deref s a)).
Proof.
  unfold Part001.PinServiceImages.
  induction services as [|[name obj] rest IH]; intros s Hnd Hall.
  - exists s. split; [done |]. intros n a p Hin. by apply elem_of_nil in Hin.
  - simpl in Hnd. apply NoDup_cons in Hnd as [Hfresh Hnd].
    destruct (Hall name obj ltac:(left)) as (a & pinned & -> & Hres).
    destruct (part001_step_pins c name a s pinned Hres) as (s1 & Hstep & Hheap).
    assert (∀ n b, (n, VMap b) ∈ rest → b ≠ a) as Hother.
    { intros n b Hin ->. apply Hfresh.
      apply list_elem_of_fmap. by exists (n, VMap a). }
    assert (∀ n b, (n, VMap b) ∈ rest → deref s1 b = deref s b) as Hsame.
    { intros n b Hin. unfold deref. rewrite Hheap.
      by rewrite lookup_insert_ne by (symmetry; by apply (Hother n)). }
    destruct (IH s1 Hnd) as (s' & Hrun & Hpins).
    { intros n o Hin. destruct (Hall n o ltac:(by right)) as (b & p & -> & Hp).
      exists b, p. split; [done |]. by rewrite (Hsame n b Hin). }
    exists s'. simpl. rewrite Hstep. split; [done |].
    intros n b p Hin Hp. apply elem_of_cons in Hin as [Heq|Hin].
    + inversion Heq; subst n b.
      rewrite (resolves_to_functional c _ _ _ Hp Hres).
      destruct (range_services_pins _ rest (part001_pins_or_stops c) s1 s' Hrun)
        as [_ Hkeep].
      rewrite (Hkeep a).
      * rewrite Hheap. by rewrite lookup_insert_eq.
      * intros [n Hin]. by apply (Hother n a Hin).
    + rewrite <- (Hsame n b Hin). apply (Hpins n b p Hin).
      by rewrite (Hsame n b Hin).
Qed.

(** The scenario of the specification: [web] with the image [nginx:stable],
    which the registry resolves to [sha256:aaa]. *)
Example web_is_pinned :
  ∃ s', Part001.PinServiceImages (Sample.collab Sample.repo_ok)
          [("web", VMap 1)] Sample.store = Return s' None
        ∧ deref s' 1 !! "image" = Some (VStr "docker.io/library/nginx@sha256:aaa").
Proof. eexists. split; vm_compute; reflexivity. Qed.

(** ** When the placeholder test is in range *)

Lemma get_in_range (s : string) : ∀ n, (n < String.length s)%nat → is_Some (String.get n s).
Proof.
  induction s as [|c s IH]; intros n Hn; simpl in *; [lia |].
  destruct n as [|n]; [by eexists | apply IH; lia].
Qed.

Lemma get_is_in_range (s : string) :
  ∀ n c, String.get n s = Some c → (n < String.length s)%nat.
Proof.
  induction s as [|x s IH]; intros n c H; simpl in *; [done |].
  destruct n as [|n]; [lia |]. apply IH in H. lia.
Qed.

Lemma length_substring (s : string) :
  ∀ n m, (n + m <= String.length s)%nat → String.length (String.substring n m s) = m.
Proof.
  induction s as [|c s IH]; intros n m H; simpl in *.
  - assert (n = 0 ∧ m = 0) as [-> ->] by lia. done.
  - destruct n as [|n].
    + destruct m as [|m]; [done |]. simpl. f_equal. apply IH. lia.
    + apply IH. lia.
Qed.

(** Where [strings.SplitAfterN] finds the separator, the separator is. *)
Lemma index_of_byte (c : ascii) (s : string) :
  ∀ i, String.index 0 (String c EmptyString) s = Some i → String.get i s = Some c.
Proof.
  induction s as [|b s IH]; intros i H; simpl in H; [done |].
  destruct (ascii_dec c b) as [->|Hne].
  - assert (String.prefix EmptyString s = true) as Hp by (by destruct s).
    rewrite Hp in H. by injection H as <-.
  - destruct (String.index 0 (String c EmptyString) s) as [n|]; [|done].
    injection H as <-. simpl. by apply IH.
Qed.

(** The index expressions of lines 43-51 are out of range for the empty
    image and for the image "$", and for no other image. *)
Lemma placeholder_test_panics_iff (image : string) :
  (∃ msg, Part001.default_image image = inr (inr msg))
  ↔ image = EmptyString ∨ image = "$".
Proof.
  split.
  - intros [msg H]. unfold Part001.default_image in H.
    destruct image as [|c0 rest]; [by left |]. right. simpl in H.
    destruct (Ascii.eqb_spec c0 "$") as [->|]; [|done].
    destruct rest as [|c1 rest]; [done |]. exfalso. simpl in H.
    assert (is_Some (String.get (String.length rest) (String c1 rest))) as [cl Hcl].
    { apply get_in_range. simpl. lia. }
    pose proof Hcl as Hcl'. simpl in Hcl'. rewrite Hcl' in H.
    destruct (negb (Ascii.eqb c1 "{") || negb (Ascii.eqb cl "}")) eqn:Hshape; [done |].
    apply orb_false_iff in Hshape as [_ Hlast]. apply negb_false_iff in Hlast.
    apply Ascii.eqb_eq in Hlast. subst cl.
    unfold GoStrings.SplitAfterN2 in H.
    destruct (String.index 0 "-" (String "$" (String c1 rest))) as [i|] eqn:Hi; [|done].
    pose proof (index_of_byte _ _ _ Hi) as Hdash.
    pose proof (get_is_in_range _ _ _ Hdash) as Hlt. simpl in Hlt.
    assert (i ≠ S (String.length rest)) as Hne.
    { intros ->. change (String.get (String.length rest) (String c1 rest) = Some "-"%char) in Hdash.
      rewrite Hcl in Hdash. by inversion Hdash. }
    rewrite length_substring in H by (simpl; lia).
    simpl in H. destruct (S (S (String.length rest)) - (i + 1)) eqn:Hz; [lia | done].
  - intros [-> | ->]; by eexists.
Qed.

(** ** Worked examples *)

(** Archive names: the bundle directory is removed wherever it occurs in the
    path, not only in front. *)
Example archive_name_of_nested_file :
  archive_name "sub/b.txt" "./" = "sub/b.txt"
  ∧ archive_name "/srv/app/sub/b.txt" "/srv/app" = "sub/b.txt"
  ∧ archive_name "sub./b.txt" "./" = "subb.txt".
Proof. repeat split. Qed.

(** The bundling scenario: [a.txt] and the descriptor are archived,
    [sub/b.txt] and the ignore-file are not, and a notice is printed for
    each of the two patterns. *)
Example bundling_scenario :
  Part001.createTgz Sample.lib (inl (Sample.bytes "sub/*")) Sample.dir_of_scenario
    Sample.descriptor "./"
  = (["  |-> ignoring:  .composeappignores" +:+ nl;
      "  |-> ignoring:  sub/*" +:+ nl],
     inl [mkEntry (mkHeader "a.txt" 5 EmptyString ModeRegular) (Sample.bytes "hello");
          mkEntry (mkHeader "docker-compose.yml" 42 EmptyString ModeRegular)
            Sample.descriptor]).
Proof. vm_compute. reflexivity. Qed.

(** The revisions without ignore-file archive every regular file. *)
Example bundling_without_ignores :
  Publish.createTgz Sample.lib Sample.dir_of_scenario Sample.descriptor "./"
  = inl [mkEntry (mkHeader ".composeappignores" 5 EmptyString ModeRegular)
           (Sample.bytes "sub/*");
         mkEntry (mkHeader "a.txt" 5 EmptyString ModeRegular) (Sample.bytes "hello");
         mkEntry (mkHeader "docker-compose.yml" 42 EmptyString ModeRegular)
           Sample.descriptor;
         mkEntry (mkHeader "sub/b.txt" 5 EmptyString ModeRegular)
           (Sample.bytes "world")].
Proof. vm_compute. reflexivity. Qed.

(** A placeholder with a default value is replaced by the default. *)
Example placeholder_with_default :
  Part001.default_image "${IMAGE-nginx:stable}" = inl "nginx:stable".
Proof. reflexivity. Qed.

(** A successful publication prints both digests and returns [nil]. *)
Example publication_succeeds :
  Publish.CreateBundle (Sample.collab Sample.repo_ok) Sample.lib
    Sample.dir_of_scenario (inl Sample.descriptor) "registry.example/app:v1" []
  = Return ["  |-> bundle:  sha256:bbb" +:+ nl; "  |-> manifest:  sha256:mmm" +:+ nl]
      None.
Proof. vm_compute. reflexivity. Qed.

(** * Further properties *)

(** ** A pass changes images only *)

Lemma images_only_refl (s : St) : images_only s s.
Proof. repeat split; intros; try done. by left. Qed.

Lemma images_only_same_heap (s s' : St) : heap s' = heap s → images_only s s'.
Proof.
  intros H. unfold images_only, deref. rewrite H.
  repeat split; intros; try done. by left.
Qed.

Lemma images_only_trans (s1 s2 s3 : St) :
  images_only s1 s2 → images_only s2 s3 → images_only s1 s3.
Proof.
  intros (Hd1 & Ho1 & Hi1) (Hd2 & Ho2 & Hi2). repeat split.
  - intros H. by apply Hd1, Hd2.
  - intros H. by apply Hd2, Hd1.
  - intros a k Hk. by rewrite Ho2, Ho1.
  - intros a. destruct (Hi2 a) as [E2|(i2 & n2 & d2 & Hb2 & Ha2)];
      destruct (Hi1 a) as [E1|(i1 & n1 & d1 & Hb1 & Ha1)].
    + left. by rewrite E2.
    + right. exists i1, n1, d1. by rewrite E2.
    + right. exists i2, n2, d2. by rewrite <- E1.
    + right. by exists i1, n2, d2.
Qed.

(** Writing a pinned image into a record that has a string image. *)
Lemma images_only_set_image (s s' : St) (a : addr) (image : string)
    (named : Named) (dgst : string) :
  deref s a !! "image" = Some (VStr image) →
  heap s' = <[a := <["image" := VStr (pinned_image named dgst)]> (deref s a)]> (heap s) →
  images_only s s'.
Proof.
  intros Himg Hheap.
  assert (is_Some (heap s !! a)) as Ha.
  { unfold deref in Himg. destruct (heap s !! a); [by eexists | done]. }
  unfold images_only, deref. rewrite Hheap. repeat split.
  - intros H. destruct (decide (a0 = a)) as [->|Hne]; [done |].
    by rewrite lookup_insert_ne in H.
  - intros H. destruct (decide (a0 = a)) as [->|Hne].
    + rewrite lookup_insert_eq. by eexists.
    + by rewrite lookup_insert_ne.
  - intros a0 k Hk. destruct (decide (a0 = a)) as [->|Hne].
    + rewrite lookup_insert_eq. simpl. by rewrite lookup_insert_ne.
    + by rewrite lookup_insert_ne.
  - intros a0. destruct (decide (a0 = a)) as [->|Hne].
    + right. exists image, named, dgst. split; [done |].
      rewrite lookup_insert_eq. simpl. by rewrite lookup_insert_eq.
    + left. by rewrite lookup_insert_ne.
Qed.

Lemma image_attr_some (name : string) (obj : Value) (s : St) (a : addr)
    (image : string) :
  image_attr name obj s = inl (a, image) →
  obj = VMap a ∧ deref s a !! "image" = Some (VStr image).
Proof.
  unfold image_attr. intros H. destruct obj as [|b|]; try done.
  destruct (deref s b !! "image") as [[]|] eqn:E; try done.
  by inversion H; subst.
Qed.

Lemma part001_pins_string_images (c : Collab) :
  pins_string_images (Part001.pin_service c).
Proof.
  intros name obj s. unfold Part001.pin_service.
  destruct (image_attr name obj s) as [[a image]|e] eqn:Hattr;
    [|apply images_only_refl].
  apply image_attr_some in Hattr as [-> Himg].
  destruct (Part001.default_image image) as [effective|[e|m]];
    [|apply images_only_refl..].
  unfold Part001.resolve_and_pin.
  destruct (ParseNormalizedNamed c effective) as [named|e];
    [|by apply images_only_same_heap].
  destruct (GetRepository c named) as [repo|e]; [|by apply images_only_same_heap].
  destruct (ref_tag named) as [tag|]; [|by apply images_only_same_heap].
  destruct (Tags_Get repo tag) as [desc e1].
  destruct (repo_Manifests repo) as [[mansvc|] e2];
    [|by apply images_only_same_heap].
  destruct (ms_Get mansvc (Digest desc)) as [man e3].
  destruct man; try (by apply images_only_same_heap);
    apply (images_only_set_image _ _ a image named (Digest desc) Himg);
    unfold set_image, deref; simpl; by rewrite ?print_platforms_heap.
Qed.

Lemma part002_pins_string_images (c : Collab) :
  pins_string_images (Part002.pin_service c).
Proof.
  intros name obj s. unfold Part002.pin_service.
  destruct (image_attr name obj s) as [[a image]|e] eqn:Hattr;
    [|apply images_only_refl].
  apply image_attr_some in Hattr as [-> Himg].
  unfold Part002.resolve_and_pin.
  destruct (ParseNormalizedNamed c image) as [named|e];
    [|by apply images_only_same_heap].
  destruct (GetRepository c named) as [repo|e]; [|by apply images_only_same_heap].
  destruct (ref_tag named) as [tag|]; [|by apply images_only_same_heap].
  destruct (Tags_Get repo tag) as [desc e1].
  destruct (repo_Manifests repo) as [[mansvc|] e2];
    [|by apply images_only_same_heap].
  destruct (ms_Get mansvc (Digest desc)) as [man e3].
  destruct man; try (by apply images_only_same_heap);
    apply (images_only_set_image _ _ a image named (Digest desc) Himg);
    unfold set_image, deref; simpl; by rewrite ?print_platforms_heap.
Qed.

Lemma part003_pins_string_images (c : Collab) :
  pins_string_images (Part003.pin_service c).
Proof.
  intros name obj s. unfold Part003.pin_service.
  destruct (image_attr name obj s) as [[a image]|e] eqn:Hattr;
    [|apply images_only_refl].
  apply image_attr_some in Hattr as [-> Himg].
  unfold Part003.resolve_and_pin.
  destruct (ParseNormalizedNamed c image) as [named|e];
    [|by apply images_only_same_heap].
  destruct (DistributionInspectCall c image) as [di [e|]];
    [by apply images_only_same_heap |].
  apply (images_only_set_image _ _ a image named (Digest (di_Descriptor di)) Himg).
  unfold set_image, deref; simpl; by rewrite ?print_platforms_heap.
Qed.

Lemma range_services_images_only body (services : list (string * Value)) :
  pins_string_images body →
  ∀ s, images_only s (flow_state (range_services body services s)).
Proof.
  intros Hb. induction services as [|[name obj] rest IH]; intros s; simpl.
  - apply images_only_refl.
  - pose proof (Hb name obj s) as Hstep.
    destruct (body name obj s) as [s1|s1 e|s1 m]; simpl in *; [|done..].
    by apply (images_only_trans s s1).
Qed.

(** X1. Whatever a pin pass of the map-based revisions ends in (nil, an
    error or a panic), it has changed images only: no record has appeared
    or disappeared, every attribute other than "image" is as it was, and
    each image is as it was or was a string and is now digest-pinned. *)
Theorem pass_changes_images_only (c : Collab) (services : list (string * Value))
    (s : St) :
  images_only s (flow_state (Part001.PinServiceImages c services s))
  ∧ images_only s (flow_state (Part002.PinServiceImages c services s))
  ∧ images_only s (flow_state (Part003.PinServiceImages c services s)).
Proof.
  split; [|split]; apply range_services_images_only.
  - apply part001_pins_string_images.
  - apply part002_pins_string_images.
  - apply part003_pins_string_images.
Qed.

(** ** The typed configuration keeps its services *)

Lemma services_kept_refl (l : list Publish.ServiceConfig) : services_kept l l.
Proof. induction l; constructor; [by split; [|left] | done]. Qed.

Lemma services_kept_trans (l1 l2 l3 : list Publish.ServiceConfig) :
  services_kept l1 l2 → services_kept l2 l3 → services_kept l1 l3.
Proof.
  unfold services_kept. intros H12. revert l3.
  induction H12 as [|x y l1 l2 [Hn Hi] _ IH]; intros l3 H23.
  - by inversion H23.
  - inversion H23 as [|y' z l2' l3' [Hn' Hi'] Hrest]; subst. constructor.
    + split; [congruence |].
      destruct Hi' as [E|(n & d & E)]; [|right; by exists n, d].
      destruct Hi as [E0|(n & d & E0)]; [left; congruence |].
      right. exists n, d. congruence.
    + by apply IH.
Qed.

Lemma update_first_kept (name : string) (named : Named) (dgst : string)
    (l : list Publish.ServiceConfig) :
  services_kept l (Publish.update_first name (pinned_image named dgst) l).
Proof.
  induction l as [|sv l IH]; simpl; [constructor |].
  destruct (String.eqb (Publish.Name sv) name).
  - constructor; [|apply services_kept_refl].
    split; [done |]. right. by exists named, dgst.
  - constructor; [by split; [|left] | done].
Qed.

Lemma typed_step_keeps_services (c : Collab) (service : Publish.ServiceConfig)
    (s : Publish.CSt) :
  services_kept (Publish.Services s)
    (Publish.Services (flow_state (Publish.pin_service c service s))).
Proof.
  unfold Publish.pin_service.
  destruct (ParseNormalizedNamed c (Publish.Image service)) as [named|e];
    [|apply services_kept_refl].
  destruct (DistributionInspectCall c (Publish.Image service)) as [di [e|]];
    [apply services_kept_refl |].
  simpl. rewrite cprint_platforms_services. simpl. apply update_first_kept.
Qed.

(** X2. Whatever a pin pass over the typed configuration ends in, and
    whatever services the library hands to the consumer, the configuration
    has as many services as before, under the same names in the same order,
    and each image is as it was or is a digest-pinned reference. *)
Theorem typed_pass_keeps_services (c : Collab)
    (visited : list Publish.ServiceConfig) (s : Publish.CSt) :
  services_kept (Publish.Services s)
    (Publish.Services (flow_state (Publish.PinServiceImages c visited s))).
Proof.
  unfold Publish.PinServiceImages. revert s.
  induction visited as [|service rest IH]; intros s; simpl.
  - apply services_kept_refl.
  - pose proof (typed_step_keeps_services c service s) as Hstep.
    destruct (Publish.pin_service c service s) as [s1|s1 e|s1 m]; simpl in *;
      [|done..].
    by apply (services_kept_trans _ (Publish.Services s1)).
Qed.

(** A service that is not in the configuration changes nothing in it. *)
Lemma update_first_unknown (name pinned : string)
    (l : list Publish.ServiceConfig) :
  Forall (fun sv => Publish.Name sv ≠ name) l →
  Publish.update_first name pinned l = l.
Proof.
  induction 1 as [|sv l Hsv _ IH]; simpl; [done |].
  apply String.eqb_neq in Hsv. rewrite Hsv. by f_equal.
Qed.

(** ** More on archives *)

Lemma kept_without_ignores (lib : FsLib) (dir : string) (it : WalkItem) :
  kept lib None dir it = negb (IsDir (fi_Mode (info it))).
Proof. unfold kept, excluded. simpl. by rewrite andb_true_r. Qed.

Lemma filter_kept_without_ignores (lib : FsLib) (dir : string)
    (items : list WalkItem) :
  List.filter (kept lib None dir) items
  = List.filter (fun it => negb (IsDir (fi_Mode (info it)))) items.
Proof.
  induction items as [|it items IH]; simpl; [done |].
  rewrite kept_without_ignores, IH. done.
Qed.

Lemma members_names (cc : list byte) (dir : string) (archive : list Entry)
    (kept_items : list WalkItem) :
  Forall2 (member_of cc dir) archive kept_items →
  map (fun e => h_Name (e_header e)) archive
  = map (fun it => archive_name (file it) dir) kept_items.
Proof.
  induction 1 as [|e it archive kept_items [Hn _] _ IH]; simpl; [done |].
  by rewrite Hn, IH.
Qed.

(** A walk of internal/publish.go that does not fail has met directories and
    regular files only. *)
Lemma publish_walk_regular (lib : FsLib) (cc : list byte) (dir : string)
    (items : list WalkItem) :
  ∀ tw tw', Publish.tgz_walk lib cc dir items tw = inl tw' →
    Forall (fun it => fi_Mode (info it) = ModeDir ∨ fi_Mode (info it) = ModeRegular)
      items.
Proof.
  induction items as [|it items IH]; intros tw tw' H; simpl in H; [constructor |].
  destruct (Publish.tgz_visit lib cc dir it tw) as [tw1|] eqn:Hv; [|done].
  constructor; [|by apply (IH tw1 tw')].
  unfold Publish.tgz_visit in Hv. destruct (walk_err it); [done |].
  destruct (fi_Mode (info it)); simpl in Hv; try done; [by left | by right].
Qed.

(** X3. When an archive is produced, its members are, in the order of the
    walk, the entries that are kept, each under its archive name, so that
    directories contribute no member: in internal/publish.go every walked
    entry is a directory or a regular file and the members are the regular
    files; in part_001 the members are the entries that are no directory
    and that no ignore pattern excludes, as many as there are entries that
    are no directory when there is no ignore-file. *)
Theorem archive_lists_kept_entries_in_walk_order (lib : FsLib)
    (items : list WalkItem) (composeContent : list byte) (dir : string) :
  (∀ archive,
     Publish.createTgz lib items composeContent dir = inl archive →
     map (fun e => h_Name (e_header e)) archive
     = map (fun it => archive_name (file it) dir)
         (List.filter (fun it => IsRegular (fi_Mode (info it))) items)
     ∧ Forall (fun it => fi_Mode (info it) = ModeDir
                         ∨ fi_Mode (info it) = ModeRegular) items)
  ∧ (∀ ignore_file archive,
       (Part001.createTgz lib ignore_file items composeContent dir).2 = inl archive →
       map (fun e => h_Name (e_header e)) archive
       = map (fun it => archive_name (file it) dir)
           (List.filter
              (fun it => negb (IsDir (fi_Mode (info it)))
                         && negb (excluded lib (Part001.getIgnores lib ignore_file)
                                    (archive_name (file it) dir)))
              items)
       ∧ (Part001.getIgnores lib ignore_file = None →
          length archive
          = length (List.filter (fun it => negb (IsDir (fi_Mode (info it)))) items))).
Proof.
  split.
  - intros archive H.
    pose proof (publish_archive_members _ _ _ _ _ H) as HF.
    unfold Publish.createTgz in H. apply publish_walk_regular in H as Hreg.
    split; [|done].
    rewrite (members_names _ _ _ _ HF), filter_kept_without_ignores. f_equal.
    clear HF H. induction Hreg as [|it items Hit _ IH]; simpl; [done |].
    rewrite IH. by destruct Hit as [-> | ->].
  - intros ignore_file archive H.
    pose proof (part001_archive_members _ _ _ _ _ _ H) as HF. split.
    + by rewrite (members_names _ _ _ _ HF).
    + intros Hnone. rewrite Hnone in HF.
      rewrite (Forall2_length _ _ _ HF). by rewrite filter_kept_without_ignores.
Qed.

Lemma archive_lists_kept_entries_in_walk_order_witness :
  map (fun e => h_Name (e_header e))
    [mkEntry (mkHeader "a.txt" 5 EmptyString ModeRegular) (Sample.bytes "hello");
     mkEntry (mkHeader "docker-compose.yml" 42 EmptyString ModeRegular)
       Sample.descriptor]
  = ["a.txt"; "docker-compose.yml"]
  ∧ length [mkEntry (mkHeader "a.txt" 5 EmptyString ModeRegular) (Sample.bytes "hello")]
    = 1.
Proof.
  destruct (archive_lists_kept_entries_in_walk_order Sample.lib Sample.dir_of_scenario
              Sample.descriptor "./") as [_ Hone].
  destruct (archive_lists_kept_entries_in_walk_order Sample.lib
              Sample.dir_without_descriptor Sample.descriptor "./") as [_ Hnone].
  split.
  - etransitivity;
      [exact (proj1 (Hone (inl (Sample.bytes "sub/*"))
                       [mkEntry (mkHeader "a.txt" 5 EmptyString ModeRegular)
                          (Sample.bytes "hello");
                        mkEntry (mkHeader "docker-compose.yml" 42 EmptyString ModeRegular)
                          Sample.descriptor]
                       ltac:(vm_compute; reflexivity)))
      | vm_compute; reflexivity].
  - etransitivity;
      [exact (proj2 (Hnone (inr (LibError "no such file or directory"))
                       [mkEntry (mkHeader "a.txt" 5 EmptyString ModeRegular)
                          (Sample.bytes "hello")]
                       ltac:(vm_compute; reflexivity)) eq_refl)
      | vm_compute; reflexivity].
Defined.

(** ** Symbolic links (part_001) *)

Lemma part001_visit_full (lib : FsLib) (ignores : GoSlice string)
    (cc : list byte) (dir : string) (it : WalkItem) (s s' : Part001.TgzSt) :
  Part001.tgz_visit lib ignores cc dir it s = inl s' →
  (kept lib ignores dir it = false ∧ Part001.tw s' = Part001.tw s)
  ∨ (kept lib ignores dir it = true
     ∧ ∃ e, Part001.tw s' = Part001.tw s ++ [e] ∧ full_member_of cc dir e it).
Proof.
  intros H.
  destruct (part001_visit_spec _ _ _ _ _ _ _ H) as [Hskip|[Hk (e & Htw & Hm)]];
    [by left |].
  right. split; [done |]. exists e. split; [done |]. split; [done |].
  intros Hlink.
  apply kept_fields in Hk as [Hdir Hex]. unfold excluded in Hex.
  unfold Part001.tgz_visit in H. destruct (walk_err it); [done |].
  rewrite Hdir in H.
  destruct (FileInfoHeader lib (info it) (fi_Name (info it))) as [header|]; [|done].
  simpl in H.
  destruct (Part001.first_match lib (default [] ignores)
              (archive_name (file it) dir)); [done |].
  assert (IsRegular (fi_Mode (info it)) = false) as Hreg
    by (by destruct (fi_Mode (info it))).
  rewrite Hreg, Hlink in H.
  destruct (link_target it) as [link|]; [|done].
  destruct (WriteHeader lib _); [done |].
  unfold tar_Write in H. rewrite Hreg in H.
  destruct (String.eqb_spec (fi_Name (info it)) compose_file) as [Hname|Hname];
    inversion H; subst s'; simpl in Htw;
    apply app_inj_tail in Htw as [_ <-]; simpl; by split.
Qed.

Lemma part001_walk_full (lib : FsLib) (ignores : GoSlice string)
    (cc : list byte) (dir : string) (items : list WalkItem) :
  ∀ s s', Part001.tgz_walk lib ignores cc dir items s = inl s' →
    ∃ es, Part001.tw s' = Part001.tw s ++ es
          ∧ Forall2 (full_member_of cc dir) es
              (List.filter (kept lib ignores dir) items).
Proof.
  induction items as [|it items IH]; intros s s' H; simpl in H.
  - inversion H; subst. exists []. by rewrite app_nil_r.
  - destruct (Part001.tgz_visit lib ignores cc dir it s) as [s1|] eqn:Hv; [|done].
    destruct (IH s1 s' H) as (es & Htw & Hes).
    apply part001_visit_full in Hv as [[Hk Hs1]|[Hk (e & Hs1 & He)]]; simpl; rewrite Hk.
    + exists es. by rewrite Htw, Hs1.
    + exists (e :: es). rewrite Htw, Hs1, <- app_assoc. split; [done |].
      by constructor.
Qed.

(** X4. part_001 archives symbolic links: when the archive is produced,
    every link of the walk that no ignore pattern excludes has a member
    under its archive name whose header carries the target that reading the
    link gave, and no content is stored for it, also when it is named
    docker-compose.yml. *)
Theorem links_are_archived_with_their_target (lib : FsLib)
    (ignore_file : list byte + error) (items : list WalkItem)
    (composeContent : list byte) (appDir : string) (archive : list Entry) :
  (Part001.createTgz lib ignore_file items composeContent appDir).2 = inl archive →
  ∀ it, it ∈ items → IsSymlink (fi_Mode (info it)) = true →
    excluded lib (Part001.getIgnores lib ignore_file)
      (archive_name (file it) appDir) = false →
    ∃ e, e ∈ archive
         ∧ h_Name (e_header e) = archive_name (file it) appDir
         ∧ link_target it = inl (h_Linkname (e_header e))
         ∧ e_body e = [].
Proof.
  unfold Part001.createTgz. intros H it Hin Hlink Hex.
  destruct (Part001.tgz_walk lib _ composeContent appDir items _) as [s'|[s' e']] eqn:Hw;
    [|done].
  inversion H; subst archive.
  apply part001_walk_full in Hw as (es & Htw & HF). simpl in Htw. rewrite Htw.
  assert (it ∈ List.filter (kept lib (Part001.getIgnores lib ignore_file) appDir) items)
    as Hin'.
  { apply list_elem_of_In, filter_In. split; [by apply list_elem_of_In |].
    apply kept_fields. split; [by destruct (fi_Mode (info it)) | done]. }
  apply list_elem_of_lookup in Hin' as [i Hi].
  destruct (Forall2_lookup_r _ _ _ _ _ HF Hi) as (e & He & [Hn _] & Hl).
  destruct (Hl Hlink) as [Htarget Hbody].
  exists e. split; [apply list_elem_of_lookup; by exists i |]. by repeat split.
Qed.

Lemma links_are_archived_with_their_target_witness :
  ∃ e, e ∈ [mkEntry (mkHeader "current" 0 "releases/v1" ModeSymlink) [];
            mkEntry (mkHeader "docker-compose.yml" 42 EmptyString ModeRegular)
              Sample.descriptor]
       ∧ h_Name (e_header e) = "current"
       ∧ inl "releases/v1" = (inl (h_Linkname (e_header e)) : string + error)
       ∧ e_body e = [].
Proof.
  exact (links_are_archived_with_their_target Sample.lib (inl (Sample.bytes "*.log"))
           Cases.dir_with_link Sample.descriptor "./" _
           ltac:(vm_compute; reflexivity)
           (Cases.link_item "current" "current" "releases/v1")
           ltac:(unfold Cases.dir_with_link; repeat constructor)
           eq_refl ltac:(vm_compute; reflexivity)).
Defined.

(** ** Why an archive is not produced *)

Lemma publish_walk_app (lib : FsLib) (cc : list byte) (dir : string)
    (l1 l2 : list WalkItem) :
  ∀ tw, Publish.tgz_walk lib cc dir (l1 ++ l2) tw
        = match Publish.tgz_walk lib cc dir l1 tw with
          | inl tw1 => Publish.tgz_walk lib cc dir l2 tw1
          | inr err => inr err
          end.
Proof.
  induction l1 as [|it l1 IH]; intros tw; simpl; [done |].
  destruct (Publish.tgz_visit lib cc dir it tw); [apply IH | done].
Qed.

Lemma publish_walk_fails (lib : FsLib) (cc : list byte) (dir : string)
    (items : list WalkItem) (err : error) :
  ∀ tw, Publish.tgz_walk lib cc dir items tw = inr err →
    ∃ pre it post tw1,
      items = pre ++ it :: post
      ∧ Publish.tgz_walk lib cc dir pre tw = inl tw1
      ∧ Publish.tgz_visit lib cc dir it tw1 = inr err.
Proof.
  induction items as [|it items IH]; intros tw H; simpl in H; [done |].
  destruct (Publish.tgz_visit lib cc dir it tw) as [tw1|e] eqn:Hv.
  - destruct (IH tw1 H) as (pre & it' & post & tw2 & -> & Hpre & Hfail).
    exists (it :: pre), it', post, tw2. simpl. by rewrite Hv.
  - inversion H; subst e. by exists [], it, items, tw.
Qed.

Lemma publish_visit_failure (lib : FsLib) (cc : list byte) (dir : string)
    (it : WalkItem) (tw : list Entry) (err : error) :
  Publish.tgz_visit lib cc dir it tw = inr err → publish_failure lib dir it err.
Proof.
  unfold Publish.tgz_visit, publish_failure. intros H.
  destruct (walk_err it) as [e|]; [left; exists e; by inversion H |].
  right. split; [done |].
  destruct (IsDir (fi_Mode (info it))); [done |]. split; [done |].
  destruct (IsRegular (fi_Mode (info it))); simpl in H;
    [right; split; [done |] | left; by inversion H].
  destruct (FileInfoHeader lib (info it) (fi_Name (info it))) as [header|e];
    [|left; by inversion H].
  right.
  destruct (WriteHeader lib _) as [e|] eqn:Hw; [left; inversion H; subst; by eexists |].
  right. destruct (String.eqb_spec (fi_Name (info it)) compose_file); [done |].
  destruct (opened it); [done |]. by inversion H.
Qed.

(** X5. When internal/publish.go (and part_002 and part_003, which have the
    same function) produces no archive, the walk has failed at one entry:
    the entries before it were archived without error, what comes after it
    plays no role, and the error is the wrapped error of the walk, the
    refusal of an entry that is neither a directory nor a regular file (a
    symbolic link included) under its base name, or the error of the header,
    of its writing, or of reading a file other than the descriptor. *)
Theorem archive_fails_at_the_first_bad_entry (lib : FsLib)
    (items : list WalkItem) (composeContent : list byte) (bundleDir : string)
    (err : error) :
  Publish.createTgz lib items composeContent bundleDir = inr err →
  ∃ pre it post members,
    items = pre ++ it :: post
    ∧ Publish.createTgz lib pre composeContent bundleDir = inl members
    ∧ (∀ post',
         Publish.createTgz lib (pre ++ it :: post') composeContent bundleDir
         = inr err)
    ∧ publish_failure lib bundleDir it err.
Proof.
  unfold Publish.createTgz. intros H.
  destruct (publish_walk_fails _ _ _ _ _ _ H) as (pre & it & post & tw1 & -> & Hpre & Hv).
  exists pre, it, post, tw1. split; [done |]. split; [done |]. split.
  - intros post'. rewrite publish_walk_app, Hpre. simpl. by rewrite Hv.
  - by apply (publish_visit_failure _ composeContent _ _ tw1).
Qed.

Lemma archive_fails_at_the_first_bad_entry_witness :
  ∃ pre it post members,
    Cases.dir_with_fifo = pre ++ it :: post
    ∧ Publish.createTgz Sample.lib pre Sample.descriptor "./" = inl members
    ∧ (∀ post',
         Publish.createTgz Sample.lib (pre ++ it :: post') Sample.descriptor "./"
         = inr (Errorf "Tar: Can't tar non regular types yet: queue"))
    ∧ publish_failure Sample.lib "./" it
        (Errorf "Tar: Can't tar non regular types yet: queue").
Proof.
  exact (archive_fails_at_the_first_bad_entry Sample.lib Cases.dir_with_fifo
           Sample.descriptor "./" _ ltac:(vm_compute; reflexivity)).
Defined.

Lemma part001_walk_app (lib : FsLib) (ignores : GoSlice string) (cc : list byte)
    (dir : string) (l1 l2 : list WalkItem) :
  ∀ s, Part001.tgz_walk lib ignores cc dir (l1 ++ l2) s
       = match Part001.tgz_walk lib ignores cc dir l1 s with
         | inl s1 => Part001.tgz_walk lib ignores cc dir l2 s1
         | inr err => inr err
         end.
Proof.
  induction l1 as [|it l1 IH]; intros s; simpl; [done |].
  destruct (Part001.tgz_visit lib ignores cc dir it s); [apply IH | done].
Qed.

(** A walk that stops has stopped at one item, in the state that the items
    before it have led to. *)
Lemma part001_walk_fails (lib : FsLib) (ignores : GoSlice string)
    (cc : list byte) (dir : string) (items : list WalkItem) (err : error)
    (s1 : Part001.TgzSt) :
  ∀ s, Part001.tgz_walk lib ignores cc dir items s = inr (s1, err) →
    ∃ pre it post,
      items = pre ++ it :: post
      ∧ Part001.tgz_walk lib ignores cc dir pre s = inl s1
      ∧ Part001.tgz_visit lib ignores cc dir it s1 = inr err.
Proof.
  induction items as [|it items IH]; intros s H; simpl in H; [done |].
  destruct (Part001.tgz_visit lib ignores cc dir it s) as [s2|e] eqn:Hv.
  - destruct (IH s2 H) as (pre & it' & post & -> & Hpre & Hfail).
    exists (it :: pre), it', post. simpl. by rewrite Hv.
  - inversion H; subst e s1. by exists [], it, items.
Qed.

Lemma part001_visit_failure (lib : FsLib) (ignores : GoSlice string)
    (cc : list byte) (dir : string) (it : WalkItem) (s : Part001.TgzSt)
    (err : error) :
  Part001.tgz_visit lib ignores cc dir it s = inr err →
  part001_failure lib ignores dir it err.
Proof.
  unfold Part001.tgz_visit, part001_failure, excluded. intros H.
  destruct (walk_err it) as [e|]; [left; exists e; by inversion H |].
  right. split; [done |].
  destruct (IsDir (fi_Mode (info it))); [done |]. split; [done |].
  destruct (FileInfoHeader lib (info it) (fi_Name (info it))) as [header|e];
    [|left; by inversion H].
  right. simpl in H.
  destruct (Part001.first_match lib (default [] ignores)
              (archive_name (file it) dir)); [done |].
  split; [done |].
  destruct (IsRegular (fi_Mode (info it))) eqn:Hreg.
  - right. right.
    destruct (WriteHeader lib _) as [e|] eqn:Hw;
      [left; inversion H; subst; by eexists |].
    right. split; [done |].
    destruct (String.eqb_spec (fi_Name (info it)) compose_file); [done |].
    destruct (opened it); [done |]. by inversion H.
  - destruct (IsSymlink (fi_Mode (info it))) eqn:Hlink.
    + right.
      destruct (link_target it) as [link|e];
        [|left; split; [done |]; exists e; by inversion H].
      right. left.
      destruct (WriteHeader lib _) as [e|] eqn:Hw;
        [inversion H; subst; by eexists |].
      by destruct (String.eqb (fi_Name (info it)) compose_file).
    + left. by inversion H.
Qed.

(** An entry that an ignore pattern excludes is passed over without error,
    whatever its type and whether or not it can be read, once its header can
    be made. *)
Lemma excluded_entry_never_fails (lib : FsLib) (ignores : GoSlice string)
    (cc : list byte) (dir : string) (it : WalkItem) (s : Part001.TgzSt)
    (header : Header) :
  walk_err it = None →
  FileInfoHeader lib (info it) (fi_Name (info it)) = inl header →
  excluded lib ignores (archive_name (file it) dir) = true →
  ∃ s', Part001.tgz_visit lib ignores cc dir it s = inl s'
        ∧ Part001.tw s' = Part001.tw s.
Proof.
  unfold Part001.tgz_visit, excluded. intros Herr Hheader Hex.
  rewrite Herr. destruct (IsDir (fi_Mode (info it))); [by eexists |].
  rewrite Hheader. simpl.
  destruct (Part001.first_match lib (default [] ignores)
              (archive_name (file it) dir)); [by eexists | done].
Qed.

(** X6. When part_001 produces no archive, the walk has failed at one
    entry: the entries before it were passed without error, what comes after
    it plays no role, and the error is the wrapped error of the walk, the
    error of the header, or, for an entry that no ignore pattern excludes,
    the refusal of an entry that is no directory, regular file or link under
    its archive name, the failure to read a link, or the error of writing
    the header or of reading a regular file other than the descriptor. An
    excluded entry never makes the archive fail after its header is made. *)
Theorem part001_archive_fails_at_the_first_bad_entry (lib : FsLib)
    (ignore_file : list byte + error) (items : list WalkItem)
    (composeContent : list byte) (appDir : string) (err : error) :
  (Part001.createTgz lib ignore_file items composeContent appDir).2 = inr err →
  ∃ pre it post members,
    items = pre ++ it :: post
    ∧ (Part001.createTgz lib ignore_file pre composeContent appDir).2 = inl members
    ∧ (∀ post',
         (Part001.createTgz lib ignore_file (pre ++ it :: post')
            composeContent appDir).2
         = inr err)
    ∧ part001_failure lib (Part001.getIgnores lib ignore_file) appDir it err.
Proof.
  unfold Part001.createTgz. intros H.
  destruct (Part001.tgz_walk lib _ composeContent appDir items _) as [|[s1 e]] eqn:Hw;
    [done |].
  inversion H; subst e.
  destruct (part001_walk_fails _ _ _ _ _ _ _ _ Hw)
    as (pre & it & post & -> & Hpre & Hv).
  exists pre, it, post, (Part001.tw s1). rewrite Hpre.
  split; [done |]. split; [done |]. split.
  - intros post'. rewrite part001_walk_app, Hpre. simpl. by rewrite Hv.
  - by apply (part001_visit_failure _ _ composeContent _ _ s1).
Qed.

Lemma part001_archive_fails_at_the_first_bad_entry_witness :
  ∃ pre it post members,
    Cases.dir_with_fifo = pre ++ it :: post
    ∧ (Part001.createTgz Sample.lib (inl (Sample.bytes "*.log")) pre
         Sample.descriptor "./").2 = inl members
    ∧ (∀ post',
         (Part001.createTgz Sample.lib (inl (Sample.bytes "*.log"))
            (pre ++ it :: post') Sample.descriptor "./").2
         = inr (Errorf "Tar: Can't tar non regular types yet: queue"))
    ∧ part001_failure Sample.lib
        (Part001.getIgnores Sample.lib (inl (Sample.bytes "*.log"))) "./" it
        (Errorf "Tar: Can't tar non regular types yet: queue").
Proof.
  exact (part001_archive_fails_at_the_first_bad_entry Sample.lib
           (inl (Sample.bytes "*.log")) Cases.dir_with_fifo Sample.descriptor "./" _
           ltac:(vm_compute; reflexivity)).
Defined.

(** An excluded fifo does not stop part_001. *)
Example excluded_fifo_is_skipped :
  Part001.createTgz Sample.lib (inl (Sample.bytes "queue")) Cases.dir_with_fifo
    Sample.descriptor "./"
  = (["  |-> ignoring:  queue" +:+ nl],
     inl [mkEntry (mkHeader "a.txt" 5 EmptyString ModeRegular) (Sample.bytes "hello");
          mkEntry (mkHeader "z.txt" 10 EmptyString ModeRegular)
            (Sample.bytes "never read")]).
Proof. vm_compute. reflexivity. Qed.

(** ** Ignore patterns *)

Lemma first_match_some (lib : FsLib) (ignores : list string) (name pattern : string) :
  Part001.first_match lib ignores name = Some pattern →
  ∃ before after,
    ignores = before ++ pattern :: after
    ∧ Match lib pattern name = (true, None)
    ∧ ∀ q, q ∈ before → Match lib q name ≠ (true, None).
Proof.
  induction ignores as [|p ignores IH]; intros H; simpl in H; [done |].
  destruct (Match lib p name) as [[] [e|]] eqn:Hm;
    try (destruct (IH H) as (before & after & -> & Hp & Hq);
         exists (p :: before), after; split; [done |]; split; [done |];
         intros q Hin; apply elem_of_cons in Hin as [->|Hin];
         [by rewrite Hm | by apply Hq]).
  inversion H; subst p. exists [], ignores. split; [done |]. split; [done |].
  intros q Hin. by apply elem_of_nil in Hin.
Qed.

(** X7. An entry name is excluded exactly when some pattern of the list
    matches it without error; a pattern that [filepath.Match] rejects, a
    pattern that does not match and a [nil] list exclude nothing; and the
    pattern that is announced is the first one of the list that matches. *)
Theorem exclusion_is_by_first_matching_pattern (lib : FsLib)
    (ignores : GoSlice string) (name : string) :
  (excluded lib ignores name = true
   ↔ ∃ pattern, pattern ∈ default [] ignores
                ∧ Match lib pattern name = (true, None))
  ∧ (∀ pattern,
       Part001.first_match lib (default [] ignores) name = Some pattern →
       ∃ before after,
         default [] ignores = before ++ pattern :: after
         ∧ Match lib pattern name = (true, None)
         ∧ ∀ q, q ∈ before → Match lib q name ≠ (true, None)).
Proof.
  split; [|intros pattern; apply first_match_some].
  unfold excluded. split.
  - destruct (Part001.first_match lib (default [] ignores) name) as [p|] eqn:E;
      [|done].
    intros _. destruct (first_match_some _ _ _ _ E) as (before & after & Hl & Hp & _).
    exists p. split; [|done]. rewrite Hl. apply elem_of_app. right. by left.
  - intros (p & Hin & Hp).
    destruct (Part001.first_match lib (default [] ignores) name) eqn:E; [done |].
    by destruct (first_match_none _ _ _ E p Hin).
Qed.

Lemma exclusion_is_by_first_matching_pattern_witness :
  excluded Sample.lib (Some ["sub/*"; "*.log"]) "build.log" = true.
Proof.
  apply (proj1 (exclusion_is_by_first_matching_pattern Sample.lib
                  (Some ["sub/*"; "*.log"]) "build.log")).
  exists "*.log". split; [|reflexivity].
  simpl. apply elem_of_cons. right. by apply list_elem_of_singleton.
Defined.

(** ** Notices of ignore patterns *)

Lemma length_append (a b : string) :
  String.length (a +:+ b) = (String.length a + String.length b)%nat.
Proof. induction a as [|x a IH]; str_simpl; [done | by f_equal]. Qed.

Lemma append_inj_r (a b c : string) : a +:+ c = b +:+ c → a = b.
Proof.
  revert b. induction a as [|x a IH]; intros [|y b] H; str_simpl.
  - done.
  - apply (f_equal String.length) in H. simpl in H.
    rewrite length_append in H. lia.
  - apply (f_equal String.length) in H. simpl in H.
    rewrite length_append in H. lia.
  - inversion H; subst. f_equal. by apply IH.
Qed.

Lemma notice_inj (p q : string) : notice p = notice q → p = q.
Proof.
  unfold notice. intros H. apply String.app_inj in H. by apply append_inj_r in H.
Qed.

(** What the notices of a state say: one line per pattern that has excluded
    an entry so far, no line twice. *)
Lemma part001_visit_notices (lib : FsLib) (ignores : GoSlice string)
    (cc : list byte) (dir : string) (it : WalkItem) (s s' : Part001.TgzSt) :
  Part001.tgz_visit lib ignores cc dir it s = inl s' →
  NoDup (Part001.tout s) →
  (∀ line, line ∈ Part001.tout s ↔ ∃ p, p ∈ Part001.warned s ∧ line = notice p) →
  NoDup (Part001.tout s')
  ∧ (∀ line, line ∈ Part001.tout s' ↔ ∃ p, p ∈ Part001.warned s' ∧ line = notice p)
  ∧ (∀ p, p ∈ Part001.warned s'
          ↔ p ∈ Part001.warned s ∨ hit lib ignores dir it = Some p).
Proof.
  unfold Part001.tgz_visit, hit. intros H Hnd Hlines.
  assert (∀ p : string, p ∈ Part001.warned s
                        ↔ p ∈ Part001.warned s ∨ (None : option string) = Some p)
    as Hsame.
  { intros p. split; [by left | by intros [?|?]]. }
  destruct (walk_err it); [done |].
  destruct (IsDir (fi_Mode (info it))).
  { inversion H; subst s'. split; [done |]. split; [done | exact Hsame]. }
  destruct (FileInfoHeader lib (info it) (fi_Name (info it))) as [header|]; [|done].
  simpl in H.
  destruct (Part001.first_match lib (default [] ignores)
              (archive_name (file it) dir)) as [ignore|] eqn:Hm.
  - inversion H; subst s'; simpl. clear H.
    assert (∀ p, p ∈ ({[ignore]} ∪ Part001.warned s : gset string)
                 ↔ p ∈ Part001.warned s ∨ Some ignore = Some p) as Hw.
    { intros p. rewrite elem_of_union, elem_of_singleton. split.
      - intros [->|Hp]; [by right | by left].
      - intros [Hp|Heq]; [by right | left; by inversion Heq]. }
    split; [|split; [|done]].
    + destruct (decide (ignore ∈ Part001.warned s)) as [Hin|Hnot]; [done |].
      apply NoDup_app. split; [done |]. split; [|apply NoDup_singleton].
      intros line Hline Hnew. apply list_elem_of_singleton in Hnew. subst line.
      apply Hlines in Hline as (p & Hp & Heq). apply notice_inj in Heq.
      by subst p.
    + intros line. destruct (decide (ignore ∈ Part001.warned s)) as [Hin|Hnot].
      * rewrite Hlines. split; intros (p & Hp & ->); exists p; (split; [|done]).
        -- apply Hw. by left.
        -- apply Hw in Hp as [Hp|Heq]; [done | by inversion Heq; subst].
      * rewrite elem_of_app, list_elem_of_singleton, Hlines. split.
        -- intros [(p & Hp & ->) | ->]; [exists p | exists ignore];
             (split; [|done]); apply Hw; [by left | by right].
        -- intros (p & Hp & ->). apply Hw in Hp as [Hp|Heq].
           ++ left. by exists p.
           ++ inversion Heq; subst p. by right.
  - assert (Part001.warned s' = Part001.warned s ∧ Part001.tout s' = Part001.tout s)
      as [Hw Ht].
    { destruct (IsRegular (fi_Mode (info it))).
      - destruct (WriteHeader lib _); [done |].
        destruct (String.eqb (fi_Name (info it)) compose_file);
          [by inversion H |].
        destruct (opened it); [by inversion H | done].
      - destruct (IsSymlink (fi_Mode (info it))); [|done].
        destruct (link_target it); [|done].
        destruct (WriteHeader lib _); [done |].
        destruct (String.eqb (fi_Name (info it)) compose_file); by inversion H. }
    rewrite Hw, Ht. split; [done |]. split; [done | exact Hsame].
Qed.

Lemma part001_walk_notices (lib : FsLib) (ignores : GoSlice string)
    (cc : list byte) (dir : string) (items : list WalkItem) :
  ∀ s s', Part001.tgz_walk lib ignores cc dir items s = inl s' →
    NoDup (Part001.tout s) →
    (∀ line, line ∈ Part001.tout s ↔ ∃ p, p ∈ Part001.warned s ∧ line = notice p) →
    NoDup (Part001.tout s')
    ∧ (∀ line, line ∈ Part001.tout s' ↔ ∃ p, p ∈ Part001.warned s' ∧ line = notice p)
    ∧ (∀ p, p ∈ Part001.warned s'
            ↔ p ∈ Part001.warned s
              ∨ ∃ it, it ∈ items ∧ hit lib ignores dir it = Some p).
Proof.
  induction items as [|it items IH]; intros s s' H Hnd Hlines; simpl in H.
  - inversion H; subst s'. split; [done |]. split; [done |].
    intros p. split; [by left |]. intros [Hp|(it & Hin & _)]; [done |].
    by apply elem_of_nil in Hin.
  - destruct (Part001.tgz_visit lib ignores cc dir it s) as [s1|] eqn:Hv; [|done].
    destruct (part001_visit_notices _ _ _ _ _ _ _ Hv Hnd Hlines)
      as (Hnd1 & Hlines1 & Hw1).
    destruct (IH s1 s' H Hnd1 Hlines1) as (Hnd' & Hlines' & Hw').
    split; [done |]. split; [done |].
    intros p. rewrite Hw', Hw1. split.
    + intros [[Hp|Hhit]|(it' & Hin & Hhit)].
      * by left.
      * right. exists it. split; [by left | done].
      * right. exists it'. split; [by right | done].
    + intros [Hp|(it' & Hin & Hhit)]; [by left; left |].
      apply elem_of_cons in Hin as [->|Hin]; [by left; right |].
      right. by exists it'.
Qed.

(** X8. The notices that the walk of part_001 prints when it is not
    aborted: exactly one line for each ignore pattern that is the first
    match of some walked entry that is no directory, and no line twice,
    however many entries the pattern excludes. *)
Theorem each_ignore_pattern_is_announced_once (lib : FsLib)
    (ignores : GoSlice string) (composeContent : list byte) (appDir : string)
    (items : list WalkItem) (s' : Part001.TgzSt) :
  Part001.tgz_walk lib ignores composeContent appDir items
    (Part001.mkTgzSt [] ∅ []) = inl s' →
  NoDup (Part001.tout s')
  ∧ ∀ line,
      line ∈ Part001.tout s'
      ↔ ∃ pattern it,
          it ∈ items
          ∧ IsDir (fi_Mode (info it)) = false
          ∧ Part001.first_match lib (default [] ignores)
              (archive_name (file it) appDir) = Some pattern
          ∧ line = "  |-> ignoring:  " +:+ pattern +:+ nl.
Proof.
  intros H.
  destruct (part001_walk_notices _ _ _ _ _ _ _ H (NoDup_nil_2 : NoDup []))
    as (Hnd & Hlines & Hw).
  { intros line. split; [intros Hin; by apply elem_of_nil in Hin |].
    intros (p & Hp & _). simpl in Hp. by apply elem_of_empty in Hp. }
  split; [done |]. intros line. rewrite Hlines. split.
  - intros (p & Hp & ->). apply Hw in Hp as [Hp|(it & Hin & Hhit)];
      [simpl in Hp; by apply elem_of_empty in Hp |].
    exists p, it. unfold hit in Hhit.
    destruct (IsDir (fi_Mode (info it))); [done |]. by repeat split.
  - intros (p & it & Hin & Hdir & Hm & ->). exists p. split; [|done].
    apply Hw. right. exists it. split; [done |]. unfold hit. by rewrite Hdir.
Qed.

Lemma each_ignore_pattern_is_announced_once_witness :
  NoDup (Part001.tout Cases.walked_with_link)
  ∧ ("  |-> ignoring:  *.log" +:+ nl) ∈ Part001.tout Cases.walked_with_link.
Proof.
  destruct (each_ignore_pattern_is_announced_once Sample.lib (Some ["*.log"])
              Sample.descriptor "./" Cases.dir_with_link Cases.walked_with_link
              ltac:(vm_compute; reflexivity)) as [Hnd Hlines].
  split; [exact Hnd |].
  apply Hlines. exists "*.log", (Sample.file_item "b.log" "b.log" "two").
  split; [unfold Cases.dir_with_link; repeat constructor |].
  split; [reflexivity |]. split; [vm_compute; reflexivity | reflexivity].
Defined.

(** Two log files, one notice. *)
Example two_files_one_notice :
  Part001.tout Cases.walked_with_link = ["  |-> ignoring:  *.log" +:+ nl].
Proof. vm_compute. reflexivity. Qed.

(** ** Archive names *)

Lemma prefix_append (a b : string) : String.prefix a (a +:+ b) = true.
Proof.
  induction a as [|x a IH]; str_simpl; [by destruct b |].
  by destruct (ascii_dec x x).
Qed.

Lemma remove_from_skip (old a t : string) :
  GoStrings.remove_from old (String.length a) (a +:+ t)
  = GoStrings.remove_from old 0 t.
Proof. induction a as [|x a IH]; str_simpl; [by destruct t | done]. Qed.

Lemma remove_from_absent (old s : string) :
  occurs_in old s = false → GoStrings.remove_from old 0 s = s.
Proof.
  induction s as [|c s IH]; intros H; [done |].
  change (String.prefix old (String c s) || occurs_in old s = false) in H.
  apply orb_false_iff in H as [Hp Hs].
  change (GoStrings.remove_from old 0 (String c s))
    with (if String.prefix old (String c s)
          then GoStrings.remove_from old (String.length old - 1) s
          else String c (GoStrings.remove_from old 0 s)).
  rewrite Hp. f_equal. by apply IH.
Qed.

Lemma substring_all (s : string) : String.substring 0 (String.length s) s = s.
Proof. induction s as [|c s IH]; simpl; [done | by f_equal]. Qed.

Lemma occurs_in_empty (s : string) : occurs_in EmptyString s = true.
Proof. by destruct s. Qed.

(** X9. The archive name of a path. A path that is the bundle directory, a
    separator and a relative path in which the text of the directory does
    not occur again is archived under the relative path; a path in which the
    text of the directory does not occur and that starts with no separator
    is archived as it is. *)
Theorem archive_name_is_the_relative_path (dir rel file : string) :
  (dir ≠ EmptyString → occurs_in dir ("/" +:+ rel) = false →
   archive_name (dir +:+ "/" +:+ rel) dir = rel)
  ∧ (occurs_in dir file = false → GoStrings.HasPrefix file "/" = false →
     archive_name file dir = file).
Proof.
  split.
  - intros Hdir Hocc. unfold archive_name, GoStrings.RemoveAll.
    apply String.eqb_neq in Hdir. rewrite Hdir.
    destruct dir as [|x dir]; [done |].
    change (GoStrings.remove_from (String x dir) 0 (String x dir +:+ "/" +:+ rel))
      with (if String.prefix (String x dir) (String x dir +:+ "/" +:+ rel)
            then GoStrings.remove_from (String x dir)
                   (String.length (String x dir) - 1) (dir +:+ "/" +:+ rel)
            else String x (GoStrings.remove_from (String x dir) 0
                             (dir +:+ "/" +:+ rel))).
    rewrite prefix_append.
    replace (String.length (String x dir) - 1)%nat with (String.length dir)
      by (simpl; lia).
    rewrite remove_from_skip, (remove_from_absent _ _ Hocc).
    unfold GoStrings.TrimPrefix, GoStrings.HasPrefix. str_simpl.
    destruct rel; simpl; [done |]. by rewrite substring_all.
  - intros Hocc Hsep. unfold archive_name, GoStrings.RemoveAll.
    destruct dir as [|x dir]; [by rewrite occurs_in_empty in Hocc |].
    simpl String.eqb. rewrite (remove_from_absent _ _ Hocc).
    unfold GoStrings.TrimPrefix. by rewrite Hsep.
Qed.

Lemma archive_name_is_the_relative_path_witness :
  archive_name "bundle/sub/a.txt" "bundle" = "sub/a.txt"
  ∧ archive_name "sub/a.txt" "./" = "sub/a.txt".
Proof.
  split.
  - apply (proj1 (archive_name_is_the_relative_path "bundle" "sub/a.txt" EmptyString));
      [discriminate | reflexivity].
  - apply (proj2 (archive_name_is_the_relative_path "./" EmptyString "sub/a.txt"));
      reflexivity.
Defined.

(** The text of the directory is removed wherever it occurs: with the
    directory "./", a directory whose name ends in a dot loses the dot and
    the separator. *)
Example archive_name_of_dotted_directory :
  occurs_in "./" "etc./conf" = true ∧ archive_name "etc./conf" "./" = "etcconf".
Proof. split; reflexivity. Qed.

(** ** Placeholders (part_001) *)

Lemma index_first_byte (c : ascii) (a b : string) :
  has_byte c a = false →
  String.index 0 (String c EmptyString) (a +:+ String c b) = Some (String.length a).
Proof.
  induction a as [|x a IH]; intros H.
  - rewrite append_nil. simpl. destruct (ascii_dec c c); [|done].
    by destruct b.
  - rewrite append_cons. simpl in H. apply orb_false_iff in H as [Hx Ha].
    apply Ascii.eqb_neq in Hx. simpl.
    destruct (ascii_dec c x); [done |]. by rewrite (IH Ha).
Qed.

Lemma index_absent (c : ascii) (s : string) :
  has_byte c s = false → String.index 0 (String c EmptyString) s = None.
Proof.
  induction s as [|x s IH]; intros H; simpl; [done |].
  simpl in H. apply orb_false_iff in H as [Hx Hs]. apply Ascii.eqb_neq in Hx.
  destruct (ascii_dec c x); [done |]. by rewrite (IH Hs).
Qed.

Lemma get_after (s t : string) (c : ascii) :
  String.get (String.length s) (s +:+ String c t) = Some c.
Proof. induction s as [|x s IH]; str_simpl; done. Qed.

Lemma substring_drop (a b : string) :
  String.substring (String.length a) (String.length b) (a +:+ b) = b.
Proof.
  induction a as [|x a IH]; str_simpl; [apply substring_all | done].
Qed.

Lemma substring_take (a b : string) :
  String.substring 0 (String.length a) (a +:+ b) = a.
Proof.
  induction a as [|x a IH]; str_simpl; [by destruct b | by f_equal].
Qed.

Lemma default_image_of_placeholder (var def : string) :
  has_byte "-" var = false →
  Part001.default_image
    (String "$" (String "{" (var +:+ String "-" (def +:+ "}")))) = inl def.
Proof.
  intros Hvar.
  remember (String "$" (String "{" (var +:+ String "-" (def +:+ "}")))) as image
    eqn:Himage.
  assert (image = String "$" (String "{" (var +:+ String "-" def)) +:+ "}") as Hlast.
  { subst image. autorewrite with str. do 2 f_equal.
    rewrite append_assoc. by autorewrite with str. }
  assert (image = String "$" (String "{" var) +:+ String "-" (def +:+ "}")) as Hdash.
  { subst image. by autorewrite with str. }
  assert (image = (String "$" (String "{" var) +:+ "-") +:+ (def +:+ "}")) as Hcut.
  { rewrite Hdash, append_assoc. by autorewrite with str. }
  assert (String.length image
          = (String.length (String "$" (String "{" var) +:+ "-")
             + String.length (def +:+ "}"))%nat) as Hlen
    by (by rewrite Hcut at 1; rewrite length_append).
  assert (String.length (String "$" (String "{" var) +:+ "-")
          = (String.length (String "$" (String "{" var)) + 1)%nat) as Hlena
    by (by rewrite length_append).
  assert (String.get 0 image = Some "$"%char) as H0 by (by subst image).
  assert (String.get 1 image = Some "{"%char) as H1 by (by subst image).
  assert (String.get (String.length image - 1) image = Some "}"%char) as Hl.
  { rewrite Hlast at 1. rewrite length_append. simpl String.length at 2.
    rewrite Nat.add_sub. rewrite Hlast. apply get_after. }
  assert (String.index 0 "-" image = Some (String.length (String "$" (String "{" var))))
    as Hi.
  { rewrite Hdash. apply index_first_byte. simpl. by rewrite Hvar. }
  unfold Part001.default_image. rewrite H0. simpl Ascii.eqb. cbv iota.
  rewrite H1, Hl. simpl negb. simpl orb. cbv iota.
  unfold GoStrings.SplitAfterN2. rewrite Hi. cbv zeta.
  simpl (String.length "-"). rewrite <- Hlena.
  replace (String.length image - String.length (String "$" (String "{" var) +:+ "-"))%nat
    with (String.length (def +:+ "}")) by lia.
  rewrite Hcut. rewrite substring_drop.
  rewrite length_append. simpl (String.length "}"). rewrite Nat.add_1_r.
  by rewrite substring_take.
Qed.

(** X10. A placeholder with a default value gives the default value: for a
    variable name without '-', the image ${name-default} is replaced by
    default before it is parsed, whatever the default holds. *)
Theorem placeholder_gives_its_default (var def : string) :
  has_byte "-" var = false →
  Part001.default_image ("${" +:+ var +:+ "-" +:+ def +:+ "}") = inl def.
Proof. apply default_image_of_placeholder. Qed.

Lemma placeholder_gives_its_default_witness :
  Part001.default_image "${REGISTRY-registry.example/app:1-rc}"
  = inl "registry.example/app:1-rc".
Proof. exact (placeholder_gives_its_default "REGISTRY" "registry.example/app:1-rc" eq_refl). Defined.

(** The first '-' ends the name: a name with a '-' is cut there. *)
Example placeholder_with_dash_in_name :
  Part001.default_image "${MY-VAR-nginx:stable}" = inl "VAR-nginx:stable".
Proof. reflexivity. Qed.

(** X11. A placeholder without a default value is refused with an error and
    no panic: an image of two bytes or more that starts with '$' and holds
    no '-' makes the loop body return an error that quotes the image, the
    complaint about its shape when it is not of the form ${...}, the
    complaint about the missing default otherwise. *)
Theorem placeholder_without_default_is_an_error (image : string) :
  String.get 0 image = Some "$"%char →
  (2 <= String.length image)%nat →
  has_byte "-" image = false →
  Part001.default_image image
  = inr (inl (Errorf ("Invalid image reference(" +:+ image +:+
        "). This does not look like a properly format ${variable-defval}")))
  ∨ Part001.default_image image
    = inr (inl (Errorf ("Invalid image reference(" +:+ image +:+
          "). Variable does not appear to have a default value"))).
Proof.
  intros H0 Hlen Hdash. unfold Part001.default_image. rewrite H0.
  simpl Ascii.eqb. cbv iota.
  destruct (get_in_range image 1 ltac:(lia)) as [c1 H1]. rewrite H1.
  destruct (get_in_range image (String.length image - 1) ltac:(lia)) as [cl Hl].
  rewrite Hl.
  destruct (negb (Ascii.eqb c1 "{") || negb (Ascii.eqb cl "}")); [by left |].
  right. unfold GoStrings.SplitAfterN2. by rewrite (index_absent _ _ Hdash).
Qed.

Lemma placeholder_without_default_is_an_error_witness :
  Part001.default_image "${IMAGE}"
  = inr (inl (Errorf ("Invalid image reference(" +:+ "${IMAGE}" +:+
        "). This does not look like a properly format ${variable-defval}")))
  ∨ Part001.default_image "${IMAGE}"
    = inr (inl (Errorf ("Invalid image reference(" +:+ "${IMAGE}" +:+
          "). Variable does not appear to have a default value"))).
Proof.
  exact (placeholder_without_default_is_an_error "${IMAGE}" eq_refl
           ltac:(simpl; lia) eq_refl).
Defined.

(** X12. The index expressions of the placeholder test are out of range,
    and the pass panics, for exactly two images: the empty one and "$". *)
Theorem placeholder_test_is_out_of_range_twice (image : string) :
  (∃ msg, Part001.default_image image = inr (inr msg))
  ↔ image = EmptyString ∨ image = "$".
Proof. apply placeholder_test_panics_iff. Qed.

Lemma placeholder_test_is_out_of_range_twice_witness :
  ∃ msg, Part001.default_image "$" = inr (inr msg).
Proof.
  apply (proj2 (placeholder_test_is_out_of_range_twice "$")). by right.
Defined.

(** ** A pass over services that can all be pinned *)

Lemma pass_pins_every_record body (R : gmap string Value → string → Prop)
    (services : list (string * Value)) :
  pins_or_stops body →
  (∀ h p q, R h p → R h q → p = q) →
  (∀ name a s pinned, R (deref s a) pinned →
     ∃ s', body name (VMap a) s = Next s'
           ∧ heap s' = <[a := <["image" := VStr pinned]> (deref s a)]> (heap s)) →
  ∀ s : St,
    NoDup (services.*2) →
    (∀ name obj, (name, obj) ∈ services →
       ∃ a pinned, obj = VMap a ∧ R (deref s a) pinned) →
    ∃ s', range_services body services s = Return s' None
          ∧ ∀ name a pinned, (name, VMap a) ∈ services →
              R (deref s a) pinned →
              heap s' !! a = Some (<["image" := VStr pinned]> (deref s a)).
Proof.
  intros Hb Hfun Hstep.
  induction services as [|[name obj] rest IH]; intros s Hnd Hall.
  - exists s. split; [done |]. intros n a p Hin. by apply elem_of_nil in Hin.
  - simpl in Hnd. apply NoDup_cons in Hnd as [Hfresh Hnd].
    destruct (Hall name obj ltac:(left)) as (a & pinned & -> & Hres).
    destruct (Hstep name a s pinned Hres) as (s1 & Hs1 & Hheap).
    assert (∀ n b, (n, VMap b) ∈ rest → b ≠ a) as Hother.
    { intros n b Hin ->. apply Hfresh.
      apply list_elem_of_fmap. by exists (n, VMap a). }
    assert (∀ n b, (n, VMap b) ∈ rest → deref s1 b = deref s b) as Hsame.
    { intros n b Hin. unfold deref. rewrite Hheap.
      by rewrite lookup_insert_ne by (symmetry; by apply (Hother n)). }
    destruct (IH s1 Hnd) as (s' & Hrun & Hpins).
    { intros n o Hin. destruct (Hall n o ltac:(by right)) as (b & p & -> & Hp).
      exists b, p. split; [done |]. by rewrite (Hsame n b Hin). }
    exists s'. simpl. rewrite Hs1. split; [done |].
    intros n b p Hin Hp. apply elem_of_cons in Hin as [Heq|Hin].
    + inversion Heq; subst n b. rewrite (Hfun _ _ _ Hp Hres).
      destruct (range_services_pins _ rest Hb s1 s' Hrun) as [_ Hkeep].
      rewrite (Hkeep a).
      * rewrite Hheap. by rewrite lookup_insert_eq.
      * intros [n Hin]. by apply (Hother n a Hin).
    + rewrite <- (Hsame n b Hin). apply (Hpins n b p Hin).
      by rewrite (Hsame n b Hin).
Qed.

Lemma inspects_to_functional (c : Collab) (h : gmap string Value) (p q : string) :
  inspects_to c h p → inspects_to c h q → p = q.
Proof.
  intros (i1 & n1 & d1 & Hi1 & Hp1 & Hd1 & ->) (i2 & n2 & d2 & Hi2 & Hp2 & Hd2 & ->).
  rewrite Hi1 in Hi2. inversion Hi2; subst i2.
  rewrite Hp1 in Hp2. inversion Hp2; subst n2.
  rewrite Hd1 in Hd2. by inversion Hd2; subst d2.
Qed.

Lemma part003_step_pins (c : Collab) (name : string) (a : addr) (s : St)
    (pinned : string) :
  inspects_to c (deref s a) pinned →
  ∃ s', Part003.pin_service c name (VMap a) s = Next s'
        ∧ heap s' = <[a := <["image" := VStr pinned]> (deref s a)]> (heap s).
Proof.
  intros (image & named & di & Himg & Hparse & Hdi & ->).
  unfold Part003.pin_service, image_attr. rewrite Himg.
  unfold Part003.resolve_and_pin. rewrite Hparse, Hdi.
  eexists. split; [reflexivity |].
  unfold set_image, deref. simpl. by rewrite print_platforms_heap.
Qed.

(** X13. A pass over services that can all be pinned ends well. When every
    service has a record of its own, and every record has an image that the
    revision can resolve (part_001: a tagged reference, after the default of
    a placeholder is taken, with its repository, manifest service and a
    manifest of a known kind; part_003: a reference that the engine
    inspects), the pass returns nil and every record is what it was with the
    image replaced by its digest-pinned reference. *)
Theorem pass_over_resolvable_services_pins_all (c : Collab)
    (services : list (string * Value)) (s : St) :
  NoDup (services.*2) →
  ((∀ name obj, (name, obj) ∈ services →
      ∃ a pinned, obj = VMap a ∧ resolves_to c (deref s a) pinned) →
   ∃ s', Part001.PinServiceImages c services s = Return s' None
         ∧ ∀ name a pinned, (name, VMap a) ∈ services →
             resolves_to c (deref s a) pinned →
             heap s' !! a = Some (<["image" := VStr pinned]> (deref s a)))
  ∧ ((∀ name obj, (name, obj) ∈ services →
        ∃ a pinned, obj = VMap a ∧ inspects_to c (deref s a) pinned) →
     ∃ s', Part003.PinServiceImages c services s = Return s' None
           ∧ ∀ name a pinned, (name, VMap a) ∈ services →
               inspects_to c (deref s a) pinned →
               heap s' !! a = Some (<["image" := VStr pinned]> (deref s a))).
Proof.
  intros Hnd. split; intros Hall.
  - apply (pass_pins_every_record (Part001.pin_service c) (resolves_to c));
      [apply part001_pins_or_stops | apply resolves_to_functional
      | intros; by apply part001_step_pins | done | done].
  - apply (pass_pins_every_record (Part003.pin_service c) (inspects_to c));
      [apply part003_pins_or_stops | apply inspects_to_functional
      | intros; by apply part003_step_pins | done | done].
Qed.

Lemma nginx_resolves (a : addr) :
  deref Sample.store a !! "image" = Some (VStr "nginx:stable") →
  resolves_to (Sample.collab Sample.repo_ok) (deref Sample.store a)
    "docker.io/library/nginx@sha256:aaa".
Proof.
  intros H. exists "nginx:stable", "nginx:stable", Sample.nginx_stable, "stable",
    Sample.repo_ok, Sample.manifests_ok.
  repeat split; try done. right. by exists Sample.multi_arch.
Qed.

Lemma pass_over_resolvable_services_pins_all_witness :
  ∃ s', Part001.PinServiceImages (Sample.collab Sample.repo_ok)
          Cases.two_services Sample.store = Return s' None
        ∧ heap s' !! 3
          = Some (<["image" := VStr "docker.io/library/nginx@sha256:aaa"]>
                    (deref Sample.store 3)).
Proof.
  assert (NoDup (Cases.two_services.*2)) as Hnd.
  { unfold Cases.two_services. simpl. apply NoDup_cons. split.
    - intros H. apply list_elem_of_singleton in H. discriminate.
    - apply NoDup_singleton. }
  destruct (proj1 (pass_over_resolvable_services_pins_all
                     (Sample.collab Sample.repo_ok) Cases.two_services Sample.store
                     Hnd))
    as (s' & Hrun & Hpins).
  - intros name obj Hin. unfold Cases.two_services in Hin.
    apply elem_of_cons in Hin as [Heq|Hin]; [inversion Heq; subst |].
    + exists 1, "docker.io/library/nginx@sha256:aaa". split; [done |].
      apply nginx_resolves. vm_compute. reflexivity.
    + apply list_elem_of_singleton in Hin. inversion Hin; subst.
      exists 3, "docker.io/library/nginx@sha256:aaa". split; [done |].
      apply nginx_resolves. vm_compute. reflexivity.
  - exists s'. split; [exact Hrun |].
    apply (Hpins "cache" 3); [unfold Cases.two_services; repeat constructor |].
    apply nginx_resolves. vm_compute. reflexivity.
Defined.

(** ** What a publication reports *)

(** In the revisions other than part_001 the archive step prints nothing;
    in part_001 it prints the notices of [createTgz]. *)
Lemma archive_notices_of_the_revisions (lib : FsLib) (items : list WalkItem)
    (ignore_file : list byte + error) (pinned : list byte) :
  archive_notices (inl pinned)
    (fun composeContent dir => ([], Publish.createTgz lib items composeContent dir))
  = []
  ∧ archive_notices (inl pinned)
      (fun composeContent dir => ([], Part002.createTgz lib items composeContent dir))
    = []
  ∧ archive_notices (inl pinned)
      (fun composeContent dir => ([], Part003.createTgz lib items composeContent dir))
    = []
  ∧ archive_notices (inl pinned) (Part001.createTgz lib ignore_file items)
    = (Part001.createTgz lib ignore_file items pinned "./").1.
Proof. done. Qed.

(** X14. [CreateBundle] and [CreateApp] return nil in exactly two ways. In
    both, the output has grown first by the lines that [createTgz] printed
    (the notices of ignore patterns in part_001, nothing in the other
    revisions). Either every step up to the blob upload went well and the
    registry refused the archive, and then nothing else was printed; or
    every step went well, and then the blob line and the manifest line
    follow, the pushed manifest has the stored blob as its one layer and the
    annotation [{kind: "v1"}], and it was pushed under the tag of the target
    ("latest" when the normalized target carries none). *)
Theorem publication_returns_nil_in_two_ways (c : Collab) (kind label : string)
    (marshalled : list byte + error)
    (tgz : list byte → string → list string * (list Entry + error))
    (target : string) (o o' : list string) :
  publish c kind label marshalled tgz target o = Return o' None
  ↔ (blob_refused c marshalled tgz target
     ∧ o' = o ++ archive_notices marshalled tgz)
    ∨ ∃ named repo desc svc digest,
        uploaded c marshalled tgz target named repo desc
        ∧ Build c (mkOCIManifest [(kind, "v1")] [desc]) = None
        ∧ repo_Manifests repo = (Some svc, None)
        ∧ ms_Put svc (mkOCIManifest [(kind, "v1")] [desc]) (target_tag c named)
          = (digest, None)
        ∧ o' = o ++ archive_notices marshalled tgz
                 ++ [blob_line label desc; manifest_line digest].
Proof.
  unfold publish, target_tag, blob_line, manifest_line, archive_notices. split.
  - destruct marshalled as [pinned|e]; [|done].
    destruct (tgz pinned "./") as [printed [buff|e]] eqn:Htgz; [|done].
    destruct (ParseNormalizedNamed c target) as [named|e] eqn:Hparse; [|done].
    destruct (GetRepository c named) as [repo|e] eqn:Hrepo; [|done].
    destruct (bs_Put (Blobs repo) "application/tar+gzip" buff)
      as [desc [e|]] eqn:Hput.
    { intros H. inversion H; subst o'. left. split; [|done].
      exists pinned, buff, named, repo, desc, e. by rewrite Htgz. }
    destruct (Build c (mkOCIManifest [(kind, "v1")] [desc])) as [e|] eqn:Hb; [done|].
    destruct (repo_Manifests repo) as [[svc|] [e|]] eqn:Hm; try done.
    destruct (ms_Put svc _ _) as [digest [e|]] eqn:Hpush; [done|].
    intros H. inversion H; subst o'. right.
    exists named, repo, desc, svc, digest. repeat split; try done.
    + exists pinned, buff. by rewrite Htgz.
    + simpl. by rewrite <- !app_assoc.
  - intros [[(pinned & buff & named & repo & desc & e & -> & Htgz & Hp & Hr & Hput) ->]
           |(named & repo & desc & svc & digest
             & (pinned & buff & -> & Htgz & Hp & Hr & Hput) & Hb & Hm & Hpush & ->)];
      destruct (tgz pinned "./") as [printed archived]; simpl in Htgz; subst archived.
    + by rewrite Hp, Hr, Hput.
    + rewrite Hp, Hr, Hput, Hb, Hm, Hpush. simpl. by rewrite <- !app_assoc.
Qed.

Lemma publication_returns_nil_in_two_ways_witness :
  publish (Sample.collab Sample.repo_blob_failing) "compose-app" "app"
    (inl Sample.descriptor)
    (Part001.createTgz Sample.lib (inl (Sample.bytes "sub/*")) Sample.dir_of_scenario)
    "registry.example/app:v1" []
  = Return ["  |-> ignoring:  .composeappignores" +:+ nl;
            "  |-> ignoring:  sub/*" +:+ nl] None.
Proof.
  apply (proj2 (publication_returns_nil_in_two_ways
                  (Sample.collab Sample.repo_blob_failing) "compose-app" "app"
                  (inl Sample.descriptor)
                  (Part001.createTgz Sample.lib (inl (Sample.bytes "sub/*"))
                     Sample.dir_of_scenario)
                  "registry.example/app:v1" [] _)).
  left. split; [|vm_compute; reflexivity].
  exists Sample.descriptor.
  eexists. exists (mkNamed "registry.example" "app" (Some "v1") None),
    Sample.repo_blob_failing.
  eexists. eexists.
  split; [reflexivity |]. split; [vm_compute; reflexivity |].
  split; [reflexivity |]. split; reflexivity.
Defined.

(** A publication that goes through, one that the registry refuses, and
    one of part_001 with its notices. *)
Example bundle_is_published :
  Publish.CreateBundle (Sample.collab Sample.repo_ok) Sample.lib
    Sample.dir_without_descriptor (inl Sample.descriptor)
    "registry.example/app:v1" []
  = Return ["  |-> bundle:  sha256:bbb" +:+ nl;
            "  |-> manifest:  sha256:mmm" +:+ nl] None.
Proof. vm_compute. reflexivity. Qed.

Example refused_bundle_prints_nothing :
  Publish.CreateBundle (Sample.collab Sample.repo_blob_failing) Sample.lib
    Sample.dir_without_descriptor (inl Sample.descriptor)
    "registry.example/app:v1" []
  = Return [] None.
Proof. vm_compute. reflexivity. Qed.

Example app_is_published_after_its_notices :
  Part001.CreateApp (Sample.collab Sample.repo_ok) Sample.lib
    (inl (Sample.bytes "sub/*")) Sample.dir_of_scenario (inl Sample.descriptor)
    "registry.example/app:v1" []
  = Return ["  |-> ignoring:  .composeappignores" +:+ nl;
            "  |-> ignoring:  sub/*" +:+ nl;
            "  |-> app:  sha256:bbb" +:+ nl;
            "  |-> manifest:  sha256:mmm" +:+ nl] None.
Proof. vm_compute. reflexivity. Qed.

(** X15. An error that [CreateBundle] or [CreateApp] returns is the error
    of one of its steps, unchanged, and the output tells where it stopped.
    The output has grown first by the lines that [createTgz] printed before
    it returned (notices of ignore patterns in part_001, nothing in the
    other revisions, nothing when serializing failed). Nothing follows them
    when serializing, archiving, parsing the target or resolving its
    repository failed; the blob line alone follows them when the manifest
    builder, the request for the manifest service or the push failed, which
    happens after the registry has stored the archive. *)
Theorem publication_error_is_a_step_error (c : Collab) (kind label : string)
    (marshalled : list byte + error)
    (tgz : list byte → string → list string * (list Entry + error))
    (target : string) (o o' : list string) (err : error) :
  publish c kind label marshalled tgz target o = Return o' (Some err) →
  (fails_before_upload c marshalled tgz target err
   ∧ o' = o ++ archive_notices marshalled tgz)
  ∨ ∃ named repo desc,
      uploaded c marshalled tgz target named repo desc
      ∧ fails_after_upload c kind named repo desc err
      ∧ o' = o ++ archive_notices marshalled tgz ++ [blob_line label desc].
Proof.
  unfold publish, fails_before_upload, fails_after_upload, target_tag, blob_line,
    archive_notices.
  destruct marshalled as [pinned|e].
  2:{ intros H. inversion H; subst. left. split; [by left | by rewrite app_nil_r]. }
  destruct (tgz pinned "./") as [printed [buff|e]] eqn:Htgz.
  2:{ intros H. inversion H; subst. left. split; [|done].
      right. exists pinned. split; [done|]. left. by rewrite Htgz. }
  destruct (ParseNormalizedNamed c target) as [named|e] eqn:Hparse.
  2:{ intros H. inversion H; subst. left. split; [|done].
      right. exists pinned. split; [done|]. right. exists buff.
      split; [by rewrite Htgz|]. by left. }
  destruct (GetRepository c named) as [repo|e] eqn:Hrepo.
  2:{ intros H. inversion H; subst. left. split; [|done].
      right. exists pinned. split; [done|]. right. exists buff.
      split; [by rewrite Htgz|]. right. by exists named. }
  destruct (bs_Put (Blobs repo) "application/tar+gzip" buff)
    as [desc [e|]] eqn:Hput; [done|].
  assert (uploaded c (inl pinned) tgz target named repo desc) as Hup.
  { exists pinned, buff. by rewrite Htgz. }
  destruct (Build c (mkOCIManifest [(kind, "v1")] [desc])) as [e|] eqn:Hb.
  { intros H. inversion H; subst. right. exists named, repo, desc.
    split; [done|]. split; [by left | by rewrite <- app_assoc]. }
  destruct (repo_Manifests repo) as [[svc|] [e|]] eqn:Hm; try done.
  - intros H. inversion H; subst. right. exists named, repo, desc.
    split; [done|]. split; [|by rewrite <- app_assoc].
    right. split; [done|]. left. by rewrite Hm.
  - destruct (ms_Put svc _ _) as [digest [e|]] eqn:Hpush; [|done].
    intros H. inversion H; subst. right. exists named, repo, desc.
    split; [done|]. split; [|by rewrite <- app_assoc]. right. split; [done|]. right.
    exists svc, digest. by rewrite Hm.
  - intros H. inversion H; subst. right. exists named, repo, desc.
    split; [done|]. split; [|by rewrite <- app_assoc].
    right. split; [done|]. left. by rewrite Hm.
Qed.

Lemma publication_error_is_a_step_error_witness :
  (fails_before_upload (Sample.collab Sample.repo_without_manifests)
     (inl Sample.descriptor)
     (Part001.createTgz Sample.lib (inl (Sample.bytes "sub/*")) Sample.dir_of_scenario)
     "registry.example/app:v1" (LibError "manifest service: unauthorized")
   ∧ ["  |-> ignoring:  .composeappignores" +:+ nl;
      "  |-> ignoring:  sub/*" +:+ nl;
      "  |-> app:  sha256:bbb" +:+ nl]
     = [] ++ archive_notices (inl Sample.descriptor)
               (Part001.createTgz Sample.lib (inl (Sample.bytes "sub/*"))
                  Sample.dir_of_scenario))
  ∨ ∃ named repo desc,
      uploaded (Sample.collab Sample.repo_without_manifests)
        (inl Sample.descriptor)
        (Part001.createTgz Sample.lib (inl (Sample.bytes "sub/*"))
           Sample.dir_of_scenario)
        "registry.example/app:v1" named repo desc
      ∧ fails_after_upload (Sample.collab Sample.repo_without_manifests)
          "compose-app" named repo desc (LibError "manifest service: unauthorized")
      ∧ ["  |-> ignoring:  .composeappignores" +:+ nl;
         "  |-> ignoring:  sub/*" +:+ nl;
         "  |-> app:  sha256:bbb" +:+ nl]
        = [] ++ archive_notices (inl Sample.descriptor)
                  (Part001.createTgz Sample.lib (inl (Sample.bytes "sub/*"))
                     Sample.dir_of_scenario)
             ++ [blob_line "app" desc].
Proof.
  apply (publication_error_is_a_step_error
           (Sample.collab Sample.repo_without_manifests) "compose-app" "app"
           (inl Sample.descriptor)
           (Part001.createTgz Sample.lib (inl (Sample.bytes "sub/*"))
              Sample.dir_of_scenario)
           "registry.example/app:v1" []).
  vm_compute. reflexivity.
Defined.

(** A walk that fails after a notice: the notice stays printed. *)
Example failed_archive_keeps_its_notices :
  Part001.CreateApp (Sample.collab Sample.repo_ok) Sample.lib
    (inl (Sample.bytes "a.*")) Cases.dir_with_fifo (inl Sample.descriptor)
    "registry.example/app:v1" []
  = Return ["  |-> ignoring:  a.*" +:+ nl]
      (Some (Errorf "Tar: Can't tar non regular types yet: queue")).
Proof. vm_compute. reflexivity. Qed.

(** ** Services that share a name *)

Lemma update_first_later (name pinned : string) (l : list Publish.ServiceConfig)
    (j i : nat) (first later : Publish.ServiceConfig) :
  (j < i)%nat →
  l !! j = Some first →
  l !! i = Some later →
  Publish.Name first = Publish.Name later →
  Publish.update_first name pinned l !! i = Some later
  ∧ ∃ first', Publish.update_first name pinned l !! j = Some first'
              ∧ Publish.Name first' = Publish.Name first.
Proof.
  revert j i. induction l as [|sv l IH]; intros j i Hlt Hj Hi Hname; [done |].
  destruct i as [|i]; [lia |]. simpl in Hi. simpl.
  destruct (String.eqb (Publish.Name sv) name) eqn:E.
  - split; [done |]. destruct j as [|j]; simpl in *.
    + inversion Hj; subst. by eexists.
    + by exists first.
  - destruct j as [|j]; simpl in *.
    + inversion Hj; subst first. split; [|by eexists].
      clear IH Hlt Hj. revert i Hi. induction l as [|x l IHl]; intros i Hi; [done |].
      simpl. destruct (String.eqb (Publish.Name x) name) eqn:Ex.
      * destruct i as [|i]; [|done]. simpl in Hi. inversion Hi; subst x.
        rewrite Hname in E. congruence.
      * destruct i as [|i]; [done |]. simpl in *. by apply IHl.
    + apply (IH j i); [lia | done..].
Qed.

Lemma typed_step_skips_later_twin (c : Collab) (service : Publish.ServiceConfig)
    (s : Publish.CSt) (j i : nat) (first later : Publish.ServiceConfig) :
  (j < i)%nat →
  Publish.Services s !! j = Some first →
  Publish.Services s !! i = Some later →
  Publish.Name first = Publish.Name later →
  let s' := flow_state (Publish.pin_service c service s) in
  Publish.Services s' !! i = Some later
  ∧ ∃ first', Publish.Services s' !! j = Some first'
              ∧ Publish.Name first' = Publish.Name first.
Proof.
  intros Hlt Hj Hi Hname. unfold Publish.pin_service.
  destruct (ParseNormalizedNamed c (Publish.Image service)) as [named|e];
    [|simpl; split; [done | by exists first]].
  destruct (DistributionInspectCall c (Publish.Image service)) as [di [e|]];
    [simpl; split; [done | by exists first] |].
  simpl. rewrite cprint_platforms_services. simpl.
  by apply (update_first_later _ _ _ j i first later).
Qed.

(** X16. Of the services of the typed configuration that share a name, only
    the first is ever written: a service that has an earlier service of the
    same name leaves every pin pass as it entered it, whatever the pass ends
    in and however often a service of that name is handed to the
    consumer. *)
Theorem later_service_of_a_name_is_never_pinned (c : Collab)
    (visited : list Publish.ServiceConfig) (s : Publish.CSt) (j i : nat)
    (first later : Publish.ServiceConfig) :
  (j < i)%nat →
  Publish.Services s !! j = Some first →
  Publish.Services s !! i = Some later →
  Publish.Name first = Publish.Name later →
  Publish.Services (flow_state (Publish.PinServiceImages c visited s)) !! i
  = Some later.
Proof.
  intros Hlt. unfold Publish.PinServiceImages. revert s first.
  induction visited as [|service rest IH]; intros s first Hj Hi Hname; simpl;
    [done |].
  destruct (typed_step_skips_later_twin c service s j i first later Hlt Hj Hi Hname)
    as [Hi' (first' & Hj' & Hname')].
  destruct (Publish.pin_service c service s) as [s1|s1 e|s1 m]; simpl in *;
    [|done..].
  apply (IH s1 first'); [done | done | congruence].
Qed.

Lemma later_service_of_a_name_is_never_pinned_witness :
  Publish.Services
    (flow_state (Publish.PinServiceImages (Sample.collab Sample.repo_ok)
                   (Publish.Services Cases.twin_config) Cases.twin_config)) !! 2%nat
  = Some (Publish.mkServiceConfig "web" "nginx:stable").
Proof.
  apply (later_service_of_a_name_is_never_pinned (Sample.collab Sample.repo_ok)
           (Publish.Services Cases.twin_config) Cases.twin_config 0 2
           (Publish.mkServiceConfig "web" "nginx:stable")
           (Publish.mkServiceConfig "web" "nginx:stable"));
    [lia | reflexivity..].
Defined.

(** The first of the two is pinned. *)
Example first_twin_is_pinned :
  Publish.Services
    (flow_state (Publish.PinServiceImages (Sample.collab Sample.repo_ok)
                   (Publish.Services Cases.twin_config) Cases.twin_config)) !! 0%nat
  = Some (Publish.mkServiceConfig "web" "docker.io/library/nginx@sha256:aaa").
Proof. vm_compute. reflexivity. Qed.
